(** * Contin: regularised inversion of a Fredholm integral equation

    A shallow embedding of [Contin/contin.c] and the verification of its
    discretisation builder ([parameter_alloc]), its regularisation operator
    ([diff2]), its objective evaluators ([fun], [fun_df], [fun_fdf],
    [fun_Hv]) and its inversion driver ([contin]).

    Conventions of the embedding.
    - A C [double] is an element of a carrier [D] with the operations of
      the class [double_ops]; the evaluators are embedded once, for every
      carrier, with the operations in the order the C expressions apply
      them.  Properties that only depend on the sequence of operations are
      proved for every carrier; algebraic identities are proved for the
      instance [R_ops] (exact real arithmetic).
    - A [gsl_vector] is the list of its cells; a cell is [None] as long as
      nothing has been written to it since [gsl_vector_alloc].
    - A run has no result ([None]) when a GSL range or length check calls
      the GSL error handler, when an allocation is refused, or when a cell
      is read that was never written.
    - C [int] and [size_t] values are integers of [Z]; the only place where
      the unsigned wrap-around matters ([ddg->size - 1] in [diff2]) writes
      it out. *)

From Stdlib Require Import List ZArith Lia Bool.
From Stdlib Require Import Reals Lra.
Import ListNotations.

Set Implicit Arguments.

(** ** Arithmetic on doubles *)

Class double_ops (D : Type) : Type := {
  of_int  : Z -> D;            (* conversion int -> double, and the literals 0, 1.0, 2, 100.0 *)
  dhalf   : D;                 (* the literal 0.5 *)
  dM_1_PI : D;                 (* M_1_PI of math.h *)
  dadd    : D -> D -> D;
  dsub    : D -> D -> D;
  dmul    : D -> D -> D;
  ddiv    : D -> D -> D;
  dneg    : D -> D;
  dexp    : D -> D             (* exp of math.h *)
}.

Declare Scope double_scope.
Delimit Scope double_scope with dbl.
Infix "+" := dadd : double_scope.
Infix "-" := dsub : double_scope.
Infix "*" := dmul : double_scope.
Infix "/" := ddiv : double_scope.
Notation "- x" := (dneg x) : double_scope.

(** ** The option monad of runs *)

Definition bind {A B : Type} (c : option A) (k : A -> option B) : option B :=
  match c with
  | Some a => k a
  | None => None
  end.

Notation "x <- c ;; k" := (bind c (fun x => k))
  (at level 61, c at next level, right associativity).

(** [for (i = lo; i < hi; i++) body]: [k] iterations starting at index [i],
    the loop state threaded through, stopping at the first failing
    iteration. *)
Fixpoint for_iter {S : Type} (k : nat) (i : Z) (body : Z -> S -> option S) (s : S)
  : option S :=
  match k with
  | O => Some s
  | Datatypes.S k' => s' <- body i s ;; for_iter k' (i + 1)%Z body s'
  end.

Definition for_range {S : Type} (lo hi : Z) (body : Z -> S -> option S) (s : S)
  : option S :=
  for_iter (Z.to_nat (hi - lo)) lo body s.

(** In-place update of one position of a list. *)
Fixpoint list_update {A : Type} (l : list A) (i : nat) (a : A) : list A :=
  match l, i with
  | [], _ => []
  | _ :: t, O => a :: t
  | h :: t, Datatypes.S i' => h :: list_update t i' a
  end.

(** [size_t] subtraction, as in [ddg->size - 1]: below zero it wraps
    around. *)
Definition size_t_sub (a b : Z) : Z :=
  (if b <=? a then a - b else a - b + 2 ^ 64)%Z.

Section Embedding.

Context {D : Type} {ops : double_ops D}.

Local Open Scope Z_scope.

Definition sqr (x : D) : D := (x * x)%dbl.

(** ** GSL vectors and matrices *)

Definition gsl_vector : Type := list (option D).
Definition gsl_matrix : Type := list gsl_vector.

Definition vsize (v : gsl_vector) : Z := Z.of_nat (length v).

(** A fully written vector. *)
Definition vec (l : list D) : gsl_vector := map (@Some D) l.

(** GSL 1.x refuses a length that is not positive; a negative [int] turned
    into [size_t] cannot be allocated either. *)
Definition gsl_vector_alloc (n : Z) : option gsl_vector :=
  if 0 <? n then Some (repeat None (Z.to_nat n)) else None.

Definition gsl_matrix_alloc (n m : Z) : option gsl_matrix :=
  if (0 <? n) && (0 <? m)
  then Some (repeat (repeat None (Z.to_nat m)) (Z.to_nat n))
  else None.

Definition gsl_vector_get (v : gsl_vector) (i : Z) : option D :=
  if (0 <=? i) && (i <? vsize v) then nth (Z.to_nat i) v None else None.

Definition gsl_vector_set (v : gsl_vector) (i : Z) (d : D) : option gsl_vector :=
  if (0 <=? i) && (i <? vsize v)
  then Some (list_update v (Z.to_nat i) (Some d))
  else None.

Definition gsl_vector_set_all (v : gsl_vector) (d : D) : gsl_vector :=
  map (fun _ => Some d) v.

Definition gsl_vector_memcpy (dest src : gsl_vector) : option gsl_vector :=
  if vsize dest =? vsize src then Some src else None.

Definition gsl_matrix_get (K : gsl_matrix) (i j : Z) : option D :=
  if (0 <=? i) && (i <? Z.of_nat (length K))
  then gsl_vector_get (nth (Z.to_nat i) K []) j
  else None.

Definition gsl_matrix_set (K : gsl_matrix) (i j : Z) (d : D) : option gsl_matrix :=
  if (0 <=? i) && (i <? Z.of_nat (length K))
  then row <- gsl_vector_set (nth (Z.to_nat i) K []) j d ;;
       Some (list_update K (Z.to_nat i) row)
  else None.

(** ** The regularisation operator

    [diff2 x ddg] is the content of [ddg] after the call; [ddg] comes in
    with whatever it held. *)
Definition diff2 (x ddg : gsl_vector) : option gsl_vector :=
  ddg <- for_range 1 (size_t_sub (vsize ddg) 1)
           (fun i ddg =>
              xm <- gsl_vector_get x (i - 1) ;;
              xi <- gsl_vector_get x i ;;
              xp <- gsl_vector_get x (i + 1) ;;
              gsl_vector_set ddg i (xm - of_int 2 * xi + xp)%dbl)
           ddg ;;
  x0 <- gsl_vector_get x 0 ;;
  x1 <- gsl_vector_get x 1 ;;
  ddg <- gsl_vector_set ddg 0 (of_int (- 2) * x0 + x1)%dbl ;;
  xa <- gsl_vector_get x (size_t_sub (vsize ddg) 2) ;;
  xb <- gsl_vector_get x (size_t_sub (vsize ddg) 1) ;;
  gsl_vector_set ddg (size_t_sub (vsize ddg) 1) (xa - of_int 2 * xb)%dbl.

(** ** The problem parameters *)

Record parameter : Type := {
  p_K     : gsl_matrix;   (* matrix for integration kernel *)
  p_y     : gsl_vector;   (* y-axis of observed data *)
  p_t     : gsl_vector;   (* t-axis of observed data *)
  p_tau   : gsl_vector;   (* tau-axis for time constants *)
  p_w     : gsl_vector;   (* weights for euclidian norm *)
  p_c     : gsl_vector;   (* weights due to numerical integration *)
  p_alpha : D             (* strength of regularizer *)
}.

Definition parameter_alloc (t y var : gsl_vector) (alpha tau0 tau1 : D)
    (m kernelType : Z) : option parameter :=
  let n := vsize t in
  pK <- gsl_matrix_alloc n m ;;
  pw <- gsl_vector_alloc n ;;
  pc <- gsl_vector_alloc m ;;
  py <- gsl_vector_alloc n ;;
  ptau <- gsl_vector_alloc m ;;
  pt <- gsl_vector_alloc n ;;
  let dtau := ((tau1 - tau0) / of_int (m - 1))%dbl in
  py <- gsl_vector_memcpy py y ;;
  pt <- gsl_vector_memcpy pt t ;;
  ptau <- for_range 0 m
            (fun j ptau => gsl_vector_set ptau j (tau0 + of_int j * dtau)%dbl)
            ptau ;;
  Kw <- for_range 0 n
          (fun i Kw =>
             pK <- for_range 0 m
                     (fun j pK =>
                        if kernelType =? 0 then
                          ti <- gsl_vector_get pt i ;;
                          tj <- gsl_vector_get ptau j ;;
                          gsl_matrix_set pK i j (dexp (- ti / tj))%dbl
                        else if kernelType =? 1 then
                          tj <- gsl_vector_get ptau j ;;
                          ti <- gsl_vector_get pt i ;;
                          tj' <- gsl_vector_get ptau j ;;
                          gsl_matrix_set pK i j
                            (dM_1_PI * tj / (sqr ti + sqr tj'))%dbl
                        else Some pK)
                     (fst Kw) ;;
             vi <- gsl_vector_get var i ;;
             pw <- gsl_vector_set (snd Kw) i (of_int 1 / vi)%dbl ;;
             Some (pK, pw))
          (pK, pw) ;;
  pc <- for_range 0 m
          (fun j pc =>
             if (j =? 0) || (j =? m - 1)
             then gsl_vector_set pc j (dhalf * dtau)%dbl
             else gsl_vector_set pc j dtau)
          pc ;;
  Some {| p_K := fst Kw; p_y := py; p_t := pt; p_tau := ptau;
          p_w := snd Kw; p_c := pc; p_alpha := alpha |}.

(** ** The objective evaluators *)

Definition fun_ (x : gsl_vector) (p : parameter) : option D :=
  let n := vsize (p_y p) in
  let m := vsize x - 1 in
  d2g <- gsl_vector_alloc m ;;
  d2g <- diff2 x d2g ;;
  b <- gsl_vector_get x m ;;
  var <- for_range 0 n
           (fun i var =>
              z <- for_range 0 m
                     (fun j z =>
                        cj <- gsl_vector_get (p_c p) j ;;
                        kij <- gsl_matrix_get (p_K p) i j ;;
                        xj <- gsl_vector_get x j ;;
                        Some (z + cj * kij * xj)%dbl)
                     b ;;
              wi <- gsl_vector_get (p_w p) i ;;
              yi <- gsl_vector_get (p_y p) i ;;
              Some (var + wi * sqr (yi - z))%dbl)
           (of_int 0) ;;
  reg <- for_range 0 m
           (fun i reg =>
              di <- gsl_vector_get d2g i ;;
              Some (reg + sqr di)%dbl)
           (of_int 0) ;;
  Some (var + p_alpha p * p_alpha p * reg)%dbl.

Definition fun_df (x : gsl_vector) (p : parameter) (grad : gsl_vector)
  : option gsl_vector :=
  let n := vsize (p_y p) in
  let m := vsize x - 1 in
  z <- gsl_vector_alloc n ;;
  d2g <- gsl_vector_alloc m ;;
  d4g <- gsl_vector_alloc m ;;
  d2g <- diff2 x d2g ;;
  d4g <- diff2 d2g d4g ;;
  b <- gsl_vector_get x m ;;
  z <- for_range 0 n
         (fun i z =>
            zi <- for_range 0 m
                    (fun j zi =>
                       cj <- gsl_vector_get (p_c p) j ;;
                       kij <- gsl_matrix_get (p_K p) i j ;;
                       xj <- gsl_vector_get x j ;;
                       Some (zi + cj * kij * xj)%dbl)
                    b ;;
            gsl_vector_set z i zi)
         z ;;
  grad <- for_range 0 m
            (fun i grad =>
               gradi <- for_range 0 n
                          (fun j gradi =>
                             wj <- gsl_vector_get (p_w p) j ;;
                             zj <- gsl_vector_get z j ;;
                             yj <- gsl_vector_get (p_y p) j ;;
                             ci <- gsl_vector_get (p_c p) i ;;
                             kji <- gsl_matrix_get (p_K p) j i ;;
                             Some (gradi + of_int 2 * wj * (zj - yj) * ci * kji)%dbl)
                          (of_int 0) ;;
               d4 <- gsl_vector_get d4g i ;;
               gsl_vector_set grad i
                 (gradi + of_int 2 * p_alpha p * p_alpha p * d4)%dbl)
            grad ;;
  gradm <- for_range 0 n
             (fun j gradm =>
                wj <- gsl_vector_get (p_w p) j ;;
                zj <- gsl_vector_get z j ;;
                yj <- gsl_vector_get (p_y p) j ;;
                Some (gradm + of_int 2 * wj * (zj - yj))%dbl)
             (of_int 0) ;;
  gsl_vector_set grad m gradm.

Definition fun_fdf (x : gsl_vector) (p : parameter) (grad : gsl_vector)
  : option (D * gsl_vector) :=
  let n := vsize (p_y p) in
  let m := vsize x - 1 in
  z <- gsl_vector_alloc n ;;
  d2g <- gsl_vector_alloc m ;;
  d4g <- gsl_vector_alloc m ;;
  d2g <- diff2 x d2g ;;
  d4g <- diff2 d2g d4g ;;
  b <- gsl_vector_get x m ;;
  z <- for_range 0 n
         (fun i z =>
            zi <- for_range 0 m
                    (fun j zi =>
                       cj <- gsl_vector_get (p_c p) j ;;
                       kij <- gsl_matrix_get (p_K p) i j ;;
                       xj <- gsl_vector_get x j ;;
                       Some (zi + cj * kij * xj)%dbl)
                    b ;;
            gsl_vector_set z i zi)
         z ;;
  var <- for_range 0 n
           (fun i var =>
              wi <- gsl_vector_get (p_w p) i ;;
              yi <- gsl_vector_get (p_y p) i ;;
              zi <- gsl_vector_get z i ;;
              Some (var + wi * sqr (yi - zi))%dbl)
           (of_int 0) ;;
  reg <- for_range 0 m
           (fun i reg =>
              di <- gsl_vector_get d2g i ;;
              Some (reg + sqr di)%dbl)
           (of_int 0) ;;
  let f := (var + p_alpha p * p_alpha p * reg)%dbl in
  grad <- for_range 0 m
            (fun i grad =>
               gradi <- for_range 0 n
                          (fun j gradi =>
                             wj <- gsl_vector_get (p_w p) j ;;
                             zj <- gsl_vector_get z j ;;
                             yj <- gsl_vector_get (p_y p) j ;;
                             ci <- gsl_vector_get (p_c p) i ;;
                             kji <- gsl_matrix_get (p_K p) j i ;;
                             Some (gradi + of_int 2 * wj * (zj - yj) * ci * kji)%dbl)
                          (of_int 0) ;;
               d4 <- gsl_vector_get d4g i ;;
               gsl_vector_set grad i
                 (gradi + of_int 2 * p_alpha p * p_alpha p * d4)%dbl)
            grad ;;
  gradm <- for_range 0 n
             (fun j gradm =>
                wj <- gsl_vector_get (p_w p) j ;;
                zj <- gsl_vector_get z j ;;
                yj <- gsl_vector_get (p_y p) j ;;
                Some (gradm + of_int 2 * wj * (zj - yj))%dbl)
             (of_int 0) ;;
  grad <- gsl_vector_set grad m gradm ;;
  Some (f, grad).

Definition fun_Hv (x : gsl_vector) (p : parameter) (v hv : gsl_vector)
  : option gsl_vector :=
  let n := vsize (p_y p) in
  let m := vsize x - 1 in
  d2v <- gsl_vector_alloc m ;;
  d4v <- gsl_vector_alloc m ;;
  d2v <- diff2 v d2v ;;
  d4v <- diff2 d2v d4v ;;
  H3 <- for_range 0 n
          (fun k H3 =>
             wk <- gsl_vector_get (p_w p) k ;;
             Some (H3 + of_int 2 * wk)%dbl)
          (of_int 0) ;;
  vm <- gsl_vector_get v m ;;
  st <- for_range 0 m
          (fun i st =>
             H2i <- for_range 0 n
                      (fun k H2i =>
                         wk <- gsl_vector_get (p_w p) k ;;
                         ci <- gsl_vector_get (p_c p) i ;;
                         kki <- gsl_matrix_get (p_K p) k i ;;
                         Some (H2i + of_int 2 * wk * ci * kki)%dbl)
                      (of_int 0) ;;
             vi <- gsl_vector_get v i ;;
             let hvm := (snd st + H2i * vi)%dbl in
             vm <- gsl_vector_get v m ;;
             hvi <- for_range 0 m
                      (fun j hvi =>
                         H1ij <- for_range 0 n
                                   (fun k H1ij =>
                                      wk <- gsl_vector_get (p_w p) k ;;
                                      ci <- gsl_vector_get (p_c p) i ;;
                                      kki <- gsl_matrix_get (p_K p) k i ;;
                                      cj <- gsl_vector_get (p_c p) j ;;
                                      kkj <- gsl_matrix_get (p_K p) k j ;;
                                      Some (H1ij + of_int 2 * wk * ci * kki * cj * kkj)%dbl)
                                   (of_int 0) ;;
                         vj <- gsl_vector_get v j ;;
                         Some (hvi + H1ij * vj)%dbl)
                      (H2i * vm)%dbl ;;
             d4 <- gsl_vector_get d4v i ;;
             hv <- gsl_vector_set (fst st) i (hvi + d4)%dbl ;;
             Some (hv, hvm))
          (hv, (H3 * vm)%dbl) ;;
  gsl_vector_set (fst st) m (snd st).

(** ** The inversion driver

    The optimizer (OOL's SPG method) is external to the program: it is a
    parameter of the driver, with the two status codes of its header. *)

Record ool_conmin_function : Type := {
  F_n      : Z;
  F_f      : gsl_vector -> parameter -> option D;
  F_df     : gsl_vector -> parameter -> gsl_vector -> option gsl_vector;
  F_fdf    : gsl_vector -> parameter -> gsl_vector -> option (D * gsl_vector);
  F_Hv     : gsl_vector -> parameter -> gsl_vector -> gsl_vector -> option gsl_vector;
  F_params : parameter
}.

Record ool_conmin_constraint : Type := {
  C_n : Z;
  C_L : gsl_vector;
  C_U : gsl_vector
}.

Record ool_conmin : Type := {
  OOL_SUCCESS : Z;
  OOL_CONTINUE : Z;
  ool_conmin_minimizer : Type;
  ool_conmin_spg_parameters : Type;
  ool_conmin_minimizer_alloc : Z -> ool_conmin_minimizer;
  ool_conmin_parameters_default : ool_conmin_spg_parameters;
  ool_conmin_minimizer_set :
    ool_conmin_minimizer -> ool_conmin_function -> ool_conmin_constraint ->
    gsl_vector -> ool_conmin_spg_parameters -> ool_conmin_minimizer;
  ool_conmin_minimizer_iterate : ool_conmin_minimizer -> ool_conmin_minimizer;
  ool_conmin_is_optimal : ool_conmin_minimizer -> Z;
  M_x : ool_conmin_minimizer -> gsl_vector           (* M->x *)
}.

(** What [contin] prints. *)
Inductive message : Type :=
| Convergence_in_iterations (ii : Z)
| Stopped_with_iterations (ii : Z).

(** What [contin] leaves to its caller: the returned [int], the vectors
    [s] and [g], the offset [*b], and the line printed. *)
Record contin_result : Type := {
  r_return : Z;
  r_s      : gsl_vector;
  r_g      : gsl_vector;
  r_b      : D;
  r_stdout : message
}.

(** [while (ii < nmax && status == OOL_CONTINUE) { ii++; iterate; status = is_optimal }];
    the recursion is on [fuel], which [contin] sets to [nmax]. *)
Fixpoint iteration_loop (o : ool_conmin) (fuel : nat) (nmax ii status : Z)
    (M : ool_conmin_minimizer o) : Z * Z * ool_conmin_minimizer o :=
  match fuel with
  | O => (ii, status, M)
  | S fuel' =>
      if (ii <? nmax) && (status =? OOL_CONTINUE o)
      then let ii := ii + 1 in
           let M := ool_conmin_minimizer_iterate o M in
           let status := ool_conmin_is_optimal o M in
           iteration_loop o fuel' nmax ii status M
      else (ii, status, M)
  end.

Definition contin (o : ool_conmin) (p : parameter) (s g : gsl_vector)
  : option contin_result :=
  let m := vsize g in
  let nn := m + 1 in
  let nmax := 100000 in
  let F := {| F_n := nn; F_f := fun_; F_df := fun_df; F_fdf := fun_fdf;
              F_Hv := fun_Hv; F_params := p |} in
  L <- gsl_vector_alloc nn ;;
  U <- gsl_vector_alloc nn ;;
  let L := gsl_vector_set_all L (of_int 0) in
  let U := gsl_vector_set_all U (of_int 100) in
  let C := {| C_n := nn; C_L := L; C_U := U |} in
  X <- gsl_vector_alloc nn ;;
  let X := gsl_vector_set_all X (of_int 1) in
  X <- gsl_vector_set X (size_t_sub (vsize X) 1) (of_int 0) ;;
  let M := ool_conmin_minimizer_alloc o nn in
  let P := ool_conmin_parameters_default o in
  let M := ool_conmin_minimizer_set o M F C X P in
  let '(ii, status, M) :=
    iteration_loop o (Z.to_nat nmax) nmax 0 (OOL_CONTINUE o) M in
  let out := if status =? OOL_SUCCESS o
             then Convergence_in_iterations ii
             else Stopped_with_iterations ii in
  s <- gsl_vector_memcpy s (p_tau p) ;;
  g <- for_range 0 (vsize g)
         (fun i g =>
            xi <- gsl_vector_get (M_x o M) i ;;
            gsl_vector_set g i xi)
         g ;;
  b <- gsl_vector_get (M_x o M) m ;;
  Some {| r_return := OOL_SUCCESS o; r_s := s; r_g := g; r_b := b;
          r_stdout := out |}.

End Embedding.

(** * Closed forms

    What the loops of the program compute, as functions of the values
    read. *)

(** [steps F k s] is the state after the [k] transitions [F 0], ...,
    [F (k-1)], applied in that order. *)
Fixpoint steps {S : Type} (F : nat -> S -> S) (k : nat) (s : S) : S :=
  match k with
  | O => s
  | Datatypes.S k' => F k' (steps F k' s)
  end.

(** Overwriting the positions [c], [c+1], ..., [c+k-1] of a list. *)
Definition fill_with {B : Type} (c : nat) (g : nat -> B) (k : nat) (l : list B)
  : list B :=
  steps (fun i l => list_update l (c + i) (g i)) k l.

(** Filling the cells [c], [c+1], ..., [c+k-1] of a vector. *)
Definition fill {A : Type} (c : nat) (g : nat -> A) (k : nat) (v : list (option A))
  : list (option A) :=
  fill_with c (fun i => Some (g i)) k v.


Arguments gsl_vector D : clear implicits.
Arguments gsl_matrix D : clear implicits.
Arguments parameter D : clear implicits.
Arguments ool_conmin_function D : clear implicits.
Arguments ool_conmin_constraint D : clear implicits.
Arguments ool_conmin D : clear implicits.
Arguments contin_result D : clear implicits.

Section Closed_forms.

Context {D : Type} {ops : double_ops D}.

(** The value held by a written cell. *)
Definition cell_val (c : option D) : D :=
  match c with
  | Some d => d
  | None => of_int 0
  end.

Definition vget (v : gsl_vector D) (i : nat) : D := cell_val (nth i v None).

Definition mget (K : gsl_matrix D) (i j : nat) : D := vget (nth i K []) j.

(** Every cell of the vector has been written. *)
Definition written (v : gsl_vector D) : bool :=
  forallb (fun c => match c with Some _ => true | None => false end) v.

(** What the evaluators rely on: [n] samples, [m] grid points, and every
    cell of [K], [y], [w] and [c] written. *)
Definition valid_parameter (n m : nat) (p : parameter D) : Prop :=
  length (p_y p) = n /\ written (p_y p) = true /\
  length (p_w p) = n /\ written (p_w p) = true /\
  length (p_c p) = m /\ written (p_c p) = true /\
  length (p_K p) = n /\
  forallb (fun row => (length row =? m)%nat && written row) (p_K p) = true.

(** [acc = a; for (i = 0; i < n; i++) acc += f i]. *)
Definition sum_from (a : D) (f : nat -> D) (n : nat) : D :=
  steps (fun i acc => (acc + f i)%dbl) n a.

(** The cells [diff2] writes when the output has [m >= 2] cells. *)
Definition D2_entry (x : gsl_vector D) (m i : nat) : D :=
  if (i =? 0)%nat then (of_int (- 2) * vget x 0 + vget x 1)%dbl
  else if (i =? m - 1)%nat
       then (vget x (m - 2) - of_int 2 * vget x (m - 1))%dbl
       else (vget x (i - 1) - of_int 2 * vget x i + vget x (i + 1))%dbl.

Definition D2 (x : gsl_vector D) (m : nat) : list D :=
  map (D2_entry x m) (seq 0 m).

(** The predicted signal [z_i] as the inner loop accumulates it. *)
Definition predicted (x : gsl_vector D) (p : parameter D) (m i : nat) : D :=
  sum_from (vget x m)
    (fun j => (vget (p_c p) j * mget (p_K p) i j * vget x j)%dbl) m.

(** Objective value and gradient as functions of the predicted signal [z]
    and of the differences [d2g], [d4g]. *)
Definition objective_of (p : parameter D) (n m : nat) (z : nat -> D)
    (d2g : gsl_vector D) : D :=
  (sum_from (of_int 0)
     (fun i => vget (p_w p) i * sqr (vget (p_y p) i - z i)) n
   + p_alpha p * p_alpha p * sum_from (of_int 0) (fun i => sqr (vget d2g i)) m)%dbl.

Definition gradient_entry (p : parameter D) (n : nat) (z : nat -> D)
    (d4g : gsl_vector D) (i : nat) : D :=
  (sum_from (of_int 0)
     (fun j => of_int 2 * vget (p_w p) j * (z j - vget (p_y p) j)
               * vget (p_c p) i * mget (p_K p) j i) n
   + of_int 2 * p_alpha p * p_alpha p * vget d4g i)%dbl.

Definition gradient_last (p : parameter D) (n : nat) (z : nat -> D) : D :=
  sum_from (of_int 0)
    (fun j => (of_int 2 * vget (p_w p) j * (z j - vget (p_y p) j))%dbl) n.

Definition gradient_of (p : parameter D) (n m : nat) (z : nat -> D)
    (d4g : gsl_vector D) : list D :=
  map (gradient_entry p n z d4g) (seq 0 m) ++ [gradient_last p n z].

Definition objective (x : gsl_vector D) (p : parameter D) (n m : nat) : D :=
  objective_of p n m (predicted x p m) (vec (D2 x m)).

Definition gradient (x : gsl_vector D) (p : parameter D) (n m : nat) : list D :=
  gradient_of p n m (predicted x p m) (vec (D2 (vec (D2 x m)) m)).

(** The entries of [hv] as [fun_Hv] accumulates them. *)
Definition H3_of (p : parameter D) (n : nat) : D :=
  sum_from (of_int 0) (fun k => (of_int 2 * vget (p_w p) k)%dbl) n.

Definition H2_of (p : parameter D) (n i : nat) : D :=
  sum_from (of_int 0)
    (fun k => (of_int 2 * vget (p_w p) k * vget (p_c p) i * mget (p_K p) k i)%dbl) n.

Definition H1_of (p : parameter D) (n i j : nat) : D :=
  sum_from (of_int 0)
    (fun k => (of_int 2 * vget (p_w p) k * vget (p_c p) i * mget (p_K p) k i
               * vget (p_c p) j * mget (p_K p) k j)%dbl) n.

Definition Hv_entry (p : parameter D) (n m : nat) (v : gsl_vector D) (i : nat) : D :=
  (sum_from (H2_of p n i * vget v m) (fun j => H1_of p n i j * vget v j) m
   + vget (vec (D2 (vec (D2 v m)) m)) i)%dbl.

Definition Hv_last (p : parameter D) (n m : nat) (v : gsl_vector D) : D :=
  sum_from (H3_of p n * vget v m)%dbl (fun i => (H2_of p n i * vget v i)%dbl) m.

Definition Hv_code (p : parameter D) (n m : nat) (v : gsl_vector D) : list D :=
  map (Hv_entry p n m v) (seq 0 m) ++ [Hv_last p n m v].

(** What [parameter_alloc] stores. *)
Definition dtau_of (tau0 tau1 : D) (m : nat) : D :=
  ((tau1 - tau0) / of_int (Z.of_nat m - 1))%dbl.

Definition tau_grid (tau0 tau1 : D) (m : nat) : list D :=
  map (fun j => (tau0 + of_int (Z.of_nat j) * dtau_of tau0 tau1 m)%dbl) (seq 0 m).

Definition quadrature (tau0 tau1 : D) (m : nat) : list D :=
  map (fun j => if (j =? 0)%nat || (j =? m - 1)%nat
                then (dhalf * dtau_of tau0 tau1 m)%dbl
                else dtau_of tau0 tau1 m)
      (seq 0 m).

Definition noise_weights (var : gsl_vector D) (n : nat) : list D :=
  map (fun i => (of_int 1 / vget var i)%dbl) (seq 0 n).

Definition exponential (t : gsl_vector D) (tau : list D) (i j : nat) : D :=
  dexp (- vget t i / nth j tau (of_int 0))%dbl.

Definition lorentzian (t : gsl_vector D) (tau : list D) (i j : nat) : D :=
  (dM_1_PI * nth j tau (of_int 0)
   / (sqr (vget t i) + sqr (nth j tau (of_int 0))))%dbl.

Definition kernel_matrix (kernelType : Z) (t : gsl_vector D) (tau : list D)
    (n m : nat) : gsl_matrix D :=
  if (kernelType =? 0)%Z
  then map (fun i => vec (map (exponential t tau i) (seq 0 m))) (seq 0 n)
  else if (kernelType =? 1)%Z
       then map (fun i => vec (map (lorentzian t tau i) (seq 0 m))) (seq 0 n)
       else repeat (repeat None m) n.

(** What [contin] hands to the optimizer, and what it makes of the
    optimizer's run. *)
Definition contin_function (p : parameter D) (nn : Z) : ool_conmin_function D :=
  {| F_n := nn; F_f := fun_; F_df := fun_df; F_fdf := fun_fdf;
     F_Hv := fun_Hv; F_params := p |}.

Definition default_constraint (m : nat) : ool_conmin_constraint D :=
  {| C_n := Z.of_nat m + 1;
     C_L := vec (repeat (of_int 0) (m + 1));
     C_U := vec (repeat (of_int 100) (m + 1)) |}.

Definition default_start (m : nat) : gsl_vector D :=
  vec (repeat (of_int 1) m ++ [of_int 0]).

Definition contin_minimizer (o : ool_conmin D) (p : parameter D) (m : nat)
  : ool_conmin_minimizer o :=
  ool_conmin_minimizer_set o
    (ool_conmin_minimizer_alloc o (Z.of_nat m + 1))
    (contin_function p (Z.of_nat m + 1))
    (default_constraint m) (default_start m)
    (ool_conmin_parameters_default o).

Definition contin_run (o : ool_conmin D) (p : parameter D) (m : nat)
  : Z * Z * ool_conmin_minimizer o :=
  iteration_loop o (Z.to_nat 100000) 100000 0 (OOL_CONTINUE o)
    (contin_minimizer o p m).

Definition final_count (o : ool_conmin D) (p : parameter D) (m : nat) : Z :=
  fst (fst (contin_run o p m)).

Definition final_status (o : ool_conmin D) (p : parameter D) (m : nat) : Z :=
  snd (fst (contin_run o p m)).

Definition final_point (o : ool_conmin D) (p : parameter D) (m : nat)
  : gsl_vector D :=
  M_x o (snd (contin_run o p m)).

Definition contin_outcome (o : ool_conmin D) (p : parameter D) (m : nat)
  : contin_result D :=
  {| r_return := OOL_SUCCESS o;
     r_s := p_tau p;
     r_g := vec (map (vget (final_point o p m)) (seq 0 m));
     r_b := vget (final_point o p m) m;
     r_stdout := if (final_status o p m =? OOL_SUCCESS o)%Z
                 then Convergence_in_iterations (final_count o p m)
                 else Stopped_with_iterations (final_count o p m) |}.

(** The effect of the inner loop of [parameter_alloc] on row [i] of [K]. *)
Definition row_written (kernelType : Z) (t : gsl_vector D) (tau : list D)
    (m i : nat) (K : gsl_matrix D) : gsl_matrix D :=
  if (kernelType =? 0)%Z
  then list_update K i (vec (map (exponential t tau i) (seq 0 m)))
  else if (kernelType =? 1)%Z
       then list_update K i (vec (map (lorentzian t tau i) (seq 0 m)))
       else K.

End Closed_forms.

(** * Exact arithmetic

    The doubles read as real numbers, every operation exact. *)

#[export] Instance R_ops : double_ops R := {|
  of_int  := IZR;
  dhalf   := (/ 2)%R;
  dM_1_PI := (/ PI)%R;
  dadd    := Rplus;
  dsub    := Rminus;
  dmul    := Rmult;
  ddiv    := Rdiv;
  dneg    := Ropp;
  dexp    := exp
|}.

(** [big_sum f n] is the sum of [f 0], ..., [f (n-1)]. *)
Fixpoint big_sum (f : nat -> R) (n : nat) : R :=
  match n with
  | O => 0%R
  | Datatypes.S k => (big_sum f k + f k)%R
  end.

(** The regularisation operator in the words of its contract: second
    differences inside, the one-sided formulas at both ends. *)
Definition D2_spec (g : list R) : list R :=
  let m := length g in
  map (fun i =>
         if (i =? 0)%nat then (-2 * nth 0 g 0 + nth 1 g 0)%R
         else if (i =? m - 1)%nat
              then (nth (m - 2) g 0 - 2 * nth (m - 1) g 0)%R
              else (nth (i - 1) g 0 - 2 * nth i g 0 + nth (i + 1) g 0)%R)
      (seq 0 m).

(** The amplitudes [g_0 .. g_{m-1}] of a coefficient vector. *)
Definition amplitudes (m : nat) (x : gsl_vector R) : list R :=
  map cell_val (firstn m x).

Section Analytic.

Variables (p : parameter R) (n m : nat).

(** [z_i = b + Sum_j c_j K[i][j] g_j]. *)
Definition predicted_signal (x : gsl_vector R) (i : nat) : R :=
  (vget x m + big_sum (fun j => vget (p_c p) j * mget (p_K p) i j * vget x j) m)%R.

(** [f(x) = Sum_i w_i (y_i - z_i)^2 + alpha^2 Sum_j (D2 g)_j^2]. *)
Definition objective_spec (x : gsl_vector R) : R :=
  (big_sum (fun i => vget (p_w p) i * (vget (p_y p) i - predicted_signal x i) ^ 2) n
   + p_alpha p ^ 2 * big_sum (fun j => nth j (D2_spec (amplitudes m x)) 0 ^ 2) m)%R.

(** [2 c_j Sum_i w_i (z_i - y_i) K[i][j] + 2 alpha^2 (D2 (D2 g))_j]. *)
Definition analytic_gradient (x : gsl_vector R) (j : nat) : R :=
  (2 * vget (p_c p) j
     * big_sum (fun i => vget (p_w p) i
                         * (predicted_signal x i - vget (p_y p) i)
                         * mget (p_K p) i j) n
   + 2 * p_alpha p ^ 2 * nth j (D2_spec (D2_spec (amplitudes m x))) 0)%R.

(** [2 Sum_i w_i (z_i - y_i)]. *)
Definition analytic_gradient_offset (x : gsl_vector R) : R :=
  (2 * big_sum (fun i => vget (p_w p) i
                         * (predicted_signal x i - vget (p_y p) i)) n)%R.

(** The blocks of the Hessian of [f]. *)
Definition H1 (i j : nat) : R :=
  (2 * big_sum (fun k => vget (p_w p) k * vget (p_c p) i * mget (p_K p) k i
                         * vget (p_c p) j * mget (p_K p) k j) n)%R.

Definition H2 (i : nat) : R :=
  (2 * big_sum (fun k => vget (p_w p) k * vget (p_c p) i * mget (p_K p) k i) n)%R.

Definition H3 : R := (2 * big_sum (fun k => vget (p_w p) k) n)%R.

(** The product of the Hessian of [f] with a direction [v = (v_g, v_b)]:
    data, cross and offset blocks, and the regularisation block with the
    factor [2 alpha^2] of the gradient. *)
Definition hessian_vector (v : gsl_vector R) (i : nat) : R :=
  (big_sum (fun j => H1 i j * vget v j) m + H2 i * vget v m
   + 2 * p_alpha p ^ 2 * nth i (D2_spec (D2_spec (amplitudes m v))) 0)%R.

Definition hessian_vector_offset (v : gsl_vector R) : R :=
  (big_sum (fun i => H2 i * vget v i) m + H3 * vget v m)%R.

(** The directional derivative of [f] at [x] along [v], from the analytic
    gradient, and the second-order part of [f] along [v]. *)
Definition gradient_along (x v : gsl_vector R) : R :=
  (big_sum (fun j => analytic_gradient x j * vget v j) m
   + analytic_gradient_offset x * vget v m)%R.

Definition quadratic_part (v : gsl_vector R) : R :=
  (big_sum (fun i => vget (p_w p) i * predicted_signal v i ^ 2) n
   + p_alpha p ^ 2 * big_sum (fun j => nth j (D2_spec (amplitudes m v)) 0 ^ 2) m)%R.

(** [v . H v], with [H v] the product defined above. *)
Definition hessian_form (v : gsl_vector R) : R :=
  (big_sum (fun i => vget v i * hessian_vector v i) m
   + vget v m * hessian_vector_offset v)%R.

End Analytic.

(** The point [x + v]. *)
Definition vadd (x v : gsl_vector R) : gsl_vector R :=
  vec (map (fun i => (vget x i + vget v i)%R) (seq 0 (length x))).

(** The value of a run of [fun] that has one. *)
Definition value_of (r : option R) : R :=
  match r with
  | Some f => f
  | None => 0%R
  end.

(** The point [t v]. *)
Definition vscale (t : R) (v : gsl_vector R) : gsl_vector R :=
  vec (map (fun i => (t * vget v i)%R) (seq 0 (length v))).

(** A coefficient vector lies in the box [L <= x <= U]. *)
Definition within (L U x : gsl_vector R) : Prop :=
  length x = length L /\ written x = true /\
  forall i : nat, (i < length x)%nat -> (vget L i <= vget x i <= vget U i)%R.

(** The contract of the external optimizer used for the bounds on the
    result: started from a point of the box, every iterate lies in the
    box it was given. *)
Definition keeps_box (o : ool_conmin R) : Prop :=
  forall (M : ool_conmin_minimizer o) (F : ool_conmin_function R)
         (C : ool_conmin_constraint R) (X : gsl_vector R)
         (P : ool_conmin_spg_parameters o) (k : nat),
    within (C_L C) (C_U C) X ->
    within (C_L C) (C_U C)
      (M_x o (Nat.iter k (ool_conmin_minimizer_iterate o)
                (ool_conmin_minimizer_set o M F C X P))).

(** A small problem used to run the evaluators: one sample at [t = 0]
    with [y = 1] and unit variance, the grid [1, 2, 3], the exponential
    kernel, [alpha = 1]. *)
Definition sample_bundle : parameter R := {|
  p_K := [vec [1; 1; 1]%R];
  p_y := vec [1%R];
  p_t := vec [0%R];
  p_tau := vec [1; 2; 3]%R;
  p_w := vec [1%R];
  p_c := vec [/ 2; 1; / 2]%R;
  p_alpha := 1%R
|}.

Definition sample_x : gsl_vector R := vec [1; 1; 1; 0]%R.

Definition sample_v : gsl_vector R := vec [1; 0; 0; 0]%R.

(** An output buffer nothing has been written to. *)
Definition fresh (k : nat) : gsl_vector R := repeat None k.

(** An optimizer that leaves its point where it is and always gives the
    same answer to [ool_conmin_is_optimal]; the status codes are those of
    GSL, [GSL_SUCCESS = 0] and [GSL_CONTINUE = -2]. *)
Definition still_optimizer (answer : Z) : ool_conmin R := {|
  OOL_SUCCESS := 0;
  OOL_CONTINUE := -2;
  ool_conmin_minimizer := gsl_vector R;
  ool_conmin_spg_parameters := unit;
  ool_conmin_minimizer_alloc := fun nn => repeat None (Z.to_nat nn);
  ool_conmin_parameters_default := tt;
  ool_conmin_minimizer_set := fun _ _ _ X _ => X;
  ool_conmin_minimizer_iterate := fun M => M;
  ool_conmin_is_optimal := fun _ => answer;
  M_x := fun M => M
|}.



(** * The callers: [example], [saveData], [main] and [mexFunction]

    The remaining functions of [contin.c], embedded like the evaluators.
    A text file is the list of its rows; the standard output of [main] is
    the list of the lines printed, the formatting of the numbers left
    out. *)

From Stdlib Require String.
Import String.StringSyntax.
Delimit Scope string_scope with string.

Section Callers.

Context {D : Type} {ops : double_ops D}.

Local Open Scope Z_scope.

(** ** The test signal

    [example intensity tau t y var n t0 tend] gives the vectors [t], [y]
    and [var] after the call. *)
Definition example (intensity tau t y var : gsl_vector D) (n : Z) (t0 tend : D)
  : option (gsl_vector D * gsl_vector D * gsl_vector D) :=
  let dt := ((tend - t0) / of_int (n - 1))%dbl in
  for_range 0 n
    (fun i st =>
       let ti := (t0 + dt * of_int i)%dbl in
       yi <- for_range 0 (vsize tau)
               (fun k yi =>
                  ik <- gsl_vector_get intensity k ;;
                  tk <- gsl_vector_get tau k ;;
                  Some (yi + ik * dexp (- ti / tk))%dbl)
               (of_int 0) ;;
       t <- gsl_vector_set (fst (fst st)) i ti ;;
       y <- gsl_vector_set (snd (fst st)) i yi ;;
       var <- gsl_vector_set (snd st) i (of_int 1) ;;
       Some (t, y, var))
    (t, y, var).

(** The sample times and the signal [example] writes. *)
Definition sample_time (t0 tend : D) (n : Z) (i : nat) : D :=
  (t0 + (tend - t0) / of_int (n - 1) * of_int (Z.of_nat i))%dbl.

Definition multi_exponential (intensity tau : gsl_vector D) (ti : D) : D :=
  sum_from (of_int 0)
    (fun k => (vget intensity k * dexp (- ti / vget tau k))%dbl) (length tau).

(** ** Saving two columns

    [fopen] is taken to succeed; a row is the pair of numbers of one
    [fprintf]. *)
Record text_file : Type := {
  file_name : String.string;
  file_rows : list (D * D)
}.

Definition saveData (x y : gsl_vector D) (fileName : String.string)
  : option text_file :=
  rows <- for_range 0 (vsize x)
            (fun i rows =>
               xi <- gsl_vector_get x i ;;
               yi <- gsl_vector_get y i ;;
               Some (rows ++ [(xi, yi)]))
            [] ;;
  Some {| file_name := fileName; file_rows := rows |}.

(** ** The test program

    The decimal literals of [main] that are not integers are rounded by
    the compiler; they are parameters of the embedding. *)
Record main_literals : Type := {
  lit_0_4  : D;    (* 0.4 *)
  lit_1_6  : D;    (* 1.6 *)
  lit_0_01 : D;    (* 0.01 *)
  lit_0_1  : D;    (* 0.1 *)
  lit_1e_5 : D     (* 1e-5 *)
}.

(** One line [G[i] = (gradient entry, difference quotient)]. *)
Record G_line : Type := {
  G_index    : Z;
  G_gradient : D;
  G_quotient : D
}.

(** What [main] leaves: the lines it prints, the line printed by
    [contin], the two files in the order written, and its return value. *)
Record main_result : Type := {
  main_stdout  : list G_line;
  main_message : message;
  main_files   : list text_file;
  main_return  : Z
}.

Definition main (o : ool_conmin D) (c : main_literals) : option main_result :=
  let n := 1000 in
  let m := 10 in
  t <- gsl_vector_alloc n ;;
  y <- gsl_vector_alloc n ;;
  sigma <- gsl_vector_alloc n ;;
  intensity <- gsl_vector_alloc 2 ;;
  r <- gsl_vector_alloc 2 ;;
  r <- gsl_vector_set r 0 (lit_0_4 c) ;;
  r <- gsl_vector_set r 1 (lit_1_6 c) ;;
  intensity <- gsl_vector_set intensity 0 (of_int 1) ;;
  intensity <- gsl_vector_set intensity 1 (of_int 2) ;;
  tys <- example intensity r t y sigma n (of_int 0) (of_int 4) ;;
  p <- parameter_alloc (fst (fst tys)) (snd (fst tys)) (snd tys)
         (lit_0_01 c) (lit_0_1 c) (of_int 4) m 0 ;;
  g <- gsl_vector_alloc m ;;
  s <- gsl_vector_alloc m ;;
  X <- gsl_vector_alloc (m + 1) ;;
  G <- gsl_vector_alloc (m + 1) ;;
  let X := gsl_vector_set_all X (of_int 1) in
  f <- fun_ X p ;;
  G <- fun_df X p G ;;
  let h := lit_1e_5 c in
  st <- for_range 0 (m + 1)
          (fun i st =>
             xi <- gsl_vector_get (fst st) i ;;
             X <- gsl_vector_set (fst st) i (xi + h)%dbl ;;
             fh <- fun_ X p ;;
             gi <- gsl_vector_get G i ;;
             let line := {| G_index := i; G_gradient := gi;
                            G_quotient := ((fh - f) / h)%dbl |} in
             xi <- gsl_vector_get X i ;;
             X <- gsl_vector_set X i (xi - h)%dbl ;;
             Some (X, snd st ++ [line]))
          (X, []) ;;
  res <- contin o p s g ;;
  in_txt <- saveData (p_t p) (p_y p) "in.txt"%string ;;
  out_txt <- saveData (r_s res) (r_g res) "out.txt"%string ;;
  Some {| main_stdout := snd st;
          main_message := r_stdout res;
          main_files := [in_txt; out_txt];
          main_return := 0 |}.

(** [main] in closed form: the signal it generates, the bundle it
    builds, the lines of its difference loop and what it leaves. *)
Definition main_intensity : gsl_vector D := vec [of_int 1; of_int 2].

Definition main_r (c : main_literals) : gsl_vector D :=
  vec [lit_0_4 c; lit_1_6 c].

Definition main_t : gsl_vector D :=
  vec (map (sample_time (of_int 0) (of_int 4) 1000) (seq 0 (Z.to_nat 1000))).

Definition main_y (c : main_literals) : gsl_vector D :=
  vec (map (fun i => multi_exponential main_intensity (main_r c)
                       (sample_time (of_int 0) (of_int 4) 1000 i))
         (seq 0 (Z.to_nat 1000))).

Definition main_sigma : gsl_vector D :=
  vec (map (fun _ => of_int 1) (seq 0 (Z.to_nat 1000))).

Definition main_parameter (c : main_literals) : parameter D :=
  {| p_K := kernel_matrix 0 main_t (tau_grid (lit_0_1 c) (of_int 4) 10)
              (Z.to_nat 1000) 10;
     p_y := main_y c;
     p_t := main_t;
     p_tau := vec (tau_grid (lit_0_1 c) (of_int 4) 10);
     p_w := vec (noise_weights main_sigma (Z.to_nat 1000));
     p_c := vec (quadrature (lit_0_1 c) (of_int 4) 10);
     p_alpha := lit_0_01 c |}.

Definition main_X : gsl_vector D := vec (repeat (of_int 1) 11).

(** One turn of the difference loop, on the pair of [X] and the lines
    printed so far. *)
Definition difference_step (c : main_literals) (i : nat)
    (st : gsl_vector D * list G_line) : gsl_vector D * list G_line :=
  let p := main_parameter c in
  let h := lit_1e_5 c in
  let f := objective main_X p (Z.to_nat 1000) 10 in
  let X1 := list_update (fst st) i (Some (vget (fst st) i + h)%dbl) in
  let fh := objective X1 p (Z.to_nat 1000) 10 in
  let X2 := list_update X1 i (Some (vget X1 i - h)%dbl) in
  (X2,
   snd st ++ [ {| G_index := Z.of_nat i;
                  G_gradient := nth i (gradient main_X p (Z.to_nat 1000) 10) (of_int 0);
                  G_quotient := ((fh - f) / h)%dbl |} ]).

Definition main_outcome (o : ool_conmin D) (c : main_literals) : main_result :=
  let p := main_parameter c in
  {| main_stdout := snd (steps (difference_step c) 11 (main_X, []));
     main_message := r_stdout (contin_outcome o p 10);
     main_files :=
       [ {| file_name := "in.txt"%string;
            file_rows := map (fun i => (vget main_t i, vget (main_y c) i))
                           (seq 0 (Z.to_nat 1000)) |};
         {| file_name := "out.txt"%string;
            file_rows := map (fun i => (vget (p_tau p) i,
                                        vget (final_point o p 10) i))
                           (seq 0 10) |} ];
     main_return := 0 |}.

(** ** The MATLAB wrapper

    An [mxArray] of doubles is its two dimensions and its data;
    [prhs[k]] and [ptr[i]] read past the end have no result.  The
    conversion [(int)] of a double is a parameter. *)
Record mxArray : Type := {
  mxGetM  : Z;
  mxGetN  : Z;
  mxGetPr : list D
}.

Definition mxGetScalar (a : mxArray) : option D := nth_error (mxGetPr a) 0.

Definition mxCreateDoubleScalar (d : D) : mxArray :=
  {| mxGetM := 1; mxGetN := 1; mxGetPr := [d] |}.

(** How a call of [mexFunction] ends: in [mexErrMsgTxt], which hands the
    usage text to MATLAB as an error, or with the outputs [plhs]. *)
Inductive mex_outcome : Type :=
| mexErrMsgTxt_usage
| mex_returns (plhs : list mxArray).

Variable double_to_int : D -> Z.

Definition mexFunction (o : ool_conmin D) (nlhs nrhs : Z) (prhs : list mxArray)
  : option mex_outcome :=
  (* [nrhs =! 8 || nlhs != 3] assigns [!8 || nlhs != 3] to [nrhs] *)
  let nrhs := if (8 =? 0) || negb (nlhs =? 3) then 1 else 0 in
  if negb (nrhs =? 0) then Some mexErrMsgTxt_usage
  else
    a0 <- nth_error prhs 0 ;;
    let n := mxGetN a0 * mxGetM a0 in
    t <- gsl_vector_alloc n ;;
    y <- gsl_vector_alloc n ;;
    var <- gsl_vector_alloc n ;;
    a1 <- nth_error prhs 1 ;;
    a2 <- nth_error prhs 2 ;;
    let ptr_t := mxGetPr a0 in
    let ptr_y := mxGetPr a1 in
    let ptr_var := mxGetPr a2 in
    tyv <- for_range 0 n
             (fun i st =>
                ti <- nth_error ptr_t (Z.to_nat i) ;;
                t <- gsl_vector_set (fst (fst st)) i ti ;;
                yi <- nth_error ptr_y (Z.to_nat i) ;;
                y <- gsl_vector_set (snd (fst st)) i yi ;;
                vi <- nth_error ptr_var (Z.to_nat i) ;;
                var <- gsl_vector_set (snd st) i vi ;;
                Some (t, y, var))
             (t, y, var) ;;
    a3 <- nth_error prhs 3 ;;
    s0 <- mxGetScalar a3 ;;
    a4 <- nth_error prhs 4 ;;
    s1 <- mxGetScalar a4 ;;
    a5 <- nth_error prhs 5 ;;
    md <- mxGetScalar a5 ;;
    let m := double_to_int md in
    a6 <- nth_error prhs 6 ;;
    alpha <- mxGetScalar a6 ;;
    a7 <- nth_error prhs 7 ;;
    kd <- mxGetScalar a7 ;;
    let kernelType := double_to_int kd in
    p <- parameter_alloc (fst (fst tyv)) (snd (fst tyv)) (snd tyv)
           alpha s0 s1 m kernelType ;;
    s <- gsl_vector_alloc m ;;
    g <- gsl_vector_alloc m ;;
    res <- contin o p s g ;;
    out <- for_range 0 m
             (fun i out =>
                si <- gsl_vector_get (r_s res) i ;;
                gi <- gsl_vector_get (r_g res) i ;;
                Some (list_update (fst out) (Z.to_nat i) si,
                      list_update (snd out) (Z.to_nat i) gi))
             (repeat (of_int 0) (Z.to_nat m), repeat (of_int 0) (Z.to_nat m)) ;;
    Some (mex_returns
            [ {| mxGetM := m; mxGetN := 1; mxGetPr := fst out |};
              {| mxGetM := m; mxGetN := 1; mxGetPr := snd out |};
              mxCreateDoubleScalar (r_b res) ]).

End Callers.

Arguments text_file D : clear implicits.
Arguments main_literals D : clear implicits.
Arguments G_line D : clear implicits.
Arguments main_result D : clear implicits.
Arguments mxArray D : clear implicits.
Arguments mex_outcome D : clear implicits.

(** The [i]-th unit vector of [k] cells, the direction of the [i]-th turn
    of the difference loop of [main]. *)
Definition unit_vector (k i : nat) : gsl_vector R :=
  vec (map (fun j => if (j =? i)%nat then 1%R else 0%R) (seq 0 k)).

(** The decimal literals of [main] read as real numbers. *)
Definition decimal_literals : main_literals R :=
  {| lit_0_4 := (4 / 10)%R;
     lit_1_6 := (16 / 10)%R;
     lit_0_01 := (1 / 100)%R;
     lit_0_1 := (1 / 10)%R;
     lit_1e_5 := (1 / 100000)%R |}.

(** The sample problem with a vanishing observation: its objective is
    minimal at the origin. *)
Definition flat_bundle : parameter R := {|
  p_K := [vec [1; 1; 1]%R];
  p_y := vec [0%R];
  p_t := vec [0%R];
  p_tau := vec [1; 2; 3]%R;
  p_w := vec [1%R];
  p_c := vec [/ 2; 1; / 2]%R;
  p_alpha := 1%R
|}.

Definition origin : gsl_vector R := vec [0; 0; 0; 0]%R.

(** An optimizer that goes to a corner of the box it is given, the upper
    one or the lower one, and stays there; it reports success. *)
Definition corner_optimizer (upper : bool) : ool_conmin R := {|
  OOL_SUCCESS := 0;
  OOL_CONTINUE := -2;
  ool_conmin_minimizer := gsl_vector R;
  ool_conmin_spg_parameters := unit;
  ool_conmin_minimizer_alloc := fun nn => repeat None (Z.to_nat nn);
  ool_conmin_parameters_default := tt;
  ool_conmin_minimizer_set := fun _ _ C _ _ => if upper then C_U C else C_L C;
  ool_conmin_minimizer_iterate := fun M => M;
  ool_conmin_is_optimal := fun _ => 0%Z;
  M_x := fun M => M
|}.

(** * Reasoning principles *)

(** ** Lists updated in place *)

Lemma list_update_length {A : Type} (l : list A) (i : nat) (a : A) :
  length (list_update l i a) = length l.
Proof.
  revert i; induction l as [|h t IH]; intros [|i]; simpl; auto.
Qed.

Lemma nth_list_update {A : Type} (l : list A) (i j : nat) (a d : A) :
  nth j (list_update l i a) d =
  if (j =? i)%nat && (i <? length l)%nat then a else nth j l d.
Proof.
  revert i j; induction l as [|h t IH]; intros i j.
  - replace (i <? length (@nil A))%nat with false
      by (symmetry; apply Nat.ltb_ge; simpl; lia).
    rewrite andb_false_r. destruct i; reflexivity.
  - destruct i as [|i], j as [|j]; simpl; auto.
Qed.

(** ** Loops *)

Lemma for_iter_last {S : Type} (k : nat) (lo : Z) (body : Z -> S -> option S) (s : S) :
  for_iter (Datatypes.S k) lo body s =
  (s' <- for_iter k lo body s ;; body (lo + Z.of_nat k)%Z s').
Proof.
  revert lo s; induction k as [|k IH]; intros lo s.
  - simpl. rewrite Z.add_0_r. destruct (body lo s); reflexivity.
  - change (for_iter (Datatypes.S (Datatypes.S k)) lo body s)
      with (s' <- body lo s ;; for_iter (Datatypes.S k) (lo + 1)%Z body s').
    change (for_iter (Datatypes.S k) lo body s)
      with (s' <- body lo s ;; for_iter k (lo + 1)%Z body s').
    destruct (body lo s) as [s1|]; cbn [bind]; [|reflexivity].
    rewrite IH. replace (lo + 1 + Z.of_nat k)%Z with (lo + Z.of_nat (Datatypes.S k))%Z by lia.
    reflexivity.
Qed.

(** A loop all of whose iterations succeed, under an invariant [I], runs
    the transitions of its body. *)
Lemma for_iter_steps {S : Type} (I : S -> Prop) (F : nat -> S -> S)
    (k : nat) (lo : Z) (body : Z -> S -> option S) (s : S) :
  I s ->
  (forall i s, (i < k)%nat -> I s ->
     body (lo + Z.of_nat i)%Z s = Some (F i s) /\ I (F i s)) ->
  for_iter k lo body s = Some (steps F k s) /\ I (steps F k s).
Proof.
  intros Hs. induction k as [|k IH]; intros Hbody.
  - simpl. auto.
  - rewrite for_iter_last.
    destruct IH as [E HI].
    { intros i s' Hi. apply Hbody. lia. }
    rewrite E. cbn [bind]. cbn [steps]. apply Hbody; auto.
Qed.

Lemma for_range_steps {S : Type} (I : S -> Prop) (F : nat -> S -> S)
    (k : nat) (lo hi : Z) (body : Z -> S -> option S) (s : S) :
  (hi - lo = Z.of_nat k)%Z ->
  I s ->
  (forall i s, (i < k)%nat -> I s ->
     body (lo + Z.of_nat i)%Z s = Some (F i s) /\ I (F i s)) ->
  for_range lo hi body s = Some (steps F k s) /\ I (steps F k s).
Proof.
  intros E. unfold for_range. rewrite E, Nat2Z.id. apply for_iter_steps.
Qed.

(** The same without an invariant. *)
Lemma for_range_pure {S : Type} (F : nat -> S -> S)
    (k : nat) (lo hi : Z) (body : Z -> S -> option S) (s : S) :
  (hi - lo = Z.of_nat k)%Z ->
  (forall i s, (i < k)%nat -> body (lo + Z.of_nat i)%Z s = Some (F i s)) ->
  for_range lo hi body s = Some (steps F k s).
Proof.
  intros E H.
  apply (@for_range_steps S (fun _ => True) F k lo hi body s E I).
  intros i s' Hi _. split; auto.
Qed.

Lemma steps_ext {S : Type} (F G : nat -> S -> S) (k : nat) (s : S) :
  (forall i s, (i < k)%nat -> F i s = G i s) -> steps F k s = steps G k s.
Proof.
  induction k as [|k IH]; intros H; simpl; auto.
  rewrite IH by (intros; apply H; lia). apply H. lia.
Qed.

(** A loop on a pair whose components do not look at each other. *)
Lemma steps_pair {A B : Type} (F : nat -> A -> A) (G : nat -> B -> B)
    (k : nat) (a : A) (b : B) :
  steps (fun i st => (F i (fst st), G i (snd st))) k (a, b) =
  (steps F k a, steps G k b).
Proof.
  induction k as [|k IH]; simpl; auto. rewrite IH. reflexivity.
Qed.

Lemma fill_with_length {B : Type} (c : nat) (g : nat -> B) (k : nat) (l : list B) :
  length (fill_with c g k l) = length l.
Proof.
  unfold fill_with. induction k as [|k IH]; simpl; auto.
  rewrite list_update_length. exact IH.
Qed.

Lemma nth_fill_with {B : Type} (c : nat) (g : nat -> B) (k : nat) (l : list B)
    (j : nat) (d : B) :
  (c + k <= length l)%nat ->
  nth j (fill_with c g k l) d =
  if (c <=? j)%nat && (j <? c + k)%nat then g (j - c)%nat else nth j l d.
Proof.
  intros Hk. induction k as [|k IH].
  - simpl. destruct (c <=? j)%nat eqn:E1, (j <? c + 0)%nat eqn:E2; simpl; auto.
    apply Nat.leb_le in E1. apply Nat.ltb_lt in E2. lia.
  - unfold fill_with in *. cbn [steps]. rewrite nth_list_update.
    fold (fill_with c g k l). rewrite fill_with_length.
    unfold fill_with in IH |- *. rewrite IH by lia. clear IH.
    destruct (j =? c + k)%nat eqn:E1.
    + apply Nat.eqb_eq in E1. subst j.
      replace (c + k <? length l)%nat with true by (symmetry; apply Nat.ltb_lt; lia).
      replace (c <=? c + k)%nat with true by (symmetry; apply Nat.leb_le; lia).
      replace (c + k <? c + Datatypes.S k)%nat with true by (symmetry; apply Nat.ltb_lt; lia).
      simpl. f_equal. lia.
    + apply Nat.eqb_neq in E1. simpl andb.
      destruct (c <=? j)%nat eqn:E2; simpl; auto.
      destruct (j <? c + k)%nat eqn:E3, (j <? c + Datatypes.S k)%nat eqn:E4; auto.
      * apply Nat.ltb_lt in E3. apply Nat.ltb_ge in E4. lia.
      * apply Nat.ltb_ge in E3. apply Nat.ltb_lt in E4. lia.
Qed.

(** Overwriting every position gives the list of the values written. *)
Lemma fill_with_all {B : Type} (g : nat -> B) (l : list B) :
  fill_with 0 g (length l) l = map g (seq 0 (length l)).
Proof.
  destruct l as [|b l]; [reflexivity|].
  apply (nth_ext _ _ b (g 0%nat)).
  - rewrite fill_with_length, length_map, length_seq. reflexivity.
  - intros i Hi. rewrite fill_with_length in Hi.
    rewrite nth_fill_with by lia.
    replace (0 <=? i)%nat with true by (symmetry; apply Nat.leb_le; lia).
    replace (i <? 0 + length (b :: l))%nat with true by (symmetry; apply Nat.ltb_lt; lia).
    cbn [andb]. rewrite Nat.sub_0_r.
    rewrite (map_nth g (seq 0 (length (b :: l))) 0%nat i).
    rewrite seq_nth by exact Hi. reflexivity.
Qed.

Lemma fill_length {A : Type} (c : nat) (g : nat -> A) (k : nat) (v : list (option A)) :
  length (fill c g k v) = length v.
Proof. apply fill_with_length. Qed.

Lemma nth_fill {A : Type} (c : nat) (g : nat -> A) (k : nat) (v : list (option A)) (j : nat) :
  (c + k <= length v)%nat ->
  nth j (fill c g k v) None =
  if (c <=? j)%nat && (j <? c + k)%nat then Some (g (j - c)%nat) else nth j v None.
Proof. intros Hk. unfold fill. apply nth_fill_with. exact Hk. Qed.

Lemma list_update_same {B : Type} (l : list B) (i : nat) (d : B) :
  list_update l i (nth i l d) = l.
Proof.
  revert i; induction l as [|h t IH]; intros [|i]; simpl; auto.
  rewrite IH. reflexivity.
Qed.

Lemma list_update_twice {B : Type} (l : list B) (i : nat) (a b : B) :
  list_update (list_update l i a) i b = list_update l i b.
Proof.
  revert i; induction l as [|h t IH]; intros [|i]; simpl; auto.
  rewrite IH. reflexivity.
Qed.

(** ** GSL accessors on written cells *)

Section Evaluation.

Context {D : Type} {ops : double_ops D}.

Implicit Types (v x : gsl_vector D) (p : parameter D).

Lemma written_nth v i :
  written v = true -> (i < length v)%nat -> nth i v None = Some (vget v i).
Proof.
  unfold written, vget. intros W Hi.
  rewrite forallb_forall in W.
  specialize (W (nth i v None) (nth_In v None Hi)).
  destruct (nth i v None); [reflexivity | discriminate].
Qed.

Lemma written_firstn v k : written v = true -> written (firstn k v) = true.
Proof.
  unfold written. revert k; induction v as [|c v IH]; intros [|k]; simpl; auto.
  intros W. apply andb_true_iff in W. destruct W as [-> W]. simpl. auto.
Qed.

Lemma written_firstn_nth v k i :
  written (firstn k v) = true -> (i < k)%nat -> (i < length v)%nat ->
  nth i v None = Some (vget v i).
Proof.
  intros W Hk Hi.
  assert (E : nth i (firstn k v) None = nth i v None).
  { rewrite nth_firstn. apply Nat.ltb_lt in Hk. rewrite Hk. reflexivity. }
  pose proof (@written_nth (firstn k v) i W) as H.
  rewrite length_firstn in H. specialize (H ltac:(lia)).
  unfold vget in H |- *. rewrite E in H. exact H.
Qed.

Lemma written_vec (l : list D) : written (vec l) = true.
Proof. induction l; simpl; auto. Qed.

Lemma vec_length (l : list D) : length (vec l) = length l.
Proof. apply length_map. Qed.

Lemma vget_vec (l : list D) (i : nat) : vget (vec l) i = nth i l (of_int 0).
Proof.
  unfold vget, vec. revert i; induction l as [|h t IH]; intros [|i]; simpl; auto.
Qed.

Lemma nth_vec_map_seq (f : nat -> D) (k i : nat) :
  (i < k)%nat -> nth i (vec (map f (seq 0 k))) None = Some (f i).
Proof.
  intros Hi. unfold vec. rewrite map_map.
  rewrite (nth_indep _ None (Some (f 0%nat))) by (rewrite length_map, length_seq; exact Hi).
  rewrite (map_nth (fun j => Some (f j)) (seq 0 k) 0%nat i).
  rewrite seq_nth by exact Hi. reflexivity.
Qed.

Lemma vget_vec_map_seq (f : nat -> D) (k i : nat) :
  (i < k)%nat -> vget (vec (map f (seq 0 k))) i = f i.
Proof. intros Hi. unfold vget. rewrite nth_vec_map_seq by exact Hi. reflexivity. Qed.

(** A vector all of whose cells are known is the list of their values. *)
Lemma cells_known (f : nat -> D) (k : nat) v :
  length v = k ->
  (forall i, (i < k)%nat -> nth i v None = Some (f i)) ->
  v = vec (map f (seq 0 k)).
Proof.
  intros L H. apply (nth_ext v _ None None).
  - rewrite vec_length, length_map, length_seq. exact L.
  - intros i Hi. rewrite L in Hi. rewrite nth_vec_map_seq by exact Hi. auto.
Qed.

Lemma get_at v (z : Z) (i : nat) :
  z = Z.of_nat i -> (i < length v)%nat -> nth i v None = Some (vget v i) ->
  gsl_vector_get v z = Some (vget v i).
Proof.
  intros -> Hi E. unfold gsl_vector_get, vsize.
  replace (0 <=? Z.of_nat i)%Z with true by (symmetry; apply Z.leb_le; lia).
  replace (Z.of_nat i <? Z.of_nat (length v))%Z with true by (symmetry; apply Z.ltb_lt; lia).
  simpl. rewrite Nat2Z.id. exact E.
Qed.

Lemma get_written v (i : nat) :
  written v = true -> (i < length v)%nat ->
  gsl_vector_get v (Z.of_nat i) = Some (vget v i).
Proof.
  intros W Hi. apply get_at; auto. apply written_nth; auto.
Qed.

Lemma get_vec (l : list D) (i : nat) :
  (i < length l)%nat -> gsl_vector_get (vec l) (Z.of_nat i) = Some (vget (vec l) i).
Proof.
  intros Hi. apply get_written; [apply written_vec | rewrite vec_length; exact Hi].
Qed.

Lemma set_at v (z : Z) (i : nat) (d : D) :
  z = Z.of_nat i -> (i < length v)%nat ->
  gsl_vector_set v z d = Some (list_update v i (Some d)).
Proof.
  intros -> Hi. unfold gsl_vector_set, vsize.
  replace (0 <=? Z.of_nat i)%Z with true by (symmetry; apply Z.leb_le; lia).
  replace (Z.of_nat i <? Z.of_nat (length v))%Z with true by (symmetry; apply Z.ltb_lt; lia).
  simpl. rewrite Nat2Z.id. reflexivity.
Qed.

Lemma alloc_at (z : Z) (k : nat) :
  z = Z.of_nat k -> (0 < k)%nat -> gsl_vector_alloc (D := D) z = Some (repeat None k).
Proof.
  intros -> Hk. unfold gsl_vector_alloc.
  replace (0 <? Z.of_nat k)%Z with true by (symmetry; apply Z.ltb_lt; lia).
  rewrite Nat2Z.id. reflexivity.
Qed.

Lemma mget_at (K : gsl_matrix D) (m : nat) (zi zj : Z) (i j : nat) :
  forallb (fun row => (length row =? m)%nat && written row) K = true ->
  zi = Z.of_nat i -> zj = Z.of_nat j -> (i < length K)%nat -> (j < m)%nat ->
  gsl_matrix_get K zi zj = Some (mget K i j).
Proof.
  intros W -> -> Hi Hj. unfold gsl_matrix_get, mget.
  replace (0 <=? Z.of_nat i)%Z with true by (symmetry; apply Z.leb_le; lia).
  replace (Z.of_nat i <? Z.of_nat (length K))%Z with true by (symmetry; apply Z.ltb_lt; lia).
  simpl. rewrite Nat2Z.id.
  rewrite forallb_forall in W.
  specialize (W (nth i K []) (nth_In K [] Hi)).
  apply andb_true_iff in W. destruct W as [L W]. apply Nat.eqb_eq in L.
  apply get_written; auto. lia.
Qed.

(** An accumulation loop. *)
Lemma for_range_sum (f : nat -> D) (k : nat) (hi : Z) (body : Z -> D -> option D) (a : D) :
  hi = Z.of_nat k ->
  (forall i acc, (i < k)%nat -> body (Z.of_nat i) acc = Some (acc + f i)%dbl) ->
  for_range 0 hi body a = Some (sum_from a f k).
Proof.
  intros -> H. unfold sum_from. apply for_range_pure; [lia|].
  intros i s Hi. simpl. apply H. exact Hi.
Qed.

(** A loop that fills a vector cell by cell. *)
Lemma for_range_fill (g : nat -> D) (k : nat) (hi : Z)
    (body : Z -> gsl_vector D -> option (gsl_vector D)) v :
  hi = Z.of_nat k -> (k <= length v)%nat ->
  (forall i u, (i < k)%nat -> length u = length v ->
     body (Z.of_nat i) u = Some (list_update u i (Some (g i)))) ->
  for_range 0 hi body v = Some (fill 0 g k v).
Proof.
  intros -> Hk H. unfold fill.
  apply (@for_range_steps _ (fun u => length u = length v)
           (fun i u => list_update u (0 + i) (Some (g i))) k 0%Z (Z.of_nat k) body v).
  - lia.
  - reflexivity.
  - intros i u Hi Hu. simpl. split.
    + apply H; auto.
    + rewrite list_update_length. exact Hu.
Qed.

Lemma fill_all (g : nat -> D) v :
  fill 0 g (length v) v = vec (map g (seq 0 (length v))).
Proof.
  apply cells_known.
  - apply fill_length.
  - intros i Hi. rewrite nth_fill by lia.
    replace (0 <=? i)%nat with true by (symmetry; apply Nat.leb_le; lia).
    replace (i <? 0 + length v)%nat with true by (symmetry; apply Nat.ltb_lt; lia).
    simpl. rewrite Nat.sub_0_r. reflexivity.
Qed.

(** ** The regularisation operator *)

Lemma size_t_sub_small (a b : Z) :
  (b <= a)%Z -> size_t_sub a b = (a - b)%Z.
Proof.
  intros H. unfold size_t_sub. apply Z.leb_le in H. rewrite H. reflexivity.
Qed.

(** With an output of [m >= 2] cells and the first [m] cells of the input
    written, [diff2] succeeds and writes every cell of the output. *)
Lemma diff2_eval x (ddg : gsl_vector D) (m : nat) :
  (2 <= m)%nat ->
  length ddg = m -> (m <= length x)%nat ->
  written (firstn m x) = true ->
  diff2 x ddg = Some (vec (D2 x m)).
Proof.
  intros Hm Hd Hx W.
  assert (G : forall (z : Z) (i : nat), z = Z.of_nat i -> (i < m)%nat ->
              gsl_vector_get x z = Some (vget x i)).
  { intros z i Hz Hi. apply get_at; auto; [lia|].
    apply (@written_firstn_nth x m i); auto; lia. }
  unfold diff2.
  assert (Hs1 : size_t_sub (vsize ddg) 1 = Z.of_nat (m - 1)).
  { unfold vsize. rewrite Hd. rewrite size_t_sub_small; lia. }
  rewrite Hs1.
  destruct (@for_range_steps _ (fun u : gsl_vector D => length u = m)
              (fun i u => list_update u (1 + i) (Some (D2_entry x m (1 + i))))
              (m - 2) 1%Z (Z.of_nat (m - 1))
              (fun i ddg =>
                 xm <- gsl_vector_get x (i - 1) ;;
                 xi <- gsl_vector_get x i ;;
                 xp <- gsl_vector_get x (i + 1) ;;
                 gsl_vector_set ddg i (xm - of_int 2 * xi + xp)%dbl) ddg)
    as [E L]; [lia | exact Hd | | ].
  { intros i u Hi Hu.
    rewrite (G (1 + Z.of_nat i - 1)%Z i) by lia. cbn [bind].
    rewrite (G (1 + Z.of_nat i)%Z (1 + i)%nat) by lia. cbn [bind].
    rewrite (G (1 + Z.of_nat i + 1)%Z (2 + i)%nat) by lia. cbn [bind].
    rewrite (@set_at u (1 + Z.of_nat i)%Z (1 + i)%nat) by lia.
    rewrite list_update_length. split; [|exact Hu].
    unfold D2_entry.
    replace (1 + i =? 0)%nat with false by (symmetry; apply Nat.eqb_neq; lia).
    replace (1 + i =? m - 1)%nat with false by (symmetry; apply Nat.eqb_neq; lia).
    replace (1 + i - 1)%nat with i by lia.
    replace (1 + i + 1)%nat with (2 + i)%nat by lia.
    reflexivity. }
  cbv beta in L. rewrite E. cbn [bind]. clear E.
  pose (d1 := fill 1 (fun i => D2_entry x m (1 + i)) (m - 2) ddg).
  change (steps (fun i u => list_update u (1 + i) (Some (D2_entry x m (1 + i))))
            (m - 2) ddg) with d1 in *.
  rewrite (G 0%Z 0%nat) by lia. cbn [bind].
  rewrite (G 1%Z 1%nat) by lia. cbn [bind].
  rewrite (@set_at d1 0%Z 0%nat) by lia. cbn [bind].
  set (d2 := list_update d1 0 _).
  assert (L2 : length d2 = m) by (unfold d2; rewrite list_update_length; exact L).
  assert (Hs2 : size_t_sub (vsize d2) 2 = Z.of_nat (m - 2)).
  { unfold vsize. rewrite L2. rewrite size_t_sub_small; lia. }
  assert (Hs3 : size_t_sub (vsize d2) 1 = Z.of_nat (m - 1)).
  { unfold vsize. rewrite L2. rewrite size_t_sub_small; lia. }
  rewrite Hs2, Hs3.
  rewrite (G (Z.of_nat (m - 2)) (m - 2)%nat) by lia. cbn [bind].
  rewrite (G (Z.of_nat (m - 1)) (m - 1)%nat) by lia. cbn [bind].
  rewrite (@set_at d2 (Z.of_nat (m - 1)) (m - 1)%nat) by lia.
  f_equal. unfold D2. apply cells_known.
  - rewrite list_update_length. exact L2.
  - intros j Hj. rewrite nth_list_update, L2. unfold d2.
    rewrite nth_list_update, L. unfold d1. rewrite nth_fill by lia.
    unfold D2_entry.
    destruct (j =? m - 1)%nat eqn:E1.
    + apply Nat.eqb_eq in E1.
      replace (m - 1 <? m)%nat with true by (symmetry; apply Nat.ltb_lt; lia).
      replace (j =? 0)%nat with false by (symmetry; apply Nat.eqb_neq; lia).
      reflexivity.
    + cbn [andb]. destruct (j =? 0)%nat eqn:E0.
      * replace (0 <? m)%nat with true by (symmetry; apply Nat.ltb_lt; lia).
        reflexivity.
      * cbn [andb]. apply Nat.eqb_neq in E0, E1.
        replace (1 <=? j)%nat with true by (symmetry; apply Nat.leb_le; lia).
        replace (j <? 1 + (m - 2))%nat with true by (symmetry; apply Nat.ltb_lt; lia).
        cbn [andb]. unfold D2_entry.
        replace (1 + (j - 1) =? 0)%nat with false by (symmetry; apply Nat.eqb_neq; lia).
        replace (1 + (j - 1) =? m - 1)%nat with false by (symmetry; apply Nat.eqb_neq; lia).
        replace (1 + (j - 1))%nat with j by lia.
        reflexivity.
Qed.

Lemma D2_length x (m : nat) : length (D2 x m) = m.
Proof. unfold D2. rewrite length_map, length_seq. reflexivity. Qed.

Lemma fill_then_last (g : nat -> D) (a : D) (m : nat) v :
  length v = (m + 1)%nat ->
  list_update (fill 0 g m v) m (Some a) = vec (map g (seq 0 m) ++ [a]).
Proof.
  intros L. apply (nth_ext _ _ None None).
  - rewrite list_update_length, fill_length, vec_length, length_app, length_map,
      length_seq. simpl. exact L.
  - intros j Hj. rewrite list_update_length, fill_length, L in Hj.
    rewrite nth_list_update, fill_length, L, nth_fill by lia.
    replace (m <? m + 1)%nat with true by (symmetry; apply Nat.ltb_lt; lia).
    rewrite andb_true_r. unfold vec. rewrite map_app.
    destruct (j =? m)%nat eqn:E.
    + apply Nat.eqb_eq in E. subst j.
      rewrite app_nth2 by (rewrite !length_map, length_seq; lia).
      rewrite !length_map, length_seq, Nat.sub_diag. reflexivity.
    + apply Nat.eqb_neq in E.
      rewrite app_nth1 by (rewrite !length_map, length_seq; lia).
      replace (0 <=? j)%nat with true by (symmetry; apply Nat.leb_le; lia).
      replace (j <? 0 + m)%nat with true by (symmetry; apply Nat.ltb_lt; lia).
      cbn [andb]. rewrite Nat.sub_0_r.
      fold (vec (map g (seq 0 m))). rewrite nth_vec_map_seq by lia. reflexivity.
Qed.

(** ** The loops of the evaluators *)

Section Loops.

Variables (n m : nat) (p : parameter D).
Hypothesis Hp : valid_parameter n m p.

Lemma get_w (z : Z) (i : nat) :
  z = Z.of_nat i -> (i < n)%nat -> gsl_vector_get (p_w p) z = Some (vget (p_w p) i).
Proof.
  destruct Hp as (_ & _ & L & W & _). intros -> Hi. apply get_written; auto; lia.
Qed.

Lemma get_y (z : Z) (i : nat) :
  z = Z.of_nat i -> (i < n)%nat -> gsl_vector_get (p_y p) z = Some (vget (p_y p) i).
Proof.
  destruct Hp as (L & W & _). intros -> Hi. apply get_written; auto; lia.
Qed.

Lemma get_c (z : Z) (j : nat) :
  z = Z.of_nat j -> (j < m)%nat -> gsl_vector_get (p_c p) z = Some (vget (p_c p) j).
Proof.
  destruct Hp as (_ & _ & _ & _ & L & W & _). intros -> Hj.
  apply get_written; auto; lia.
Qed.

Lemma get_K (zi zj : Z) (i j : nat) :
  zi = Z.of_nat i -> zj = Z.of_nat j -> (i < n)%nat -> (j < m)%nat ->
  gsl_matrix_get (p_K p) zi zj = Some (mget (p_K p) i j).
Proof.
  destruct Hp as (_ & _ & _ & _ & _ & _ & L & W). intros Hi Hj Hin Hjm.
  apply (@mget_at (p_K p) m); auto; lia.
Qed.

(** The same sum, read back from the vector [z]. *)
Lemma var_loop_z (zf : nat -> D) :
  for_range 0 (Z.of_nat n)
    (fun i var =>
       wi <- gsl_vector_get (p_w p) i ;;
       yi <- gsl_vector_get (p_y p) i ;;
       zi <- gsl_vector_get (vec (map zf (seq 0 n))) i ;;
       Some (var + wi * sqr (yi - zi))%dbl) (of_int 0)
  = Some (sum_from (of_int 0)
            (fun i => (vget (p_w p) i * sqr (vget (p_y p) i - zf i))%dbl) n).
Proof.
  apply for_range_sum; [reflexivity|].
  intros i acc Hi.
  rewrite (@get_w _ i), (@get_y _ i) by (auto; lia). cbn [bind].
  rewrite get_vec by (rewrite length_map, length_seq; exact Hi). cbn [bind].
  rewrite vget_vec_map_seq by exact Hi. reflexivity.
Qed.

Lemma reg_loop (d2g : list D) :
  length d2g = m ->
  for_range 0 (Z.of_nat m)
    (fun i reg =>
       di <- gsl_vector_get (vec d2g) i ;;
       Some (reg + sqr di)%dbl) (of_int 0)
  = Some (sum_from (of_int 0) (fun i => sqr (vget (vec d2g) i)) m).
Proof.
  intros L. apply for_range_sum; [reflexivity|].
  intros i acc Hi. rewrite get_vec by lia. reflexivity.
Qed.

Lemma grad_loops (zf : nat -> D) (d4g : list D) (grad : gsl_vector D) :
  length d4g = m -> length grad = (m + 1)%nat ->
  (grad <- for_range 0 (Z.of_nat m)
             (fun i grad =>
                gradi <- for_range 0 (Z.of_nat n)
                           (fun j gradi =>
                              wj <- gsl_vector_get (p_w p) j ;;
                              zj <- gsl_vector_get (vec (map zf (seq 0 n))) j ;;
                              yj <- gsl_vector_get (p_y p) j ;;
                              ci <- gsl_vector_get (p_c p) i ;;
                              kji <- gsl_matrix_get (p_K p) j i ;;
                              Some (gradi + of_int 2 * wj * (zj - yj) * ci * kji)%dbl)
                           (of_int 0) ;;
                d4 <- gsl_vector_get (vec d4g) i ;;
                gsl_vector_set grad i
                  (gradi + of_int 2 * p_alpha p * p_alpha p * d4)%dbl)
             grad ;;
   gradm <- for_range 0 (Z.of_nat n)
              (fun j gradm =>
                 wj <- gsl_vector_get (p_w p) j ;;
                 zj <- gsl_vector_get (vec (map zf (seq 0 n))) j ;;
                 yj <- gsl_vector_get (p_y p) j ;;
                 Some (gradm + of_int 2 * wj * (zj - yj))%dbl)
              (of_int 0) ;;
   gsl_vector_set grad (Z.of_nat m) gradm)
  = Some (vec (gradient_of p n m zf (vec d4g))).
Proof.
  intros L4 Lg.
  rewrite (@for_range_fill (gradient_entry p n zf (vec d4g)) m); [| reflexivity | lia |].
  2:{ intros i u Hi Lu.
      rewrite (@for_range_sum
                 (fun j => (of_int 2 * vget (p_w p) j * (zf j - vget (p_y p) j)
                            * vget (p_c p) i * mget (p_K p) j i)%dbl) n);
        [| reflexivity |].
      2:{ intros j acc Hj.
          rewrite (@get_w _ j) by (auto; lia). cbn [bind].
          rewrite get_vec by (rewrite length_map, length_seq; exact Hj). cbn [bind].
          rewrite (@get_y _ j), (@get_c _ i), (@get_K _ _ j i) by (auto; lia).
          cbn [bind]. rewrite vget_vec_map_seq by exact Hj. reflexivity. }
      cbn [bind]. rewrite get_vec by lia. cbn [bind].
      rewrite (@set_at u (Z.of_nat i) i) by lia. reflexivity. }
  cbn [bind].
  rewrite (@for_range_sum
             (fun j => (of_int 2 * vget (p_w p) j * (zf j - vget (p_y p) j))%dbl) n);
    [| reflexivity |].
  2:{ intros j acc Hj.
      rewrite (@get_w _ j) by (auto; lia). cbn [bind].
      rewrite get_vec by (rewrite length_map, length_seq; exact Hj). cbn [bind].
      rewrite (@get_y _ j) by (auto; lia).
      cbn [bind]. rewrite vget_vec_map_seq by exact Hj. reflexivity. }
  cbn [bind].
  rewrite (@set_at _ (Z.of_nat m) m) by (rewrite ?fill_length; lia).
  f_equal. unfold gradient_of. apply fill_then_last. exact Lg.
Qed.

(** The same loops followed by the rest of the run. *)
Lemma grad_loops_then {B : Type} (k : gsl_vector D -> option B)
    (zf : nat -> D) (d4g : list D) (grad : gsl_vector D) :
  length d4g = m -> length grad = (m + 1)%nat ->
  (grad <- for_range 0 (Z.of_nat m)
             (fun i grad =>
                gradi <- for_range 0 (Z.of_nat n)
                           (fun j gradi =>
                              wj <- gsl_vector_get (p_w p) j ;;
                              zj <- gsl_vector_get (vec (map zf (seq 0 n))) j ;;
                              yj <- gsl_vector_get (p_y p) j ;;
                              ci <- gsl_vector_get (p_c p) i ;;
                              kji <- gsl_matrix_get (p_K p) j i ;;
                              Some (gradi + of_int 2 * wj * (zj - yj) * ci * kji)%dbl)
                           (of_int 0) ;;
                d4 <- gsl_vector_get (vec d4g) i ;;
                gsl_vector_set grad i
                  (gradi + of_int 2 * p_alpha p * p_alpha p * d4)%dbl)
             grad ;;
   gradm <- for_range 0 (Z.of_nat n)
              (fun j gradm =>
                 wj <- gsl_vector_get (p_w p) j ;;
                 zj <- gsl_vector_get (vec (map zf (seq 0 n))) j ;;
                 yj <- gsl_vector_get (p_y p) j ;;
                 Some (gradm + of_int 2 * wj * (zj - yj))%dbl)
              (of_int 0) ;;
   grad <- gsl_vector_set grad (Z.of_nat m) gradm ;;
   k grad)
  = k (vec (gradient_of p n m zf (vec d4g))).
Proof.
  intros L4 Lg. pose proof (grad_loops zf d4g grad L4 Lg) as H.
  revert H.
  destruct (for_range 0 (Z.of_nat m) _ grad) as [g1|]; cbn [bind]; [|discriminate].
  destruct (for_range 0 (Z.of_nat n) _ (of_int 0)) as [gm|]; cbn [bind]; [|discriminate].
  intros ->. reflexivity.
Qed.

Variable x : gsl_vector D.
Hypothesis Hx : length x = (m + 1)%nat.
Hypothesis Wx : written x = true.

Lemma get_x (z : Z) (j : nat) :
  z = Z.of_nat j -> (j <= m)%nat -> gsl_vector_get x z = Some (vget x j).
Proof. intros -> Hj. apply get_written; auto; lia. Qed.

Lemma predict_loop (i : nat) (b : D) :
  (i < n)%nat ->
  for_range 0 (Z.of_nat m)
    (fun j z =>
       cj <- gsl_vector_get (p_c p) j ;;
       kij <- gsl_matrix_get (p_K p) (Z.of_nat i) j ;;
       xj <- gsl_vector_get x j ;;
       Some (z + cj * kij * xj)%dbl) b
  = Some (sum_from b
            (fun j => (vget (p_c p) j * mget (p_K p) i j * vget x j)%dbl) m).
Proof.
  intros Hi. apply for_range_sum; [reflexivity|].
  intros j acc Hj.
  rewrite (@get_c _ j), (@get_K _ _ i j), (@get_x _ j) by (auto; lia).
  reflexivity.
Qed.

Lemma z_loop (b : D) (z : gsl_vector D) :
  length z = n ->
  for_range 0 (Z.of_nat n)
    (fun i z =>
       zi <- for_range 0 (Z.of_nat m)
               (fun j zi =>
                  cj <- gsl_vector_get (p_c p) j ;;
                  kij <- gsl_matrix_get (p_K p) i j ;;
                  xj <- gsl_vector_get x j ;;
                  Some (zi + cj * kij * xj)%dbl) b ;;
       gsl_vector_set z i zi) z
  = Some (vec (map (fun i => sum_from b
                    (fun j => (vget (p_c p) j * mget (p_K p) i j * vget x j)%dbl) m)
                 (seq 0 n))).
Proof.
  intros Lz. rewrite <- Lz at 2. rewrite <- fill_all.
  apply for_range_fill; [lia | lia |].
  intros i u Hi Lu. rewrite Lz in *.
  rewrite predict_loop by exact Hi. cbn [bind].
  apply set_at; [reflexivity | lia].
Qed.

Lemma var_loop (b : D) :
  for_range 0 (Z.of_nat n)
    (fun i var =>
       z <- for_range 0 (Z.of_nat m)
              (fun j z =>
                 cj <- gsl_vector_get (p_c p) j ;;
                 kij <- gsl_matrix_get (p_K p) i j ;;
                 xj <- gsl_vector_get x j ;;
                 Some (z + cj * kij * xj)%dbl) b ;;
       wi <- gsl_vector_get (p_w p) i ;;
       yi <- gsl_vector_get (p_y p) i ;;
       Some (var + wi * sqr (yi - z))%dbl) (of_int 0)
  = Some (sum_from (of_int 0)
            (fun i => (vget (p_w p) i
                       * sqr (vget (p_y p) i
                              - sum_from b
                                  (fun j => vget (p_c p) j * mget (p_K p) i j * vget x j) m))%dbl)
            n).
Proof.
  apply for_range_sum; [reflexivity|].
  intros i acc Hi.
  rewrite predict_loop by exact Hi. cbn [bind].
  rewrite (@get_w _ i), (@get_y _ i) by (auto; lia).
  reflexivity.
Qed.

End Loops.

(** ** The evaluators in closed form *)

Section Evaluators.

Variables (n m : nat) (p : parameter D) (x : gsl_vector D).
Hypothesis Hp : valid_parameter n m p.
Hypothesis Hm : (2 <= m)%nat.
Hypothesis Hx : length x = (m + 1)%nat.
Hypothesis Wx : written x = true.

Lemma sizes_of_run :
  vsize (p_y p) = Z.of_nat n /\ (vsize x - 1)%Z = Z.of_nat m.
Proof.
  destruct Hp as (L & _). unfold vsize. rewrite L, Hx. split; lia.
Qed.

Lemma diff2_x (d : gsl_vector D) :
  length d = m -> diff2 x d = Some (vec (D2 x m)).
Proof.
  intros Ld. apply diff2_eval; auto; [lia|]. apply written_firstn. exact Wx.
Qed.

Lemma diff2_twice (d : gsl_vector D) :
  length d = m -> diff2 (vec (D2 x m)) d = Some (vec (D2 (vec (D2 x m)) m)).
Proof.
  intros Ld. apply diff2_eval; auto.
  - rewrite vec_length, D2_length. lia.
  - apply written_firstn. apply written_vec.
Qed.

Lemma fun_eval : fun_ x p = Some (objective x p n m).
Proof.
  unfold fun_. destruct sizes_of_run as [-> ->].
  rewrite (@alloc_at (Z.of_nat m) m) by (auto; lia). cbn [bind].
  rewrite diff2_x by apply repeat_length. cbn [bind].
  rewrite (@get_x m x Hx Wx _ m) by (auto; lia). cbn [bind].
  rewrite (var_loop Hp x Hx Wx). cbn [bind].
  rewrite reg_loop by apply D2_length. cbn [bind].
  reflexivity.
Qed.

Lemma fun_df_eval (grad : gsl_vector D) :
  (1 <= n)%nat -> length grad = (m + 1)%nat ->
  fun_df x p grad = Some (vec (gradient x p n m)).
Proof.
  intros Hn Lg. unfold fun_df. destruct sizes_of_run as [-> ->].
  rewrite (@alloc_at (Z.of_nat n) n) by (auto; lia). cbn [bind].
  rewrite (@alloc_at (Z.of_nat m) m) by (auto; lia). cbn [bind].
  rewrite diff2_x by apply repeat_length. cbn [bind].
  rewrite diff2_twice by apply repeat_length. cbn [bind].
  rewrite (@get_x m x Hx Wx _ m) by (auto; lia). cbn [bind].
  rewrite (z_loop Hp x Hx Wx) by apply repeat_length. cbn [bind].
  apply (grad_loops Hp); [apply D2_length | exact Lg].
Qed.

Lemma fun_fdf_eval (grad : gsl_vector D) :
  (1 <= n)%nat -> length grad = (m + 1)%nat ->
  fun_fdf x p grad = Some (objective x p n m, vec (gradient x p n m)).
Proof.
  intros Hn Lg. unfold fun_fdf. destruct sizes_of_run as [-> ->].
  rewrite (@alloc_at (Z.of_nat n) n) by (auto; lia). cbn [bind].
  rewrite (@alloc_at (Z.of_nat m) m) by (auto; lia). cbn [bind].
  rewrite diff2_x by apply repeat_length. cbn [bind].
  rewrite diff2_twice by apply repeat_length. cbn [bind].
  rewrite (@get_x m x Hx Wx _ m) by (auto; lia). cbn [bind].
  rewrite (z_loop Hp x Hx Wx) by apply repeat_length. cbn [bind].
  rewrite (var_loop_z Hp). cbn [bind].
  rewrite reg_loop by apply D2_length. cbn [bind].
  rewrite (grad_loops_then Hp) by (auto; apply D2_length).
  reflexivity.
Qed.

End Evaluators.

Section Hessian_vector.

Variables (n m : nat) (p : parameter D) (x v : gsl_vector D).
Hypothesis Hp : valid_parameter n m p.
Hypothesis Hm : (2 <= m)%nat.
Hypothesis Hx : length x = (m + 1)%nat.
Hypothesis Hv : length v = (m + 1)%nat.
Hypothesis Wv : written v = true.

Lemma H2_loop (i : nat) :
  (i < m)%nat ->
  for_range 0 (Z.of_nat n)
    (fun k H2i =>
       wk <- gsl_vector_get (p_w p) k ;;
       ci <- gsl_vector_get (p_c p) (Z.of_nat i) ;;
       kki <- gsl_matrix_get (p_K p) k (Z.of_nat i) ;;
       Some (H2i + of_int 2 * wk * ci * kki)%dbl) (of_int 0)
  = Some (H2_of p n i).
Proof.
  intros Hi. apply for_range_sum; [reflexivity|].
  intros k acc Hk.
  rewrite (get_w Hp (i := k)), (get_c Hp (j := i)), (get_K Hp (i := k) (j := i))
    by (auto; lia).
  reflexivity.
Qed.

Lemma H1_loop (i j : nat) :
  (i < m)%nat -> (j < m)%nat ->
  for_range 0 (Z.of_nat n)
    (fun k H1ij =>
       wk <- gsl_vector_get (p_w p) k ;;
       ci <- gsl_vector_get (p_c p) (Z.of_nat i) ;;
       kki <- gsl_matrix_get (p_K p) k (Z.of_nat i) ;;
       cj <- gsl_vector_get (p_c p) (Z.of_nat j) ;;
       kkj <- gsl_matrix_get (p_K p) k (Z.of_nat j) ;;
       Some (H1ij + of_int 2 * wk * ci * kki * cj * kkj)%dbl) (of_int 0)
  = Some (H1_of p n i j).
Proof.
  intros Hi Hj. apply for_range_sum; [reflexivity|].
  intros k acc Hk.
  rewrite (get_w Hp (i := k)), (get_c Hp (j := i)), (get_K Hp (i := k) (j := i)),
    (get_c Hp (j := j)), (get_K Hp (i := k) (j := j)) by (auto; lia).
  reflexivity.
Qed.

Lemma fun_Hv_eval (hv : gsl_vector D) :
  length hv = (m + 1)%nat ->
  fun_Hv x p v hv = Some (vec (Hv_code p n m v)).
Proof.
  intros Lh. unfold fun_Hv.
  assert (Sy : vsize (p_y p) = Z.of_nat n)
    by (destruct Hp as (L & _); unfold vsize; rewrite L; reflexivity).
  assert (Sx : (vsize x - 1)%Z = Z.of_nat m) by (unfold vsize; rewrite Hx; lia).
  rewrite Sy, Sx.
  rewrite (@alloc_at (Z.of_nat m) m) by (auto; lia). cbn [bind].
  rewrite (@diff2_x m v) by (auto; apply repeat_length). cbn [bind].
  rewrite (@diff2_twice m v) by (auto; apply repeat_length). cbn [bind].
  rewrite (@for_range_sum (fun k => (of_int 2 * vget (p_w p) k)%dbl) n);
    [| reflexivity |].
  2:{ intros k acc Hk. rewrite (get_w Hp (i := k)) by (auto; lia). reflexivity. }
  cbn [bind]. fold (H3_of p n).
  rewrite (@get_x m v Hv Wv _ m) by (auto; lia). cbn [bind].
  match goal with
  | |- bind (for_range _ _ ?body ?s) _ = _ =>
      destruct (@for_range_steps _
                  (fun st : gsl_vector D * D => length (fst st) = (m + 1)%nat)
                  (fun i st => (list_update (fst st) i (Some (Hv_entry p n m v i)),
                                (snd st + H2_of p n i * vget v i)%dbl))
                  m 0%Z (Z.of_nat m) body s)
        as [E L]; [lia | exact Lh | | ]
  end.
  { intros i st Hi Hst. rewrite Z.add_0_l.
    rewrite H2_loop by exact Hi. cbn [bind].
    rewrite (@get_x m v Hv Wv _ i) by (auto; lia). cbn [bind].
    rewrite (@for_range_sum (fun j => (H1_of p n i j * vget v j)%dbl) m);
      [| reflexivity |].
    2:{ intros j acc Hj. rewrite H1_loop by auto. cbn [bind].
        rewrite (@get_x m v Hv Wv _ j) by (auto; lia). reflexivity. }
    cbn [bind]. rewrite get_vec by (rewrite D2_length; exact Hi). cbn [bind].
    rewrite (@set_at (fst st) (Z.of_nat i) i) by lia. cbn [bind fst snd].
    rewrite list_update_length. split; [reflexivity | exact Hst]. }
  rewrite E. cbn [bind]. cbv beta in L. clear E.
  match type of L with
  | length (fst ?st) = _ =>
      assert (SP : st = (fill 0 (Hv_entry p n m v) m hv, Hv_last p n m v))
        by (apply (steps_pair (fun i (u : gsl_vector D) =>
                                 list_update u i (Some (Hv_entry p n m v i)))
                              (fun i a => (a + H2_of p n i * vget v i)%dbl)));
      rewrite SP in *
  end.
  cbn [fst snd] in *.
  rewrite (@set_at _ (Z.of_nat m) m) by (auto; lia).
  f_equal. unfold Hv_code. apply fill_then_last. exact Lh.
Qed.

End Hessian_vector.

(** ** The discretisation builder in closed form *)

Lemma fill_all_upto (g : nat -> D) (k : nat) (v : gsl_vector D) :
  length v = k -> fill 0 g k v = vec (map g (seq 0 k)).
Proof. intros <-. apply fill_all. Qed.

Lemma steps_id {S : Type} (k : nat) (s : S) : steps (fun _ s => s) k s = s.
Proof. induction k; simpl; auto. Qed.

Lemma matrix_alloc_at (zn zm : Z) (n m : nat) :
  zn = Z.of_nat n -> zm = Z.of_nat m -> (0 < n)%nat -> (0 < m)%nat ->
  gsl_matrix_alloc (D := D) zn zm = Some (repeat (repeat None m) n).
Proof.
  intros -> -> Hn Hm. unfold gsl_matrix_alloc.
  replace (0 <? Z.of_nat n)%Z with true by (symmetry; apply Z.ltb_lt; lia).
  replace (0 <? Z.of_nat m)%Z with true by (symmetry; apply Z.ltb_lt; lia).
  rewrite !Nat2Z.id. reflexivity.
Qed.

Lemma memcpy_at (dest src : gsl_vector D) :
  length dest = length src -> gsl_vector_memcpy dest src = Some src.
Proof.
  intros L. unfold gsl_vector_memcpy, vsize. rewrite L, Z.eqb_refl. reflexivity.
Qed.

Lemma mset_at (K : gsl_matrix D) (zi zj : Z) (i j : nat) (d : D) :
  zi = Z.of_nat i -> zj = Z.of_nat j ->
  (i < length K)%nat -> (j < length (nth i K []))%nat ->
  gsl_matrix_set K zi zj d =
  Some (list_update K i (list_update (nth i K []) j (Some d))).
Proof.
  intros -> -> Hi Hj. unfold gsl_matrix_set.
  replace (0 <=? Z.of_nat i)%Z with true by (symmetry; apply Z.leb_le; lia).
  replace (Z.of_nat i <? Z.of_nat (length K))%Z with true by (symmetry; apply Z.ltb_lt; lia).
  cbn [andb]. rewrite Nat2Z.id.
  rewrite (@set_at _ (Z.of_nat j) j) by (auto; lia). reflexivity.
Qed.

Lemma nth_repeat_lt {B : Type} (a d : B) (k i : nat) :
  (i < k)%nat -> nth i (repeat a k) d = a.
Proof.
  revert i; induction k as [|k IH]; intros [|i] Hi; simpl; auto; try lia.
  apply IH. lia.
Qed.

Lemma nth_list_update_same {B : Type} (l : list B) (i : nat) (a d : B) :
  (i < length l)%nat -> nth i (list_update l i a) d = a.
Proof.
  intros Hi. rewrite nth_list_update. rewrite Nat.eqb_refl.
  apply Nat.ltb_lt in Hi. rewrite Hi. reflexivity.
Qed.

(** Writing row [i] of a matrix cell by cell. *)
Lemma row_fill_steps (e : nat -> D) (i k : nat) (K : gsl_matrix D) :
  (i < length K)%nat ->
  steps (fun j K => list_update K i (list_update (nth i K []) j (Some (e j)))) k K
  = list_update K i (fill 0 e k (nth i K [])).
Proof.
  intros Hi. induction k as [|k IH].
  - simpl. symmetry. apply list_update_same.
  - cbn [steps]. rewrite IH. unfold fill, fill_with. cbn [steps].
    rewrite nth_list_update_same by exact Hi.
    rewrite list_update_twice. reflexivity.
Qed.

Section Builder.

Variables (t y var : gsl_vector D) (alpha tau0 tau1 : D) (n m : nat) (kernelType : Z).
Hypothesis Hn : (1 <= n)%nat.
Hypothesis Hm : (1 <= m)%nat.
Hypothesis Lt : length t = n.
Hypothesis Ly : length y = n.
Hypothesis Lv : (n <= length var)%nat.
Hypothesis Wv : written (firstn n var) = true.
Hypothesis Wt : kernelType = 0%Z \/ kernelType = 1%Z -> written t = true.

Let tau := tau_grid tau0 tau1 m.


Lemma tau_length : length tau = m.
Proof. unfold tau, tau_grid. rewrite length_map, length_seq. reflexivity. Qed.

Lemma kernel_row_loop (i : nat) (K : gsl_matrix D) :
  (i < n)%nat -> length K = n -> length (nth i K []) = m ->
  for_range 0 (Z.of_nat m)
    (fun j pK =>
       if (kernelType =? 0)%Z then
         ti <- gsl_vector_get t (Z.of_nat i) ;;
         tj <- gsl_vector_get (vec tau) j ;;
         gsl_matrix_set pK (Z.of_nat i) j (dexp (- ti / tj))%dbl
       else if (kernelType =? 1)%Z then
         tj <- gsl_vector_get (vec tau) j ;;
         ti <- gsl_vector_get t (Z.of_nat i) ;;
         tj' <- gsl_vector_get (vec tau) j ;;
         gsl_matrix_set pK (Z.of_nat i) j (dM_1_PI * tj / (sqr ti + sqr tj'))%dbl
       else Some pK) K
  = Some ((row_written kernelType t tau m) i K).
Proof.
  intros Hi LK Lrow. unfold row_written.
  destruct (kernelType =? 0)%Z eqn:E0; [|destruct (kernelType =? 1)%Z eqn:E1].
  - apply Z.eqb_eq in E0. specialize (Wt (or_introl E0)).
    rewrite <- (@fill_all_upto (exponential t tau i) m (nth i K [])) by exact Lrow.
    rewrite <- row_fill_steps by lia.
    apply (@for_range_steps _
             (fun K' : gsl_matrix D => length K' = n /\ length (nth i K' []) = m)).
    + lia.
    + auto.
    + intros j K' Hj [L1 L2]. rewrite Z.add_0_l.
      rewrite get_written by (auto; lia). cbn [bind].
      rewrite get_vec by (rewrite tau_length; exact Hj). cbn [bind].
      rewrite (@mset_at K' _ _ i j) by (auto; lia).
      rewrite vget_vec. split; [reflexivity|].
      rewrite list_update_length, nth_list_update_same, list_update_length by lia.
      auto.
  - apply Z.eqb_eq in E1. specialize (Wt (or_intror E1)).
    rewrite <- (@fill_all_upto (lorentzian t tau i) m (nth i K [])) by exact Lrow.
    rewrite <- row_fill_steps by lia.
    apply (@for_range_steps _
             (fun K' : gsl_matrix D => length K' = n /\ length (nth i K' []) = m)).
    + lia.
    + auto.
    + intros j K' Hj [L1 L2]. rewrite Z.add_0_l.
      rewrite get_vec by (rewrite tau_length; exact Hj). cbn [bind].
      rewrite get_written by (auto; lia). cbn [bind].
      rewrite (@mset_at K' _ _ i j) by (auto; lia).
      rewrite vget_vec. split; [reflexivity|].
      rewrite list_update_length, nth_list_update_same, list_update_length by lia.
      auto.
  - rewrite <- (steps_id m K) at 2.
    apply for_range_pure; [lia|]. intros; reflexivity.
Qed.

Lemma row_written_rows (i : nat) (K : gsl_matrix D) :
  length K = n -> (forall i', (i' < n)%nat -> length (nth i' K []) = m) ->
  length ((row_written kernelType t tau m) i K) = n /\
  (forall i', (i' < n)%nat -> length (nth i' ((row_written kernelType t tau m) i K) []) = m).
Proof.
  intros LK Rows. unfold row_written.
  destruct (kernelType =? 0)%Z; [|destruct (kernelType =? 1)%Z]; auto.
  - rewrite list_update_length. split; auto. intros i' Hi'.
    rewrite nth_list_update. destruct ((i' =? i)%nat && (i <? length K)%nat); auto.
    rewrite vec_length, length_map, length_seq. reflexivity.
  - rewrite list_update_length. split; auto. intros i' Hi'.
    rewrite nth_list_update. destruct ((i' =? i)%nat && (i <? length K)%nat); auto.
    rewrite vec_length, length_map, length_seq. reflexivity.
Qed.

Lemma kernel_rows_written (K : gsl_matrix D) :
  K = repeat (repeat None m) n ->
  steps (row_written kernelType t tau m) n K = kernel_matrix kernelType t tau n m.
Proof.
  intros ->. unfold kernel_matrix.
  destruct (kernelType =? 0)%Z eqn:E0; [|destruct (kernelType =? 1)%Z eqn:E1].
  - rewrite (@steps_ext _ (row_written kernelType t tau m)
               (fun i K => list_update K (0 + i) (vec (map (exponential t tau i) (seq 0 m)))))
      by (intros; unfold row_written; rewrite E0; reflexivity).
    pose proof (@fill_with_all _
                  (fun i => vec (map (exponential t tau i) (seq 0 m)))
                  (repeat (repeat None m) n)) as H.
    rewrite repeat_length in H. exact H.
  - rewrite (@steps_ext _ (row_written kernelType t tau m)
               (fun i K => list_update K (0 + i) (vec (map (lorentzian t tau i) (seq 0 m)))))
      by (intros; unfold row_written; rewrite E0, E1; reflexivity).
    pose proof (@fill_with_all _
                  (fun i => vec (map (lorentzian t tau i) (seq 0 m)))
                  (repeat (repeat None m) n)) as H.
    rewrite repeat_length in H. exact H.
  - rewrite (@steps_ext _ (row_written kernelType t tau m) (fun _ K => K))
      by (intros; unfold row_written; rewrite E0, E1; reflexivity).
    apply steps_id.
Qed.

Lemma parameter_alloc_eval :
  parameter_alloc t y var alpha tau0 tau1 (Z.of_nat m) kernelType =
  Some {| p_K := kernel_matrix kernelType t tau n m;
          p_y := y;
          p_t := t;
          p_tau := vec tau;
          p_w := vec (noise_weights var n);
          p_c := vec (quadrature tau0 tau1 m);
          p_alpha := alpha |}.
Proof.
  unfold parameter_alloc.
  assert (St : vsize t = Z.of_nat n) by (unfold vsize; rewrite Lt; reflexivity).
  rewrite St.
  rewrite (@matrix_alloc_at _ _ n m) by (auto; lia). cbn [bind].
  rewrite (@alloc_at (Z.of_nat n) n) by (auto; lia). cbn [bind].
  rewrite (@alloc_at (Z.of_nat m) m) by (auto; lia). cbn [bind].
  rewrite memcpy_at by (rewrite repeat_length; lia). cbn [bind].
  rewrite memcpy_at by (rewrite repeat_length; lia). cbn [bind].
  (* the grid *)
  rewrite (@for_range_fill
             (fun j => (tau0 + of_int (Z.of_nat j) * dtau_of tau0 tau1 m)%dbl) m);
    [| reflexivity | rewrite repeat_length; lia |].
  2:{ intros j u Hj Lu. rewrite repeat_length in Lu.
      rewrite (@set_at u _ j) by (auto; lia). reflexivity. }
  cbn [bind]. rewrite fill_all_upto by apply repeat_length.
  change (map _ (seq 0 m)) with tau.
  (* the kernel and the noise weights *)
  match goal with
  | |- bind (for_range _ _ ?body ?s) _ = _ =>
      destruct (@for_range_steps _
                  (fun st : gsl_matrix D * gsl_vector D =>
                     (length (fst st) = n /\
                      forall i', (i' < n)%nat -> length (nth i' (fst st) []) = m) /\
                     length (snd st) = n)
                  (fun i st => ((row_written kernelType t tau m) i (fst st),
                                list_update (snd st) i
                                  (Some (of_int 1 / vget var i)%dbl)))
                  n 0%Z (Z.of_nat n) body s)
        as [E L]; [lia | | | ]
  end.
  { cbn [fst snd]. rewrite !repeat_length. repeat split.
    intros i' Hi'. rewrite nth_repeat_lt by exact Hi'. apply repeat_length. }
  { intros i st Hi [[L1 L2] L3]. rewrite Z.add_0_l.
    rewrite kernel_row_loop by auto. cbn [bind].
    rewrite (@get_at var _ i) by
      (auto; try lia; apply (@written_firstn_nth var n i); auto; lia).
    cbn [bind].
    rewrite (@set_at (snd st) _ i) by (auto; lia). cbn [bind fst snd].
    split; [reflexivity|].
    rewrite list_update_length. split; [|exact L3].
    apply row_written_rows; auto. }
  rewrite E. cbn [bind]. clear E L.
  match goal with
  | |- context [steps ?F n ?s] =>
      assert (SP : steps F n s =
                   (steps (row_written kernelType t tau m) n (repeat (repeat None m) n),
                    fill 0 (fun i => (of_int 1 / vget var i)%dbl) n (repeat None n)))
        by (apply (steps_pair (row_written kernelType t tau m)
                     (fun i (w : gsl_vector D) =>
                        list_update w i (Some (of_int 1 / vget var i)%dbl))));
      rewrite SP; clear SP
  end.
  cbn [fst snd].
  rewrite kernel_rows_written by reflexivity.
  rewrite fill_all_upto by apply repeat_length.
  (* the quadrature weights *)
  rewrite (@for_range_fill
             (fun j => if (j =? 0)%nat || (j =? m - 1)%nat
                       then (dhalf * dtau_of tau0 tau1 m)%dbl
                       else dtau_of tau0 tau1 m) m);
    [| reflexivity | rewrite repeat_length; lia |].
  2:{ intros j u Hj Lu. rewrite repeat_length in Lu.
      replace (Z.of_nat j =? 0)%Z with (j =? 0)%nat.
      2:{ destruct (Nat.eqb_spec j 0); symmetry;
            [apply Z.eqb_eq | apply Z.eqb_neq]; lia. }
      replace (Z.of_nat j =? Z.of_nat m - 1)%Z with (j =? m - 1)%nat.
      2:{ destruct (Nat.eqb_spec j (m - 1)); symmetry;
            [apply Z.eqb_eq | apply Z.eqb_neq]; lia. }
      destruct ((j =? 0)%nat || (j =? m - 1)%nat);
        rewrite (@set_at u _ j) by (auto; lia); reflexivity. }
  cbn [bind]. rewrite fill_all_upto by apply repeat_length.
  reflexivity.
Qed.

End Builder.

(** ** The inversion driver in closed form *)

Lemma set_all_repeat (d : D) (k : nat) :
  gsl_vector_set_all (repeat None k) d = vec (repeat d k).
Proof.
  unfold gsl_vector_set_all, vec. induction k as [|k IH]; simpl; auto.
  rewrite IH. reflexivity.
Qed.

Lemma start_point (m : nat) :
  list_update (vec (repeat (of_int 1) (m + 1))) m (Some (of_int 0))
  = default_start m.
Proof.
  unfold default_start, vec. induction m as [|m IH]; simpl; auto.
  simpl in IH. rewrite IH. reflexivity.
Qed.

Section Driver.

Variables (o : ool_conmin D) (p : parameter D) (s g : gsl_vector D) (m : nat).
Hypothesis Lg : length g = m.
Hypothesis Ls : length s = length (p_tau p).
Hypothesis Lx : length (final_point o p m) = (m + 1)%nat.
Hypothesis Wx : written (final_point o p m) = true.

Lemma contin_eval : contin o p s g = Some (contin_outcome o p m).
Proof.
  unfold contin.
  assert (Sg : vsize g = Z.of_nat m) by (unfold vsize; rewrite Lg; reflexivity).
  rewrite Sg.
  rewrite (@alloc_at (Z.of_nat m + 1) (m + 1)) by lia. cbn [bind].
  rewrite !set_all_repeat.
  assert (SX : size_t_sub (vsize (vec (repeat (of_int 1) (m + 1)))) 1 = Z.of_nat m).
  { unfold vsize. rewrite vec_length, repeat_length.
    rewrite size_t_sub_small; lia. }
  rewrite SX.
  rewrite (@set_at _ (Z.of_nat m) m) by (rewrite ?vec_length, ?repeat_length; lia).
  cbn [bind]. rewrite start_point.
  change (iteration_loop o (Z.to_nat 100000) 100000 0 (OOL_CONTINUE o) _)
    with (contin_run o p m).
  unfold contin_outcome, final_point, final_status, final_count in *.
  destruct (contin_run o p m) as [[ii status] M]. cbn [fst snd] in *.
  rewrite memcpy_at by exact Ls. cbn [bind].
  rewrite (@for_range_fill (vget (M_x o M)) m); [| reflexivity | lia |].
  2:{ intros i u Hi Lu. rewrite get_written by (auto; lia). cbn [bind].
      apply set_at; [reflexivity | lia]. }
  cbn [bind]. rewrite get_written by (auto; lia). cbn [bind].
  rewrite fill_all_upto by exact Lg. reflexivity.
Qed.

End Driver.

(** The loop of [contin] leaves either because the optimizer's status is
    no longer [OOL_CONTINUE] or because [nmax] iterations are done; its
    status is the last answer of [ool_conmin_is_optimal]. *)
Lemma iteration_loop_exit (o : ool_conmin D) (fuel : nat) (nmax ii status : Z)
    (M : ool_conmin_minimizer o) :
  (nmax - ii <= Z.of_nat fuel)%Z -> (ii <= nmax)%Z ->
  let r := iteration_loop o fuel nmax ii status M in
  (ii <= fst (fst r) <= nmax)%Z /\
  (snd (fst r) <> OOL_CONTINUE o \/ fst (fst r) = nmax) /\
  (snd (fst r) = status /\ fst (fst r) = ii /\ snd r = M \/
   snd (fst r) = ool_conmin_is_optimal o (snd r) /\ (ii < fst (fst r))%Z).
Proof.
  revert ii status M. induction fuel as [|fuel IH]; intros ii status M Hf Hi.
  - cbn [iteration_loop fst snd]. cbv zeta. cbn [fst snd].
    split; [lia|]. split; [right; lia|]. left. auto.
  - cbn [iteration_loop].
    destruct (ii <? nmax)%Z eqn:E1; cbn [andb].
    + destruct (status =? OOL_CONTINUE o)%Z eqn:E2.
      * apply Z.ltb_lt in E1.
        specialize (IH (ii + 1)%Z
                      (ool_conmin_is_optimal o (ool_conmin_minimizer_iterate o M))
                      (ool_conmin_minimizer_iterate o M)
                      ltac:(lia) ltac:(lia)).
        cbv zeta in IH |- *.
        destruct IH as (B & X & [(S1 & S2 & S3) | (S1 & S2)]).
        -- split; [lia|]. split; [exact X|]. right. split; [|lia].
           rewrite S1, S3. reflexivity.
        -- split; [lia|]. split; [exact X|]. right. split; [exact S1 | lia].
      * apply Z.eqb_neq in E2. cbv zeta. cbn [fst snd].
        split; [lia|]. split; [left; exact E2|]. left. auto.
    + apply Z.ltb_ge in E1. cbv zeta. cbn [fst snd].
      split; [lia|]. split; [right; lia|]. left. auto.
Qed.

(** The final minimizer is the initial one after some iterations. *)
Lemma iteration_loop_iterates (o : ool_conmin D) (fuel : nat) (nmax ii status : Z)
    (M : ool_conmin_minimizer o) :
  exists k : nat,
    snd (iteration_loop o fuel nmax ii status M)
    = Nat.iter k (ool_conmin_minimizer_iterate o) M.
Proof.
  revert ii status M. induction fuel as [|fuel IH]; intros ii status M.
  - exists 0%nat. reflexivity.
  - cbn [iteration_loop].
    destruct ((ii <? nmax)%Z && (status =? OOL_CONTINUE o)%Z).
    + destruct (IH (ii + 1)%Z
                  (ool_conmin_is_optimal o (ool_conmin_minimizer_iterate o M))
                  (ool_conmin_minimizer_iterate o M)) as [k Hk].
      exists (Datatypes.S k). cbv zeta. rewrite Hk.
      rewrite Nat.iter_succ_r. reflexivity.
    + exists 0%nat. reflexivity.
Qed.

(** * Properties that hold for every arithmetic *)

(** ** [diff2] reads the first [m] cells only *)

Lemma for_iter_ext {S : Type} (k : nat) (lo : Z) (body body' : Z -> S -> option S) (s : S) :
  (forall i s, (lo <= i < lo + Z.of_nat k)%Z -> body i s = body' i s) ->
  for_iter k lo body s = for_iter k lo body' s.
Proof.
  revert lo s; induction k as [|k IH]; intros lo s H; [reflexivity|].
  cbn [for_iter]. rewrite H by lia.
  destruct (body' lo s) as [s1|]; cbn [bind]; [|reflexivity].
  apply IH. intros i s2 Hi. apply H. lia.
Qed.

Lemma for_iter_invariant {S : Type} (I : S -> Prop) (k : nat) (lo : Z)
    (body : Z -> S -> option S) (s s' : S) :
  (forall i s s', I s -> body i s = Some s' -> I s') ->
  I s -> for_iter k lo body s = Some s' -> I s'.
Proof.
  intros H. revert lo s; induction k as [|k IH]; intros lo s Hs E.
  - simpl in E. inversion E; subst; exact Hs.
  - cbn [for_iter] in E. destruct (body lo s) as [s1|] eqn:E1; cbn [bind] in E;
      [|discriminate].
    eapply IH; [|exact E]. eapply H; eauto.
Qed.

Lemma set_length v (i : Z) (d : D) v' :
  gsl_vector_set v i d = Some v' -> length v' = length v.
Proof.
  unfold gsl_vector_set. destruct ((0 <=? i)%Z && (i <? vsize v)%Z); [|discriminate].
  intros E. inversion E. apply list_update_length.
Qed.

Lemma get_firstn (m : nat) x x' (i : Z) :
  firstn m x = firstn m x' -> (0 <= i < Z.of_nat m)%Z ->
  gsl_vector_get x i = gsl_vector_get x' i.
Proof.
  intros E Hi.
  assert (G : forall u : gsl_vector D,
             gsl_vector_get u i
             = match nth_error (firstn m u) (Z.to_nat i) with
               | Some c => c
               | None => None
               end).
  { intros u. unfold gsl_vector_get, vsize.
    replace (0 <=? i)%Z with true by (symmetry; apply Z.leb_le; lia).
    cbn [andb]. rewrite nth_error_firstn.
    replace (Z.to_nat i <? m)%nat with true by (symmetry; apply Nat.ltb_lt; lia).
    destruct (i <? Z.of_nat (length u))%Z eqn:E1.
    - apply Z.ltb_lt in E1.
      rewrite (nth_error_nth' u None) by lia. reflexivity.
    - apply Z.ltb_ge in E1.
      replace (nth_error u (Z.to_nat i)) with (@None (option D)); [reflexivity|].
      symmetry. apply nth_error_None. lia. }
  rewrite (G x), (G x'), E. reflexivity.
Qed.

Lemma diff2_first_entries (m : nat) x x' (ddg : gsl_vector D) :
  (2 <= m)%nat -> length ddg = m -> firstn m x = firstn m x' ->
  diff2 x ddg = diff2 x' ddg.
Proof.
  intros Hm Ld E. unfold diff2.
  assert (S1 : size_t_sub (vsize ddg) 1 = Z.of_nat (m - 1))
    by (unfold vsize; rewrite Ld, size_t_sub_small; lia).
  rewrite S1. unfold for_range.
  replace (Z.to_nat (Z.of_nat (m - 1) - 1)) with (m - 2)%nat by lia.
  rewrite (@for_iter_ext _ (m - 2) 1%Z _
             (fun i ddg =>
                xm <- gsl_vector_get x' (i - 1) ;;
                xi <- gsl_vector_get x' i ;;
                xp <- gsl_vector_get x' (i + 1) ;;
                gsl_vector_set ddg i (xm - of_int 2 * xi + xp)%dbl)).
  2:{ intros i u Hi.
      rewrite (@get_firstn m x x' (i - 1)), (@get_firstn m x x' i),
        (@get_firstn m x x' (i + 1)) by (auto; lia).
      reflexivity. }
  destruct (for_iter (m - 2) 1 _ ddg) as [d1|] eqn:E1; cbn [bind]; [|reflexivity].
  assert (L1 : length d1 = m).
  { revert E1.
    apply (@for_iter_invariant _ (fun u : gsl_vector D => length u = m));
      [|exact Ld].
    intros i u u' Lu Hb. cbv beta in Hb.
    destruct (gsl_vector_get x' (i - 1)); cbn [bind] in Hb; [|discriminate].
    destruct (gsl_vector_get x' i); cbn [bind] in Hb; [|discriminate].
    destruct (gsl_vector_get x' (i + 1)); cbn [bind] in Hb; [|discriminate].
    apply set_length in Hb. lia. }
  rewrite (@get_firstn m x x' 0), (@get_firstn m x x' 1) by (auto; lia).
  destruct (gsl_vector_get x' 0) as [x0|]; cbn [bind]; [|reflexivity].
  destruct (gsl_vector_get x' 1) as [x1|]; cbn [bind]; [|reflexivity].
  destruct (gsl_vector_set d1 0 _) as [d2|] eqn:E2; cbn [bind]; [|reflexivity].
  apply set_length in E2.
  assert (S2 : size_t_sub (vsize d2) 2 = Z.of_nat (m - 2))
    by (unfold vsize; rewrite E2, L1, size_t_sub_small; lia).
  assert (S3 : size_t_sub (vsize d2) 1 = Z.of_nat (m - 1))
    by (unfold vsize; rewrite E2, L1, size_t_sub_small; lia).
  rewrite S2, S3.
  rewrite (@get_firstn m x x' (Z.of_nat (m - 2))),
    (@get_firstn m x x' (Z.of_nat (m - 1))) by (auto; lia).
  reflexivity.
Qed.

(** Below two cells the call has no result: with one cell the right
    boundary reads [x] at the index [ddg->size - 2], which has wrapped
    around; with none the loop bound [ddg->size - 1] has wrapped around and
    the first iteration writes outside [ddg]. *)
Lemma diff2_one_cell (x ddg : gsl_vector D) :
  length ddg = 1%nat -> (Z.of_nat (length x) < 2 ^ 64 - 1)%Z ->
  diff2 x ddg = None.
Proof.
  intros Ld Lx. unfold diff2.
  assert (S1 : size_t_sub (vsize ddg) 1 = 0%Z)
    by (unfold vsize; rewrite Ld; reflexivity).
  rewrite S1. unfold for_range. cbn [Z.sub Z.opp Z.add Z.to_nat for_iter bind].
  destruct (gsl_vector_get x 0) as [x0|]; cbn [bind]; [|reflexivity].
  destruct (gsl_vector_get x 1) as [x1|]; cbn [bind]; [|reflexivity].
  destruct (gsl_vector_set ddg 0 _) as [d|] eqn:E; cbn [bind]; [|reflexivity].
  apply set_length in E.
  assert (S2 : size_t_sub (vsize d) 2 = (2 ^ 64 - 1)%Z)
    by (unfold vsize; rewrite E, Ld; reflexivity).
  rewrite S2. unfold gsl_vector_get at 1, vsize.
  replace (2 ^ 64 - 1 <? Z.of_nat (length x))%Z with false
    by (symmetry; apply Z.ltb_ge; lia).
  rewrite andb_false_r. reflexivity.
Qed.

Lemma diff2_no_cell (x : gsl_vector D) : diff2 x [] = None.
Proof.
  unfold diff2, for_range.
  change (size_t_sub (vsize []) 1) with (2 ^ 64 - 1)%Z.
  destruct (Z.to_nat (2 ^ 64 - 1 - 1)) as [|k] eqn:E; [lia|].
  cbn [for_iter].
  destruct (gsl_vector_get x (1 - 1)); cbn [bind]; [|reflexivity].
  destruct (gsl_vector_get x 1); cbn [bind]; [|reflexivity].
  destruct (gsl_vector_get x (1 + 1)); cbn [bind]; reflexivity.
Qed.

(** The differences of [(g, b)] are those of [g]. *)
Lemma D2_of_amplitudes (g : list D) (b : D) (m : nat) :
  (2 <= m)%nat -> length g = m -> D2 (vec (g ++ [b])) m = D2 (vec g) m.
Proof.
  intros Hm Lg. unfold D2. apply map_ext_in. intros i Hi. apply in_seq in Hi.
  assert (V : forall k, (k < m)%nat -> vget (vec (g ++ [b])) k = vget (vec g) k).
  { intros k Hk. rewrite !vget_vec. apply app_nth1. lia. }
  unfold D2_entry.
  destruct (i =? 0)%nat; [rewrite !V by lia; reflexivity|].
  destruct (i =? m - 1)%nat eqn:E1; [rewrite !V by lia; reflexivity|].
  apply Nat.eqb_neq in E1. rewrite !V by lia. reflexivity.
Qed.

Lemma nth_gradient_of (p : parameter D) (n m : nat) (z : nat -> D)
    (d4g : gsl_vector D) (j : nat) :
  (j < m)%nat ->
  nth j (gradient_of p n m z d4g) (of_int 0) = gradient_entry p n z d4g j.
Proof.
  intros Hj. unfold gradient_of.
  rewrite app_nth1 by (rewrite length_map, length_seq; exact Hj).
  rewrite (nth_indep _ (of_int 0) (gradient_entry p n z d4g 0%nat))
    by (rewrite length_map, length_seq; exact Hj).
  rewrite (map_nth (gradient_entry p n z d4g) (seq 0 m) 0%nat j).
  rewrite seq_nth by exact Hj. reflexivity.
Qed.

Lemma nth_Hv_entry (p : parameter D) (n m : nat) (v : gsl_vector D) (i : nat) :
  (i < m)%nat -> nth i (Hv_code p n m v) (of_int 0) = Hv_entry p n m v i.
Proof.
  intros Hi. unfold Hv_code.
  rewrite app_nth1 by (rewrite length_map, length_seq; exact Hi).
  rewrite (nth_indep _ (of_int 0) (Hv_entry p n m v 0%nat))
    by (rewrite length_map, length_seq; exact Hi).
  rewrite (map_nth (Hv_entry p n m v) (seq 0 m) 0%nat i).
  rewrite seq_nth by exact Hi. reflexivity.
Qed.

(** C10.  For an output of [m >= 2] cells, [diff2] depends on the first [m]
    cells of its input only: inputs that agree on the cells [0..m-1] give
    the same output.  Hence [fun], [fun_df] and [fun_Hv], which hand the
    full vector [(g, b)] of [m + 1] cells to [diff2] with an output of [m]
    cells, work with the differences [d2] and [d4] of the amplitudes [g]
    alone: the value of [fun] is the data term plus
    [alpha * alpha * Sum_i d2_i^2], entry [j < m] of the gradient of
    [fun_df] is its data term plus [2 * alpha * alpha * d4_j], and entry
    [i < m] of the product of [fun_Hv] with the direction [(g, b)] is its
    data term plus [d4_i], with the same [d2] and [d4] for every offset
    [b]; the offset enters the data terms only. *)
Theorem diff2_ignores_offset (m : nat) (ddg : gsl_vector D) :
  (2 <= m)%nat -> length ddg = m ->
  (forall x x' : gsl_vector D,
     firstn m x = firstn m x' -> diff2 x ddg = diff2 x' ddg) /\
  (forall (g : gsl_vector D) (b b' : option D),
     length g = m ->
     diff2 (g ++ [b]) ddg = diff2 (g ++ [b']) ddg /\
     D2 (g ++ [b]) m = D2 (g ++ [b']) m /\
     sum_from (of_int 0) (fun i => sqr (vget (vec (D2 (g ++ [b]) m)) i)) m
     = sum_from (of_int 0) (fun i => sqr (vget (vec (D2 (g ++ [b']) m)) i)) m) /\
  (forall (n : nat) (p : parameter D) (g : list D),
     valid_parameter n m p -> (1 <= n)%nat -> length g = m ->
     exists d2 d4 : list D,
       diff2 (vec g) ddg = Some (vec d2) /\
       diff2 (vec d2) ddg = Some (vec d4) /\
       forall b : D,
         diff2 (vec (g ++ [b])) ddg = Some (vec d2) /\
         fun_ (vec (g ++ [b])) p
         = Some (sum_from (of_int 0)
                   (fun i => vget (p_w p) i
                             * sqr (vget (p_y p) i - predicted (vec (g ++ [b])) p m i)) n
                 + p_alpha p * p_alpha p
                   * sum_from (of_int 0) (fun i => sqr (vget (vec d2) i)) m)%dbl /\
         (forall grad : gsl_vector D,
            length grad = (m + 1)%nat ->
            exists gr : list D,
              fun_df (vec (g ++ [b])) p grad = Some (vec gr) /\
              forall j, (j < m)%nat ->
                nth j gr (of_int 0)
                = (sum_from (of_int 0)
                     (fun i => of_int 2 * vget (p_w p) i
                               * (predicted (vec (g ++ [b])) p m i - vget (p_y p) i)
                               * vget (p_c p) j * mget (p_K p) i j) n
                   + of_int 2 * p_alpha p * p_alpha p * nth j d4 (of_int 0))%dbl) /\
         (forall x hv : gsl_vector D,
            length x = (m + 1)%nat -> length hv = (m + 1)%nat ->
            exists h : list D,
              fun_Hv x p (vec (g ++ [b])) hv = Some (vec h) /\
              forall i, (i < m)%nat ->
                nth i h (of_int 0)
                = (sum_from (H2_of p n i * b)
                     (fun j => H1_of p n i j * vget (vec (g ++ [b])) j) m
                   + nth i d4 (of_int 0))%dbl)).
Proof.
  intros Hm Ld. split; [|split].
  - intros x x' E. apply diff2_first_entries with (m := m); auto.
  - intros g b b' Lg.
    assert (E : D2 (g ++ [b]) m = D2 (g ++ [b']) m).
    { unfold D2. apply map_ext_in. intros i Hi. apply in_seq in Hi.
      assert (V : forall k, (k < m)%nat -> vget (g ++ [b]) k = vget (g ++ [b']) k).
      { intros k Hk. unfold vget. rewrite !app_nth1 by lia. reflexivity. }
      unfold D2_entry.
      destruct (i =? 0)%nat; [rewrite !V by lia; reflexivity|].
      destruct (i =? m - 1)%nat eqn:E1; [rewrite !V by lia; reflexivity|].
      apply Nat.eqb_neq in E1. rewrite !V by lia. reflexivity. }
    split; [|split].
    + apply diff2_first_entries with (m := m); auto.
      rewrite !firstn_app, Lg, Nat.sub_diag. reflexivity.
    + exact E.
    + rewrite E. reflexivity.
  - intros n p g Hp Hn Lg.
    exists (D2 (vec g) m), (D2 (vec (D2 (vec g) m)) m).
    assert (W : forall l : list D, length l = m ->
                diff2 (vec l) ddg = Some (vec (D2 (vec l) m))).
    { intros l Ll. apply diff2_eval; auto.
      - rewrite vec_length. lia.
      - apply written_firstn, written_vec. }
    split; [apply W; exact Lg|].
    split; [apply W; apply D2_length|].
    intros b.
    assert (Lx : length (vec (g ++ [b])) = (m + 1)%nat)
      by (rewrite vec_length, length_app, Lg; reflexivity).
    assert (Wx : written (vec (g ++ [b])) = true) by apply written_vec.
    assert (E : D2 (vec (g ++ [b])) m = D2 (vec g) m)
      by (apply D2_of_amplitudes; auto).
    split; [|split; [|split]].
    + rewrite <- E. apply diff2_eval; auto.
      * rewrite Lx. lia.
      * apply written_firstn, Wx.
    + assert (F : fun_ (vec (g ++ [b])) p = Some (objective (vec (g ++ [b])) p n m))
        by (apply fun_eval; auto).
      rewrite F. unfold objective, objective_of. rewrite E. reflexivity.
    + intros grad Lgr. exists (gradient (vec (g ++ [b])) p n m).
      split; [apply fun_df_eval; auto|].
      intros j Hj. unfold gradient. rewrite nth_gradient_of by exact Hj.
      unfold gradient_entry.
      rewrite E, (vget_vec (D2 (vec (D2 (vec g) m)) m) j). reflexivity.
    + intros x hv Lx0 Lh. exists (Hv_code p n m (vec (g ++ [b]))).
      split; [apply fun_Hv_eval; auto|].
      intros i Hi. rewrite nth_Hv_entry by exact Hi.
      assert (B : vget (vec (g ++ [b])) m = b).
      { rewrite vget_vec, app_nth2 by lia. rewrite Lg, Nat.sub_diag. reflexivity. }
      unfold Hv_entry.
      rewrite E, (vget_vec (D2 (vec (D2 (vec g) m)) m) i), B. reflexivity.
Qed.

(** ** The combined evaluator *)

(** C5.  [fun_fdf] returns the value of [fun] and the gradient of
    [fun_df], both computed from one predicted signal. *)
Theorem fun_fdf_agrees_with_fun_and_fun_df (n m : nat) (p : parameter D)
    (x grad : gsl_vector D) :
  valid_parameter n m p -> (1 <= n)%nat -> (2 <= m)%nat ->
  length x = (m + 1)%nat -> written x = true -> length grad = (m + 1)%nat ->
  exists (f : D) (g : gsl_vector D),
    fun_fdf x p grad = Some (f, g) /\
    fun_ x p = Some f /\
    fun_df x p grad = Some g /\
    let z := predicted x p m in
    f = objective_of p n m z (vec (D2 x m)) /\
    g = vec (gradient_of p n m z (vec (D2 (vec (D2 x m)) m))).
Proof.
  intros Hp Hn Hm Lx Wx Lg.
  exists (objective x p n m), (vec (gradient x p n m)).
  split; [apply fun_fdf_eval; auto|].
  split; [apply fun_eval; auto|].
  split; [apply fun_df_eval; auto|].
  split; reflexivity.
Qed.

(** ** The discretisation builder *)

Lemma unwritten_matrix_get (n m : nat) (i j : Z) :
  gsl_matrix_get (D := D) (repeat (repeat None m) n) i j = None.
Proof.
  unfold gsl_matrix_get.
  match goal with
  | |- (if ?c then _ else _) = _ => destruct c eqn:E; [|reflexivity]
  end.
  apply andb_true_iff in E. destruct E as [E1 E2].
  apply Z.leb_le in E1. apply Z.ltb_lt in E2. rewrite repeat_length in E2.
  rewrite nth_repeat_lt by lia.
  unfold gsl_vector_get, vsize.
  match goal with
  | |- (if ?c then _ else _) = _ => destruct c eqn:E; [|reflexivity]
  end.
  apply andb_true_iff in E. destruct E as [E3 E4].
  apply Z.leb_le in E3. apply Z.ltb_lt in E4. rewrite repeat_length in E4.
  apply nth_repeat_lt. lia.
Qed.

(** C9.  With a kernel selector other than 0 and 1 the builder does not
    fail: it returns a bundle none of whose kernel cells has been written,
    the other fields being built as usual. *)
Theorem parameter_alloc_unknown_kernel (t y var : gsl_vector D)
    (alpha tau0 tau1 : D) (n m : nat) (kernelType : Z) :
  kernelType <> 0%Z -> kernelType <> 1%Z ->
  (1 <= n)%nat -> (1 <= m)%nat ->
  length t = n -> length y = n -> (n <= length var)%nat ->
  written (firstn n var) = true ->
  exists p : parameter D,
    parameter_alloc t y var alpha tau0 tau1 (Z.of_nat m) kernelType = Some p /\
    p_K p = repeat (repeat None m) n /\
    (forall i j : Z, gsl_matrix_get (p_K p) i j = None) /\
    p_y p = y /\ p_t p = t /\
    p_tau p = vec (tau_grid tau0 tau1 m) /\
    p_w p = vec (noise_weights var n) /\
    p_c p = vec (quadrature tau0 tau1 m) /\
    p_alpha p = alpha.
Proof.
  intros K0 K1 Hn Hm Lt Ly Lv Wv.
  eexists. split.
  - apply parameter_alloc_eval with (n := n); auto.
    intros [E|E]; contradiction.
  - cbn [p_K p_y p_t p_tau p_w p_c p_alpha]. unfold kernel_matrix.
    apply Z.eqb_neq in K0, K1. rewrite K0, K1.
    repeat split. intros i j. apply unwritten_matrix_get.
Qed.


(** ** The inversion driver *)

Lemma contin_status (o : ool_conmin D) (p : parameter D) (m : nat) :
  final_status o p m = ool_conmin_is_optimal o (snd (contin_run o p m)) /\
  (final_status o p m <> OOL_CONTINUE o \/ final_count o p m = 100000%Z).
Proof.
  unfold final_status, final_count, contin_run.
  pose proof (@iteration_loop_exit o (Z.to_nat 100000) 100000 0 (OOL_CONTINUE o)
                (contin_minimizer o p m) ltac:(lia) ltac:(lia)) as H.
  cbv zeta in H. destruct H as (B & X & [(S1 & S2 & S3) | (S1 & S2)]).
  - exfalso. destruct X as [X|X]; [apply X; exact S1 | lia].
  - split; [exact S1 | exact X].
Qed.

(** C4, as the program has it.  [contin] returns [OOL_SUCCESS] whatever
    the optimizer's last status is; that status, the last answer of
    [ool_conmin_is_optimal], only selects the line printed.  The loop ends
    on a status other than [OOL_CONTINUE] or after 100000 iterations, and
    in both cases the optimizer's final point is copied into [g] and [b]
    and the grid into [s]. *)
Theorem contin_returns_success (o : ool_conmin D) (p : parameter D)
    (s g : gsl_vector D) (m : nat) :
  length g = m -> length s = length (p_tau p) ->
  length (final_point o p m) = (m + 1)%nat ->
  written (final_point o p m) = true ->
  exists r : contin_result D,
    contin o p s g = Some r /\
    r_return r = OOL_SUCCESS o /\
    final_status o p m = ool_conmin_is_optimal o (snd (contin_run o p m)) /\
    (final_status o p m <> OOL_CONTINUE o \/ final_count o p m = 100000%Z) /\
    r_stdout r = (if (final_status o p m =? OOL_SUCCESS o)%Z
                  then Convergence_in_iterations (final_count o p m)
                  else Stopped_with_iterations (final_count o p m)) /\
    r_s r = p_tau p /\
    r_g r = vec (map (vget (final_point o p m)) (seq 0 m)) /\
    r_b r = vget (final_point o p m) m.
Proof.
  intros Lg Ls Lx Wx. exists (contin_outcome o p m).
  split; [apply contin_eval; auto|].
  destruct (contin_status o p m) as [S1 S2].
  repeat split; auto.
Qed.
End Evaluation.

(** * Exact arithmetic: sums *)

Local Open Scope R_scope.

(** Reading the operations of [R_ops] as those of [R]. *)
Ltac real_ops :=
  unfold sqr in *;
  cbn [of_int dhalf dM_1_PI dadd dsub dmul ddiv dneg dexp R_ops] in *.

Lemma sum_from_big_sum (a : R) (f : nat -> R) (n : nat) :
  sum_from a f n = a + big_sum f n.
Proof.
  unfold sum_from. induction n as [|n IH]; cbn [steps big_sum].
  - ring.
  - rewrite IH. real_ops. ring.
Qed.

Lemma big_sum_ext (f g : nat -> R) (n : nat) :
  (forall i, (i < n)%nat -> f i = g i) -> big_sum f n = big_sum g n.
Proof.
  induction n as [|n IH]; intros H; simpl; auto.
  rewrite IH by (intros; apply H; lia). rewrite H by lia. reflexivity.
Qed.

Lemma big_sum_scale (c : R) (f : nat -> R) (n : nat) :
  big_sum (fun i => c * f i) n = c * big_sum f n.
Proof.
  induction n as [|n IH]; simpl; [ring|]. rewrite IH. ring.
Qed.

Lemma big_sum_plus (f g : nat -> R) (n : nat) :
  big_sum (fun i => f i + g i) n = big_sum f n + big_sum g n.
Proof.
  induction n as [|n IH]; simpl; [ring|]. rewrite IH. ring.
Qed.

Lemma big_sum_minus (f g : nat -> R) (n : nat) :
  big_sum (fun i => f i - g i) n = big_sum f n - big_sum g n.
Proof.
  induction n as [|n IH]; simpl; [ring|]. rewrite IH. ring.
Qed.

Lemma big_sum_zero (n : nat) : big_sum (fun _ => 0) n = 0.
Proof. induction n as [|n IH]; simpl; [ring|]. rewrite IH. ring. Qed.

Lemma big_sum_swap (f : nat -> nat -> R) (n m : nat) :
  big_sum (fun i => big_sum (fun j => f i j) m) n
  = big_sum (fun j => big_sum (fun i => f i j) n) m.
Proof.
  induction n as [|n IH]; simpl.
  - symmetry. apply big_sum_zero.
  - rewrite IH. rewrite <- big_sum_plus. reflexivity.
Qed.

(** * Exact arithmetic: the regularisation operator *)

Lemma written_firstn_intro (m : nat) (x : gsl_vector R) :
  (m <= length x)%nat ->
  (forall i, (i < m)%nat -> nth i x None <> None) ->
  written (firstn m x) = true.
Proof.
  intros L H. unfold written. apply forallb_forall. intros c Hc.
  destruct (In_nth _ _ None Hc) as (i & Hi & E).
  rewrite length_firstn in Hi. rewrite nth_firstn in E.
  replace (i <? m)%nat with true in E by (symmetry; apply Nat.ltb_lt; lia).
  specialize (H i ltac:(lia)). rewrite E in H.
  destruct c; [reflexivity | contradiction].
Qed.

Lemma nth_D2 (x : gsl_vector R) (m i : nat) :
  (i < m)%nat -> nth i (D2 x m) 0 = D2_entry x m i.
Proof.
  intros Hi. unfold D2.
  rewrite (nth_indep _ 0 (D2_entry x m 0)) by (rewrite length_map, length_seq; exact Hi).
  rewrite (map_nth (D2_entry x m) (seq 0 m) 0%nat i).
  rewrite seq_nth by exact Hi. reflexivity.
Qed.

(** C8.  On a linear sequence [x_i = a + b i] the operator gives zero at
    every interior index, and its two boundary entries are the one-sided
    formulas. *)
Theorem diff2_of_linear_sequence (m : nat) (a b : R) (x ddg : gsl_vector R) :
  (2 <= m)%nat -> length ddg = m -> (m <= length x)%nat ->
  (forall i, (i < m)%nat -> nth i x None = Some (a + b * INR i)) ->
  exists d : list R,
    diff2 x ddg = Some (vec d) /\ length d = m /\
    (forall i, (1 <= i <= m - 2)%nat -> nth i d 0 = 0) /\
    nth 0 d 0 = -2 * vget x 0 + vget x 1 /\
    nth (m - 1) d 0 = vget x (m - 2) - 2 * vget x (m - 1).
Proof.
  intros Hm Ld Lx Hx. exists (D2 x m).
  split; [|split; [|split; [|split]]].
  - apply diff2_eval; auto. apply written_firstn_intro; auto.
    intros i Hi. rewrite Hx by exact Hi. discriminate.
  - apply D2_length.
  - intros i Hi. rewrite nth_D2 by lia. unfold D2_entry.
    replace (i =? 0)%nat with false by (symmetry; apply Nat.eqb_neq; lia).
    replace (i =? m - 1)%nat with false by (symmetry; apply Nat.eqb_neq; lia).
    unfold vget. rewrite !Hx by lia. cbn [cell_val]. real_ops.
    rewrite minus_INR, plus_INR by lia. simpl INR. ring.
  - rewrite nth_D2 by lia. unfold D2_entry. cbn [Nat.eqb]. real_ops. reflexivity.
  - rewrite nth_D2 by lia. unfold D2_entry.
    replace (m - 1 =? 0)%nat with false by (symmetry; apply Nat.eqb_neq; lia).
    rewrite Nat.eqb_refl. real_ops. reflexivity.
Qed.

(** * Exact arithmetic: the quadrature weights *)

Lemma nth_quadrature (tau0 tau1 : R) (m j : nat) :
  (j < m)%nat ->
  nth j (quadrature tau0 tau1 m) 0
  = if (j =? 0)%nat || (j =? m - 1)%nat
    then / 2 * dtau_of tau0 tau1 m else dtau_of tau0 tau1 m.
Proof.
  intros Hj. unfold quadrature.
  set (f := fun j : nat => if (j =? 0)%nat || (j =? m - 1)%nat
                           then (dhalf * dtau_of tau0 tau1 m)%dbl
                           else dtau_of tau0 tau1 m).
  rewrite (nth_indep _ 0 (f 0%nat)) by (rewrite length_map, length_seq; exact Hj).
  rewrite (map_nth f (seq 0 m) 0%nat j). rewrite seq_nth by exact Hj.
  reflexivity.
Qed.

Lemma quadrature_partial_sum (tau0 tau1 : R) (m k : nat) :
  (1 <= k <= m - 1)%nat ->
  big_sum (fun j => nth j (quadrature tau0 tau1 m) 0) k
  = (INR k - / 2) * dtau_of tau0 tau1 m.
Proof.
  induction k as [|k IH]; intros Hk; [lia|].
  cbn [big_sum]. rewrite nth_quadrature by lia.
  destruct k as [|k].
  - simpl. lra.
  - rewrite IH by lia.
    replace (Datatypes.S k =? 0)%nat with false by reflexivity.
    replace (Datatypes.S k =? m - 1)%nat with false by (symmetry; apply Nat.eqb_neq; lia).
    cbn [orb]. rewrite (S_INR (Datatypes.S k)). ring.
Qed.

Lemma quadrature_sum (tau0 tau1 : R) (m : nat) :
  (2 <= m)%nat ->
  big_sum (fun j => nth j (quadrature tau0 tau1 m) 0) m = tau1 - tau0.
Proof.
  intros Hm. destruct m as [|m]; [lia|].
  cbn [big_sum]. rewrite quadrature_partial_sum by lia.
  rewrite nth_quadrature by lia.
  replace (m =? Datatypes.S m - 1)%nat with true by (symmetry; apply Nat.eqb_eq; lia).
  rewrite orb_true_r. unfold dtau_of. real_ops.
  replace (Z.of_nat (Datatypes.S m) - 1)%Z with (Z.of_nat m) by lia.
  rewrite <- INR_IZR_INZ.
  assert (INR m <> 0) by (apply not_0_INR; lia).
  field. assumption.
Qed.

(** C7.  The quadrature weights built by [parameter_alloc] are those of
    the trapezoidal rule, [dtau / 2] at both ends and [dtau] inside with
    [dtau = (tau1 - tau0) / (m - 1)], and they sum to [tau1 - tau0]. *)
Theorem quadrature_weights_are_trapezoidal (t y var : gsl_vector R)
    (alpha tau0 tau1 : R) (n m : nat) (kernelType : Z) :
  tau0 < tau1 -> (3 <= m)%nat ->
  (1 <= n)%nat -> length t = n -> length y = n -> (n <= length var)%nat ->
  written (firstn n var) = true ->
  (kernelType = 0%Z \/ kernelType = 1%Z -> written t = true) ->
  exists (p : parameter R) (c : list R),
    parameter_alloc t y var alpha tau0 tau1 (Z.of_nat m) kernelType = Some p /\
    p_c p = vec c /\ length c = m /\
    let dtau := (tau1 - tau0) / (INR m - 1) in
    nth 0 c 0 = dtau / 2 /\
    nth (m - 1) c 0 = dtau / 2 /\
    (forall j, (0 < j < m - 1)%nat -> nth j c 0 = dtau) /\
    big_sum (fun j => nth j c 0) m = tau1 - tau0.
Proof.
  intros _ Hm Hn Lt Ly Lv Wv Wt.
  eexists. exists (quadrature tau0 tau1 m).
  split; [apply parameter_alloc_eval with (n := n); auto; lia|].
  cbn [p_c]. split; [reflexivity|].
  split; [unfold quadrature; rewrite length_map, length_seq; reflexivity|].
  assert (Ed : dtau_of tau0 tau1 m = (tau1 - tau0) / (INR m - 1)).
  { unfold dtau_of. real_ops. rewrite minus_IZR, <- INR_IZR_INZ. reflexivity. }
  cbv zeta. rewrite <- Ed.
  split; [|split; [|split]].
  - rewrite nth_quadrature by lia. cbn [Nat.eqb orb]. field.
  - rewrite nth_quadrature by lia. rewrite Nat.eqb_refl, orb_true_r. field.
  - intros j Hj. rewrite nth_quadrature by lia.
    replace (j =? 0)%nat with false by (symmetry; apply Nat.eqb_neq; lia).
    replace (j =? m - 1)%nat with false by (symmetry; apply Nat.eqb_neq; lia).
    reflexivity.
  - apply quadrature_sum. lia.
Qed.

(** * Exact arithmetic: the gradient *)

Lemma amplitudes_length (m : nat) (x : gsl_vector R) :
  (m <= length x)%nat -> length (amplitudes m x) = m.
Proof.
  intros L. unfold amplitudes. rewrite length_map, length_firstn. lia.
Qed.

Lemma nth_amplitudes (m : nat) (x : gsl_vector R) (i : nat) :
  (i < m)%nat -> nth i (amplitudes m x) 0 = vget x i.
Proof.
  intros Hi. unfold amplitudes, vget.
  change 0 with (cell_val (@None R)).
  rewrite (map_nth cell_val (firstn m x) None i), nth_firstn.
  replace (i <? m)%nat with true by (symmetry; apply Nat.ltb_lt; lia).
  reflexivity.
Qed.

(** The cells written by [diff2] are the operator of the contract applied
    to the amplitudes. *)
Lemma D2_is_spec (m : nat) (x : gsl_vector R) :
  (2 <= m)%nat -> (m <= length x)%nat -> D2 x m = D2_spec (amplitudes m x).
Proof.
  intros Hm L. unfold D2, D2_spec. rewrite amplitudes_length by exact L.
  apply map_ext_in. intros i Hi. apply in_seq in Hi. unfold D2_entry.
  destruct (i =? 0)%nat eqn:E0.
  - rewrite !nth_amplitudes by lia. real_ops. reflexivity.
  - destruct (i =? m - 1)%nat eqn:E1.
    + rewrite !nth_amplitudes by lia. real_ops. reflexivity.
    + apply Nat.eqb_neq in E0, E1.
      rewrite !nth_amplitudes by lia. real_ops. reflexivity.
Qed.

Lemma amplitudes_vec (m : nat) (l : list R) :
  length l = m -> amplitudes m (vec l) = l.
Proof.
  intros <-. unfold amplitudes, vec. rewrite firstn_all2 by (rewrite length_map; lia).
  rewrite map_map. cbn [cell_val]. apply map_id.
Qed.

Lemma D2_spec_length (g : list R) : length (D2_spec g) = length g.
Proof. unfold D2_spec. rewrite length_map, length_seq. reflexivity. Qed.

Lemma D4_is_spec (m : nat) (x : gsl_vector R) :
  (2 <= m)%nat -> (m <= length x)%nat ->
  D2 (vec (D2 x m)) m = D2_spec (D2_spec (amplitudes m x)).
Proof.
  intros Hm L.
  rewrite (@D2_is_spec m (vec (D2 x m))) by (rewrite ?vec_length, ?D2_length; lia).
  rewrite amplitudes_vec by apply D2_length.
  rewrite D2_is_spec by auto. reflexivity.
Qed.

Lemma predicted_is_spec (p : parameter R) (m : nat) (x : gsl_vector R) (i : nat) :
  predicted x p m i = predicted_signal p m x i.
Proof. unfold predicted, predicted_signal. apply sum_from_big_sum. Qed.

Lemma nth_gradient (p : parameter R) (n m : nat) (z : nat -> R) (d4g : gsl_vector R)
    (j : nat) :
  (j < m)%nat ->
  nth j (gradient_of p n m z d4g) 0 = gradient_entry p n z d4g j.
Proof.
  intros Hj. unfold gradient_of.
  rewrite app_nth1 by (rewrite length_map, length_seq; exact Hj).
  rewrite (nth_indep _ 0 (gradient_entry p n z d4g 0))
    by (rewrite length_map, length_seq; exact Hj).
  rewrite (map_nth (gradient_entry p n z d4g) (seq 0 m) 0%nat j).
  rewrite seq_nth by exact Hj. reflexivity.
Qed.

Lemma nth_gradient_last (p : parameter R) (n m : nat) (z : nat -> R) (d4g : gsl_vector R) :
  nth m (gradient_of p n m z d4g) 0 = gradient_last p n z.
Proof.
  unfold gradient_of.
  rewrite app_nth2 by (rewrite length_map, length_seq; lia).
  rewrite length_map, length_seq, Nat.sub_diag. reflexivity.
Qed.

Lemma gradient_length (p : parameter R) (n m : nat) (z : nat -> R) (d4g : gsl_vector R) :
  length (gradient_of p n m z d4g) = (m + 1)%nat.
Proof.
  unfold gradient_of. rewrite length_app, length_map, length_seq. reflexivity.
Qed.

Lemma gradient_entry_is_analytic (p : parameter R) (n m : nat) (x : gsl_vector R)
    (j : nat) :
  (2 <= m)%nat -> (m <= length x)%nat ->
  gradient_entry p n (predicted x p m) (vec (D2 (vec (D2 x m)) m)) j
  = analytic_gradient p n m x j.
Proof.
  intros Hm L. unfold gradient_entry, analytic_gradient.
  rewrite sum_from_big_sum, vget_vec, D4_is_spec by auto.
  real_ops. rewrite <- big_sum_scale.
  rewrite (@big_sum_ext _
             (fun i => 2 * vget (p_c p) j
                       * (vget (p_w p) i * (predicted_signal p m x i - vget (p_y p) i)
                          * mget (p_K p) i j)) n).
  - ring.
  - intros i Hi. rewrite predicted_is_spec. ring.
Qed.

Lemma gradient_last_is_analytic (p : parameter R) (n m : nat) (x : gsl_vector R) :
  gradient_last p n (predicted x p m) = analytic_gradient_offset p n m x.
Proof.
  unfold gradient_last, analytic_gradient_offset.
  rewrite sum_from_big_sum. real_ops. rewrite <- big_sum_scale.
  rewrite (@big_sum_ext _
             (fun i => 2 * (vget (p_w p) i
                            * (predicted_signal p m x i - vget (p_y p) i))) n).
  - ring.
  - intros i Hi. rewrite predicted_is_spec. ring.
Qed.

(** * Exact arithmetic: the Hessian *)

Section Hessian.

Variables (p : parameter R) (n m : nat).

Lemma H3_is_spec : H3_of p n = H3 p n.
Proof.
  unfold H3_of, H3. rewrite sum_from_big_sum. real_ops.
  rewrite <- big_sum_scale. ring.
Qed.

Lemma H2_is_spec (i : nat) : H2_of p n i = H2 p n i.
Proof.
  unfold H2_of, H2. rewrite sum_from_big_sum. real_ops.
  rewrite <- big_sum_scale.
  rewrite (@big_sum_ext _
             (fun k => 2 * (vget (p_w p) k * vget (p_c p) i * mget (p_K p) k i)) n).
  - ring.
  - intros k Hk. ring.
Qed.

Lemma H1_is_spec (i j : nat) : H1_of p n i j = H1 p n i j.
Proof.
  unfold H1_of, H1. rewrite sum_from_big_sum. real_ops.
  rewrite <- big_sum_scale.
  rewrite (@big_sum_ext _
             (fun k => 2 * (vget (p_w p) k * vget (p_c p) i * mget (p_K p) k i
                            * vget (p_c p) j * mget (p_K p) k j)) n).
  - ring.
  - intros k Hk. ring.
Qed.

(** What [fun_Hv] writes, against the Hessian of [f]: the regularisation
    block comes without the factor [2 alpha^2]. *)
Lemma Hv_entry_defect (v : gsl_vector R) (i : nat) :
  (2 <= m)%nat -> (m <= length v)%nat ->
  Hv_entry p n m v i
  = hessian_vector p n m v i
    + (1 - 2 * p_alpha p ^ 2) * nth i (D2_spec (D2_spec (amplitudes m v))) 0.
Proof.
  intros Hm L. unfold Hv_entry, hessian_vector.
  rewrite sum_from_big_sum, vget_vec, D4_is_spec, H2_is_spec by auto.
  rewrite (@big_sum_ext _ (fun j => H1 p n i j * vget v j) m)
    by (intros j Hj; rewrite H1_is_spec; reflexivity).
  real_ops. ring.
Qed.

Lemma Hv_last_is_spec (v : gsl_vector R) :
  Hv_last p n m v = hessian_vector_offset p n m v.
Proof.
  unfold Hv_last, hessian_vector_offset.
  rewrite sum_from_big_sum, H3_is_spec.
  rewrite (@big_sum_ext _ (fun i => H2 p n i * vget v i) m)
    by (intros i Hi; rewrite H2_is_spec; reflexivity).
  real_ops. ring.
Qed.

End Hessian.

(** ** The gradient is affine, and its linear part is the Hessian *)

Lemma vadd_length (x v : gsl_vector R) : length (vadd x v) = length x.
Proof. unfold vadd. rewrite vec_length, length_map, length_seq. reflexivity. Qed.

Lemma vget_vadd (x v : gsl_vector R) (i : nat) :
  (i < length x)%nat -> vget (vadd x v) i = vget x i + vget v i.
Proof.
  intros Hi. unfold vadd. rewrite vget_vec_map_seq by exact Hi. reflexivity.
Qed.

Lemma nth_D2_spec (g : list R) (i : nat) :
  (i < length g)%nat ->
  nth i (D2_spec g) 0
  = if (i =? 0)%nat then -2 * nth 0 g 0 + nth 1 g 0
    else if (i =? length g - 1)%nat
         then nth (length g - 2) g 0 - 2 * nth (length g - 1) g 0
         else nth (i - 1) g 0 - 2 * nth i g 0 + nth (i + 1) g 0.
Proof.
  intros Hi. unfold D2_spec.
  set (f := fun i : nat => if (i =? 0)%nat then _ else _).
  rewrite (nth_indep _ 0 (f 0%nat)) by (rewrite length_map, length_seq; exact Hi).
  rewrite (map_nth f (seq 0 (length g)) 0%nat i). rewrite seq_nth by exact Hi.
  reflexivity.
Qed.

(** The operator is linear. *)
Lemma D2_spec_linear (g h s : list R) (i : nat) :
  (2 <= length g)%nat -> length h = length g -> length s = length g ->
  (forall k, (k < length g)%nat -> nth k s 0 = nth k g 0 + nth k h 0) ->
  (i < length g)%nat ->
  nth i (D2_spec s) 0 = nth i (D2_spec g) 0 + nth i (D2_spec h) 0.
Proof.
  intros Hm Lh Lsg Hs Hi.
  rewrite !nth_D2_spec by lia. rewrite Lh, Lsg.
  destruct (i =? 0)%nat eqn:E0.
  - rewrite !Hs by lia. ring.
  - destruct (i =? length g - 1)%nat eqn:E1.
    + rewrite !Hs by lia. ring.
    + apply Nat.eqb_neq in E0, E1. rewrite !Hs by lia. ring.
Qed.

Lemma D4_spec_linear (g h s : list R) (i : nat) :
  (2 <= length g)%nat -> length h = length g -> length s = length g ->
  (forall k, (k < length g)%nat -> nth k s 0 = nth k g 0 + nth k h 0) ->
  (i < length g)%nat ->
  nth i (D2_spec (D2_spec s)) 0
  = nth i (D2_spec (D2_spec g)) 0 + nth i (D2_spec (D2_spec h)) 0.
Proof.
  intros Hm Lh Lsg Hs Hi.
  apply D2_spec_linear; rewrite ?D2_spec_length; auto.
  intros k Hk. apply D2_spec_linear; auto.
Qed.

Section Increment.

Variables (p : parameter R) (n m : nat) (x v : gsl_vector R).
Hypothesis Hm : (2 <= m)%nat.
Hypothesis Lx : length x = (m + 1)%nat.
Hypothesis Lv : length v = (m + 1)%nat.

Lemma predicted_signal_vadd (i : nat) :
  predicted_signal p m (vadd x v) i
  = predicted_signal p m x i + predicted_signal p m v i.
Proof.
  unfold predicted_signal. rewrite vget_vadd by lia.
  rewrite (@big_sum_ext _
             (fun j => vget (p_c p) j * mget (p_K p) i j * vget x j
                       + vget (p_c p) j * mget (p_K p) i j * vget v j) m).
  - rewrite big_sum_plus. ring.
  - intros j Hj. rewrite vget_vadd by lia. ring.
Qed.

Lemma D4_vadd (j : nat) :
  (j < m)%nat ->
  nth j (D2_spec (D2_spec (amplitudes m (vadd x v)))) 0
  = nth j (D2_spec (D2_spec (amplitudes m x))) 0
    + nth j (D2_spec (D2_spec (amplitudes m v))) 0.
Proof.
  intros Hj.
  apply D4_spec_linear;
    rewrite ?amplitudes_length by (rewrite ?vadd_length; lia); auto.
  intros k Hk. rewrite !nth_amplitudes by lia. apply vget_vadd. lia.
Qed.

(** [grad f (x + v) - grad f (x) = H v], exactly: the objective is
    quadratic. *)
Lemma gradient_increment (j : nat) :
  (j < m)%nat ->
  analytic_gradient p n m (vadd x v) j - analytic_gradient p n m x j
  = hessian_vector p n m v j.
Proof.
  intros Hj. unfold analytic_gradient, hessian_vector.
  rewrite D4_vadd by exact Hj.
  rewrite (@big_sum_ext
             (fun i => vget (p_w p) i
                       * (predicted_signal p m (vadd x v) i - vget (p_y p) i)
                       * mget (p_K p) i j)
             (fun i => vget (p_w p) i * (predicted_signal p m x i - vget (p_y p) i)
                       * mget (p_K p) i j
                       + (vget (p_w p) i * mget (p_K p) i j * vget v m
                          + big_sum (fun j' => vget (p_w p) i * mget (p_K p) i j
                                               * (vget (p_c p) j' * mget (p_K p) i j'
                                                  * vget v j')) m)) n).
  2:{ intros i Hi. rewrite predicted_signal_vadd. unfold predicted_signal at 2.
      rewrite big_sum_scale. ring. }
  rewrite !big_sum_plus. rewrite big_sum_swap.
  unfold H1, H2.
  rewrite (@big_sum_ext
             (fun j' => 2 * big_sum (fun k => vget (p_w p) k * vget (p_c p) j
                                             * mget (p_K p) k j * vget (p_c p) j'
                                             * mget (p_K p) k j') n * vget v j')
             (fun j' => 2 * vget (p_c p) j
                        * big_sum (fun i => vget (p_w p) i * mget (p_K p) i j
                                            * (vget (p_c p) j' * mget (p_K p) i j'
                                               * vget v j')) n) m).
  2:{ intros j' Hj'. rewrite <- !big_sum_scale.
      rewrite Rmult_comm, <- big_sum_scale. apply big_sum_ext. intros; ring. }
  rewrite big_sum_scale.
  rewrite (@big_sum_ext
             (fun i => vget (p_w p) i * mget (p_K p) i j * vget v m)
             (fun i => vget v m * (vget (p_w p) i * mget (p_K p) i j)) n)
    by (intros; ring).
  rewrite big_sum_scale.
  rewrite (@big_sum_ext
             (fun k => vget (p_w p) k * vget (p_c p) j * mget (p_K p) k j)
             (fun k => vget (p_c p) j * (vget (p_w p) k * mget (p_K p) k j)) n)
    by (intros; ring).
  rewrite big_sum_scale. ring.
Qed.

Lemma gradient_offset_increment :
  analytic_gradient_offset p n m (vadd x v) - analytic_gradient_offset p n m x
  = hessian_vector_offset p n m v.
Proof.
  unfold analytic_gradient_offset, hessian_vector_offset.
  rewrite (@big_sum_ext
             (fun i => vget (p_w p) i
                       * (predicted_signal p m (vadd x v) i - vget (p_y p) i))
             (fun i => vget (p_w p) i * (predicted_signal p m x i - vget (p_y p) i)
                       + (vget v m * vget (p_w p) i
                          + big_sum (fun j => vget (p_w p) i
                                              * (vget (p_c p) j * mget (p_K p) i j)
                                              * vget v j) m)) n).
  2:{ intros i Hi. rewrite predicted_signal_vadd. unfold predicted_signal at 2.
      rewrite (@big_sum_ext
                 (fun j => vget (p_w p) i * (vget (p_c p) j * mget (p_K p) i j)
                           * vget v j)
                 (fun j => vget (p_w p) i
                           * (vget (p_c p) j * mget (p_K p) i j * vget v j)) m)
        by (intros; ring).
      rewrite big_sum_scale. ring. }
  rewrite !big_sum_plus, big_sum_scale, big_sum_swap.
  unfold H2, H3.
  rewrite (@big_sum_ext
             (fun i => 2 * big_sum (fun k => vget (p_w p) k * vget (p_c p) i
                                            * mget (p_K p) k i) n * vget v i)
             (fun j => 2 * big_sum (fun i => vget (p_w p) i
                                            * (vget (p_c p) j * mget (p_K p) i j)
                                            * vget v j) n) m).
  2:{ intros j Hj. rewrite Rmult_assoc. f_equal.
      rewrite Rmult_comm, <- big_sum_scale. apply big_sum_ext. intros; ring. }
  rewrite big_sum_scale.
  change (big_sum (vget (p_w p)) n) with (big_sum (fun k => vget (p_w p) k) n).
  ring.
Qed.

End Increment.

(** What [fun_Hv] returns, against the Hessian of [f]. *)
Lemma fun_Hv_defect (p : parameter R) (n m : nat) (x v hv : gsl_vector R) :
  valid_parameter n m p -> (2 <= m)%nat ->
  length x = (m + 1)%nat -> length v = (m + 1)%nat -> written v = true ->
  length hv = (m + 1)%nat ->
  exists h : list R,
    fun_Hv x p v hv = Some (vec h) /\
    (forall i, (i < m)%nat ->
       nth i h 0
       = hessian_vector p n m v i
         + (1 - 2 * p_alpha p ^ 2) * nth i (D2_spec (D2_spec (amplitudes m v))) 0) /\
    nth m h 0 = hessian_vector_offset p n m v.
Proof.
  intros Hp Hm Lx Lv Wv Lh. exists (Hv_code p n m v).
  split; [apply fun_Hv_eval; auto|]. unfold Hv_code. split.
  - intros i Hi.
    rewrite app_nth1 by (rewrite length_map, length_seq; exact Hi).
    rewrite (nth_indep _ 0 (Hv_entry p n m v 0))
      by (rewrite length_map, length_seq; exact Hi).
    rewrite (map_nth (Hv_entry p n m v) (seq 0 m) 0%nat i).
    rewrite seq_nth by exact Hi. apply Hv_entry_defect; lia.
  - rewrite app_nth2 by (rewrite length_map, length_seq; lia).
    rewrite length_map, length_seq, Nat.sub_diag. apply Hv_last_is_spec.
Qed.

Lemma sample_bundle_valid : valid_parameter 1 3 sample_bundle.
Proof. repeat split. Qed.

(** Evaluation of the closed forms on concrete vectors. *)
Ltac run_closed_form :=
  cbv [Hv_code Hv_entry Hv_last H1_of H2_of H3_of
       gradient gradient_of gradient_entry gradient_last
       objective objective_of predicted
       sum_from steps D2 D2_entry vget mget cell_val nth seq map app vec vadd
       length sample_v sample_x sample_bundle p_w p_c p_K p_y p_alpha
       Nat.eqb Nat.sub Nat.add Init.Nat.add Init.Nat.sub
       dadd dmul dsub of_int R_ops sqr].

Ltac each_entry :=
  repeat (apply f_equal2; [try lra|]); try reflexivity.

Lemma sample_Hv_code :
  Hv_code sample_bundle 1 3 sample_v = [11 / 2; -3; 3 / 2; 1].
Proof. run_closed_form. each_entry. Qed.

Lemma sample_gradient :
  gradient sample_x sample_bundle 1 3 = [5; -2; 5; 2].
Proof. run_closed_form. each_entry. Qed.

Lemma sample_vadd : vadd sample_x sample_v = vec [2; 1; 1; 0].
Proof. run_closed_form. unfold vec. cbn [map]. repeat (apply f_equal2; [f_equal; lra|]). reflexivity. Qed.

Lemma sample_gradient_moved :
  gradient (vec [2; 1; 1; 0]) sample_bundle 1 3 = [31 / 2; -9; 15 / 2; 3].
Proof. run_closed_form. each_entry. Qed.

(** * Exact arithmetic: the bounds on the result *)

Lemma vget_repeat (a : R) (k i : nat) :
  (i < k)%nat -> vget (vec (repeat a k)) i = a.
Proof.
  intros Hi. rewrite vget_vec. apply nth_repeat_lt. exact Hi.
Qed.

Lemma default_start_within (m : nat) :
  within (C_L (default_constraint m)) (C_U (default_constraint m))
    (default_start m).
Proof.
  unfold default_constraint, default_start, within. cbn [C_L C_U].
  rewrite !vec_length, length_app, !repeat_length. cbn [length].
  split; [reflexivity|]. split; [apply written_vec|].
  intros i Hi. rewrite !vget_repeat by lia. rewrite vget_vec.
  destruct (Nat.lt_ge_cases i m) as [Hlt|Hge].
  - rewrite app_nth1 by (rewrite repeat_length; exact Hlt).
    rewrite nth_repeat_lt by exact Hlt. real_ops. lra.
  - rewrite app_nth2 by (rewrite repeat_length; exact Hge).
    rewrite repeat_length. replace (i - m)%nat with 0%nat by lia.
    cbn [nth]. real_ops. lra.
Qed.

Lemma final_point_within (o : ool_conmin R) (p : parameter R) (m : nat) :
  keeps_box o ->
  within (vec (repeat 0 (m + 1))) (vec (repeat 100 (m + 1))) (final_point o p m).
Proof.
  intros Hbox. unfold final_point, contin_run.
  destruct (@iteration_loop_iterates R o (Z.to_nat 100000) 100000 0
              (OOL_CONTINUE o) (contin_minimizer o p m)) as [k ->].
  unfold contin_minimizer.
  exact (Hbox _ (contin_function p (Z.of_nat m + 1)) (default_constraint m)
           (default_start m) _ k (default_start_within m)).
Qed.

(** C6.  [contin] hands the optimizer the bounds [0 <= x_k <= 100] for
    every component, the offset included, and the starting point
    [(1, ..., 1, 0)]; with an optimizer whose iterates stay in the box it is
    given, every amplitude returned satisfies [0 <= g_j <= 100], and the
    offset returned satisfies [0 <= b <= 100] as well. *)
Theorem contin_default_box (o : ool_conmin R) (p : parameter R)
    (s g : gsl_vector R) (m : nat) :
  keeps_box o -> length g = m -> length s = length (p_tau p) ->
  exists r : contin_result R,
    contin o p s g = Some r /\
    r_g r
    = vec (map (vget (M_x o (snd
        (iteration_loop o (Z.to_nat 100000) 100000 0 (OOL_CONTINUE o)
           (ool_conmin_minimizer_set o
              (ool_conmin_minimizer_alloc o (Z.of_nat m + 1))
              {| F_n := Z.of_nat m + 1; F_f := fun_; F_df := fun_df;
                 F_fdf := fun_fdf; F_Hv := fun_Hv; F_params := p |}
              {| C_n := Z.of_nat m + 1;
                 C_L := vec (repeat 0 (m + 1));
                 C_U := vec (repeat 100 (m + 1)) |}
              (vec (repeat 1 m ++ [0]))
              (ool_conmin_parameters_default o)))))) (seq 0 m)) /\
    (forall j, (j < m)%nat -> 0 <= vget (r_g r) j <= 100) /\
    0 <= r_b r <= 100.
Proof.
  intros Hbox Lg Ls.
  destruct (final_point_within p m Hbox) as (L & W & B).
  rewrite vec_length, repeat_length in L.
  exists (contin_outcome o p m).
  split; [apply contin_eval; auto|].
  split; [reflexivity|].
  cbn [r_g r_b contin_outcome]. split.
  - intros j Hj. rewrite vget_vec_map_seq by exact Hj.
    specialize (B j ltac:(lia)). rewrite !vget_repeat in B by lia. exact B.
  - specialize (B m ltac:(lia)). rewrite !vget_repeat in B by lia. exact B.
Qed.

(** * Exact arithmetic: the objective is a quadratic with that gradient
      and that Hessian *)

(** ** The regularisation operator is self-adjoint *)

Lemma nth_D2_spec_uniform (a : list R) (j : nat) :
  (2 <= length a)%nat -> (j < length a)%nat ->
  nth j (D2_spec a) 0
  = (if (j =? 0)%nat then 0 else nth (j - 1) a 0) - 2 * nth j a 0 + nth (j + 1) a 0.
Proof.
  intros Hm Hj. rewrite nth_D2_spec by exact Hj.
  destruct (j =? 0)%nat eqn:E0.
  - apply Nat.eqb_eq in E0. subst j. cbn [Nat.add]. ring.
  - destruct (j =? length a - 1)%nat eqn:E1; [|reflexivity].
    apply Nat.eqb_eq in E1. subst j.
    rewrite (nth_overflow a 0 (n := length a - 1 + 1)) by lia.
    replace (length a - 1 - 1)%nat with (length a - 2)%nat by lia. ring.
Qed.

Lemma big_sum_shift (h : nat -> R) (k : nat) :
  big_sum (fun j => if (j =? 0)%nat then 0 else h (j - 1)%nat) (Datatypes.S k)
  = big_sum h k.
Proof.
  induction k as [|k IH].
  - simpl. ring.
  - cbn [big_sum] in IH |- *. rewrite IH.
    replace (Datatypes.S k =? 0)%nat with false by reflexivity.
    replace (Datatypes.S k - 1)%nat with k by lia. reflexivity.
Qed.

(** [Sum_j (D2 a)_j b_j] is symmetric in [a] and [b]. *)
Lemma D2_pairing (a b : list R) (m : nat) :
  (2 <= m)%nat -> length a = m -> length b = m ->
  big_sum (fun j => nth j (D2_spec a) 0 * nth j b 0) m
  = big_sum (fun j => nth j a 0 * nth (j + 1) b 0) m
    + big_sum (fun j => nth j b 0 * nth (j + 1) a 0) m
    - 2 * big_sum (fun j => nth j a 0 * nth j b 0) m.
Proof.
  intros Hm La Lb.
  rewrite (@big_sum_ext _
             (fun j => (if (j =? 0)%nat then 0
                        else (fun i => nth i a 0 * nth (i + 1) b 0) (j - 1)%nat)
                       + nth j b 0 * nth (j + 1) a 0
                       - 2 * (nth j a 0 * nth j b 0)) m).
  2:{ intros j Hj. rewrite nth_D2_spec_uniform by lia.
      destruct (j =? 0)%nat eqn:E0; [ring|].
      apply Nat.eqb_neq in E0. cbv beta.
      replace (j - 1 + 1)%nat with j by lia. ring. }
  rewrite big_sum_minus, big_sum_plus, big_sum_scale.
  destruct m as [|m]; [lia|].
  pose proof (big_sum_shift (fun i => nth i a 0 * nth (i + 1) b 0) m) as Sh.
  cbv beta in Sh. rewrite Sh. clear Sh.
  cbn [big_sum].
  rewrite (nth_overflow b 0 (n := m + 1)) by lia.
  rewrite (nth_overflow a 0 (n := m + 1)) by lia.
  ring.
Qed.

Lemma D2_self_adjoint (a b : list R) (m : nat) :
  (2 <= m)%nat -> length a = m -> length b = m ->
  big_sum (fun j => nth j (D2_spec a) 0 * nth j b 0) m
  = big_sum (fun j => nth j a 0 * nth j (D2_spec b) 0) m.
Proof.
  intros Hm La Lb.
  rewrite (@D2_pairing a b m Hm La Lb).
  rewrite (@big_sum_ext (fun j => nth j a 0 * nth j (D2_spec b) 0)
             (fun j => nth j (D2_spec b) 0 * nth j a 0) m) by (intros; ring).
  rewrite (@D2_pairing b a m Hm Lb La).
  rewrite (@big_sum_ext (fun j => nth j b 0 * nth j a 0)
             (fun j => nth j a 0 * nth j b 0) m) by (intros; ring).
  ring.
Qed.

(** ** The objective of [fun] *)

Lemma objective_is_spec (p : parameter R) (n m : nat) (x : gsl_vector R) :
  (2 <= m)%nat -> (m <= length x)%nat ->
  objective x p n m = objective_spec p n m x.
Proof.
  intros Hm L. unfold objective, objective_of, objective_spec.
  rewrite !sum_from_big_sum. rewrite D2_is_spec by auto. real_ops.
  rewrite (@big_sum_ext
             (fun i => vget (p_w p) i
                       * ((vget (p_y p) i - predicted x p m i)
                          * (vget (p_y p) i - predicted x p m i)))
             (fun i => vget (p_w p) i
                       * (vget (p_y p) i - predicted_signal p m x i) ^ 2) n)
    by (intros i Hi; rewrite predicted_is_spec; ring).
  rewrite (@big_sum_ext
             (fun i => vget (vec (D2_spec (amplitudes m x))) i
                       * vget (vec (D2_spec (amplitudes m x))) i)
             (fun j => nth j (D2_spec (amplitudes m x)) 0 ^ 2) m)
    by (intros i Hi; rewrite vget_vec; real_ops; ring).
  ring.
Qed.

Section Expansion.

Variables (p : parameter R) (n m : nat).
Hypothesis Hm : (2 <= m)%nat.

(** The adjoint of the prediction: for every weighting [r] of the
    samples. *)
Lemma data_pairing (r : nat -> R) (v : gsl_vector R) :
  big_sum (fun i => vget (p_w p) i * r i * predicted_signal p m v i) n
  = big_sum (fun j => vget (p_c p) j
                      * big_sum (fun i => vget (p_w p) i * r i * mget (p_K p) i j) n
                      * vget v j) m
    + big_sum (fun i => vget (p_w p) i * r i) n * vget v m.
Proof.
  unfold predicted_signal.
  rewrite (@big_sum_ext _
             (fun i => vget v m * (vget (p_w p) i * r i)
                       + big_sum (fun j => vget (p_c p) j * vget v j
                                           * (vget (p_w p) i * r i * mget (p_K p) i j)) m)
             n).
  2:{ intros i Hi. rewrite Rmult_plus_distr_l, <- big_sum_scale.
      rewrite Rplus_comm at 1. rewrite Rplus_comm. f_equal; [ring|].
      apply big_sum_ext. intros; ring. }
  rewrite big_sum_plus, big_sum_scale, big_sum_swap.
  rewrite (@big_sum_ext
             (fun j => big_sum (fun i => vget (p_c p) j * vget v j
                                         * (vget (p_w p) i * r i * mget (p_K p) i j)) n)
             (fun j => vget (p_c p) j
                       * big_sum (fun i => vget (p_w p) i * r i * mget (p_K p) i j) n
                       * vget v j) m)
    by (intros j Hj; rewrite big_sum_scale; ring).
  ring.
Qed.

Variables (x v : gsl_vector R).
Hypothesis Lx : length x = (m + 1)%nat.
Hypothesis Lv : length v = (m + 1)%nat.

Lemma D2_vadd (j : nat) :
  (j < m)%nat ->
  nth j (D2_spec (amplitudes m (vadd x v))) 0
  = nth j (D2_spec (amplitudes m x)) 0 + nth j (D2_spec (amplitudes m v)) 0.
Proof.
  intros Hj.
  apply D2_spec_linear;
    rewrite ?amplitudes_length by (rewrite ?vadd_length; lia); auto.
  intros k Hk. rewrite !nth_amplitudes by lia. apply vget_vadd. lia.
Qed.

(** [f (x + v) = f x + grad f (x) . v + q v]. *)
Lemma objective_expansion :
  objective_spec p n m (vadd x v)
  = objective_spec p n m x + gradient_along p n m x v + quadratic_part p n m v.
Proof.
  unfold objective_spec, gradient_along, quadratic_part.
  (* the data term *)
  rewrite (@big_sum_ext
             (fun i => vget (p_w p) i
                       * (vget (p_y p) i - predicted_signal p m (vadd x v) i) ^ 2)
             (fun i => vget (p_w p) i * (vget (p_y p) i - predicted_signal p m x i) ^ 2
                       + 2 * (vget (p_w p) i
                              * (predicted_signal p m x i - vget (p_y p) i)
                              * predicted_signal p m v i)
                       + vget (p_w p) i * predicted_signal p m v i ^ 2) n)
    by (intros i Hi; rewrite predicted_signal_vadd by assumption; ring).
  rewrite !big_sum_plus, big_sum_scale.
  rewrite (data_pairing (fun i => predicted_signal p m x i - vget (p_y p) i) v).
  (* the regularisation term *)
  rewrite (@big_sum_ext
             (fun j => nth j (D2_spec (amplitudes m (vadd x v))) 0 ^ 2)
             (fun j => nth j (D2_spec (amplitudes m x)) 0 ^ 2
                       + 2 * (nth j (D2_spec (amplitudes m x)) 0
                              * nth j (D2_spec (amplitudes m v)) 0)
                       + nth j (D2_spec (amplitudes m v)) 0 ^ 2) m)
    by (intros j Hj; rewrite D2_vadd by exact Hj; ring).
  rewrite !big_sum_plus, big_sum_scale.
  rewrite <- (@D2_self_adjoint (D2_spec (amplitudes m x)) (amplitudes m v) m)
    by (rewrite ?D2_spec_length, ?amplitudes_length; lia).
  (* the gradient *)
  unfold analytic_gradient, analytic_gradient_offset.
  rewrite (@big_sum_ext
             (fun j => (2 * vget (p_c p) j
                        * big_sum (fun i => vget (p_w p) i
                                            * (predicted_signal p m x i - vget (p_y p) i)
                                            * mget (p_K p) i j) n
                        + 2 * p_alpha p ^ 2
                          * nth j (D2_spec (D2_spec (amplitudes m x))) 0)
                       * vget v j)
             (fun j => 2 * (vget (p_c p) j
                            * big_sum (fun i => vget (p_w p) i
                                                * (predicted_signal p m x i
                                                   - vget (p_y p) i)
                                                * mget (p_K p) i j) n
                            * vget v j)
                       + 2 * p_alpha p ^ 2
                         * (nth j (D2_spec (D2_spec (amplitudes m x))) 0
                            * nth j (amplitudes m v) 0)) m)
    by (intros j Hj; rewrite nth_amplitudes by exact Hj; ring).
  rewrite big_sum_plus, !big_sum_scale.
  ring.
Qed.

End Expansion.

(** ** The second-order part is half the Hessian form *)

Section Hessian_form.

Variables (p : parameter R) (n m : nat) (v : gsl_vector R).
Hypothesis Hm : (2 <= m)%nat.
Hypothesis Lv : length v = (m + 1)%nat.

Lemma hessian_vector_adjoint (j : nat) :
  (j < m)%nat ->
  hessian_vector p n m v j
  = 2 * vget (p_c p) j
      * big_sum (fun i => vget (p_w p) i * predicted_signal p m v i
                          * mget (p_K p) i j) n
    + 2 * p_alpha p ^ 2 * nth j (D2_spec (D2_spec (amplitudes m v))) 0.
Proof.
  intros Hj. rewrite <- (@gradient_increment p n m v v Hm Lv Lv j Hj).
  unfold analytic_gradient. rewrite D4_vadd by assumption.
  rewrite (@big_sum_ext
             (fun i => vget (p_w p) i
                       * (predicted_signal p m (vadd v v) i - vget (p_y p) i)
                       * mget (p_K p) i j)
             (fun i => vget (p_w p) i * (predicted_signal p m v i - vget (p_y p) i)
                       * mget (p_K p) i j
                       + vget (p_w p) i * predicted_signal p m v i
                         * mget (p_K p) i j) n)
    by (intros i Hi; rewrite predicted_signal_vadd by assumption; ring).
  rewrite big_sum_plus. ring.
Qed.

Lemma hessian_vector_offset_adjoint :
  hessian_vector_offset p n m v
  = 2 * big_sum (fun i => vget (p_w p) i * predicted_signal p m v i) n.
Proof.
  rewrite <- (@gradient_offset_increment p n m v v Hm Lv Lv).
  unfold analytic_gradient_offset.
  rewrite (@big_sum_ext
             (fun i => vget (p_w p) i
                       * (predicted_signal p m (vadd v v) i - vget (p_y p) i))
             (fun i => vget (p_w p) i * (predicted_signal p m v i - vget (p_y p) i)
                       + vget (p_w p) i * predicted_signal p m v i) n)
    by (intros i Hi; rewrite predicted_signal_vadd by assumption; ring).
  rewrite big_sum_plus. ring.
Qed.

(** [v . H v = 2 q v]. *)
Lemma hessian_form_quadratic :
  hessian_form p n m v = 2 * quadratic_part p n m v.
Proof.
  unfold hessian_form, quadratic_part.
  rewrite hessian_vector_offset_adjoint.
  rewrite (@big_sum_ext
             (fun i => vget v i * hessian_vector p n m v i)
             (fun j => 2 * (vget (p_c p) j
                            * big_sum (fun i => vget (p_w p) i
                                                * predicted_signal p m v i
                                                * mget (p_K p) i j) n
                            * vget v j)
                       + 2 * p_alpha p ^ 2
                         * (nth j (D2_spec (D2_spec (amplitudes m v))) 0
                            * nth j (amplitudes m v) 0)) m)
    by (intros j Hj; rewrite hessian_vector_adjoint, nth_amplitudes by exact Hj; ring).
  rewrite big_sum_plus, !big_sum_scale.
  rewrite (@D2_self_adjoint (D2_spec (amplitudes m v)) (amplitudes m v) m)
    by (rewrite ?D2_spec_length, ?amplitudes_length; lia).
  rewrite (@big_sum_ext
             (fun i => vget (p_w p) i * predicted_signal p m v i ^ 2)
             (fun i => vget (p_w p) i * predicted_signal p m v i
                       * predicted_signal p m v i) n)
    by (intros; ring).
  rewrite (data_pairing p n m (fun i => predicted_signal p m v i) v).
  rewrite (@big_sum_ext
             (fun j => nth j (D2_spec (amplitudes m v)) 0 ^ 2)
             (fun j => nth j (D2_spec (amplitudes m v)) 0
                       * nth j (D2_spec (amplitudes m v)) 0) m)
    by (intros; ring).
  ring.
Qed.

(** The second-order part is homogeneous of degree two, the first-order
    part of degree one. *)
Lemma vscale_length (t : R) : length (vscale t v) = length v.
Proof. unfold vscale. rewrite vec_length, length_map, length_seq. reflexivity. Qed.

Lemma vget_vscale (t : R) (i : nat) :
  (i < length v)%nat -> vget (vscale t v) i = t * vget v i.
Proof.
  intros Hi. unfold vscale. rewrite vget_vec_map_seq by exact Hi. reflexivity.
Qed.

Lemma predicted_signal_vscale (t : R) (i : nat) :
  predicted_signal p m (vscale t v) i = t * predicted_signal p m v i.
Proof.
  unfold predicted_signal. rewrite vget_vscale by lia.
  rewrite (@big_sum_ext
             (fun j => vget (p_c p) j * mget (p_K p) i j * vget (vscale t v) j)
             (fun j => t * (vget (p_c p) j * mget (p_K p) i j * vget v j)) m)
    by (intros j Hj; rewrite vget_vscale by lia; ring).
  rewrite big_sum_scale. ring.
Qed.

Lemma D2_vscale (t : R) (j : nat) :
  (j < m)%nat ->
  nth j (D2_spec (amplitudes m (vscale t v))) 0
  = t * nth j (D2_spec (amplitudes m v)) 0.
Proof.
  intros Hj.
  assert (A : forall k, (k < m)%nat ->
                nth k (amplitudes m (vscale t v)) 0 = t * nth k (amplitudes m v) 0).
  { intros k Hk. rewrite !nth_amplitudes by exact Hk. apply vget_vscale. lia. }
  rewrite !nth_D2_spec
    by (rewrite amplitudes_length by (rewrite ?vscale_length; lia); exact Hj).
  rewrite !amplitudes_length by (rewrite ?vscale_length; lia).
  destruct (j =? 0)%nat eqn:E0.
  - rewrite !A by lia. ring.
  - destruct (j =? m - 1)%nat eqn:E1.
    + rewrite !A by lia. ring.
    + apply Nat.eqb_neq in E0, E1. rewrite !A by lia. ring.
Qed.

Lemma quadratic_part_vscale (t : R) :
  quadratic_part p n m (vscale t v) = t ^ 2 * quadratic_part p n m v.
Proof.
  unfold quadratic_part.
  rewrite (@big_sum_ext
             (fun i => vget (p_w p) i * predicted_signal p m (vscale t v) i ^ 2)
             (fun i => t ^ 2 * (vget (p_w p) i * predicted_signal p m v i ^ 2)) n)
    by (intros i Hi; rewrite predicted_signal_vscale; ring).
  rewrite (@big_sum_ext
             (fun j => nth j (D2_spec (amplitudes m (vscale t v))) 0 ^ 2)
             (fun j => t ^ 2 * nth j (D2_spec (amplitudes m v)) 0 ^ 2) m)
    by (intros j Hj; rewrite D2_vscale by exact Hj; ring).
  rewrite !big_sum_scale. ring.
Qed.

Lemma gradient_along_vscale (x : gsl_vector R) (t : R) :
  gradient_along p n m x (vscale t v) = t * gradient_along p n m x v.
Proof.
  unfold gradient_along. rewrite vget_vscale by lia.
  rewrite (@big_sum_ext
             (fun j => analytic_gradient p n m x j * vget (vscale t v) j)
             (fun j => t * (analytic_gradient p n m x j * vget v j)) m)
    by (intros j Hj; rewrite vget_vscale by lia; ring).
  rewrite big_sum_scale. ring.
Qed.

End Hessian_form.

(** ** [fun], [fun_df] and the Hessian along a line *)

(** The value returned by [fun] along the line [x + t v] is the quadratic
    in [t] whose linear coefficient is the gradient returned by [fun_df]
    paired with [v], and whose quadratic coefficient is half the Hessian
    form of [v]. *)
Lemma fun_along_a_line (p : parameter R) (n m : nat) (x v : gsl_vector R) (t : R) :
  valid_parameter n m p -> (2 <= m)%nat ->
  length x = (m + 1)%nat -> written x = true -> length v = (m + 1)%nat ->
  fun_ x p = Some (objective_spec p n m x) /\
  fun_ (vadd x (vscale t v)) p
  = Some (objective_spec p n m x
          + t * gradient_along p n m x v
          + t ^ 2 / 2 * hessian_form p n m v).
Proof.
  intros Hp Hm Lx Wx Lv. split.
  - rewrite (@fun_eval R R_ops n m p x) by auto.
    rewrite objective_is_spec by lia. reflexivity.
  - rewrite (@fun_eval R R_ops n m p (vadd x (vscale t v)));
      auto; [| rewrite vadd_length; exact Lx | apply written_vec].
    rewrite objective_is_spec by (rewrite ?vadd_length; lia).
    rewrite objective_expansion
      by (auto; rewrite vscale_length; exact Lv).
    rewrite gradient_along_vscale, quadratic_part_vscale by auto.
    rewrite hessian_form_quadratic by auto. f_equal. field.
Qed.

(** Hence the gradient of [fun_df] is the derivative of the objective of
    [fun]: along every direction [v], the derivative at [t = 0] of
    [t |-> f (x + t v)] is [grad f (x) . v]. *)
Lemma fun_df_is_the_derivative (p : parameter R) (n m : nat) (x v : gsl_vector R) :
  (2 <= m)%nat -> length x = (m + 1)%nat -> length v = (m + 1)%nat ->
  derivable_pt_lim (fun t => objective_spec p n m (vadd x (vscale t v))) 0
    (gradient_along p n m x v).
Proof.
  intros Hm Lx Lv.
  assert (E : forall t, objective_spec p n m (vadd x (vscale t v))
                        = objective_spec p n m x
                          + t * gradient_along p n m x v
                          + t ^ 2 * quadratic_part p n m v).
  { intros t. rewrite objective_expansion by (auto; rewrite vscale_length; exact Lv).
    rewrite gradient_along_vscale, quadratic_part_vscale by auto. reflexivity. }
  set (q := quadratic_part p n m v) in *.
  intros eps Heps.
  assert (Hd : 0 < eps / (Rabs q + 1)).
  { apply Rdiv_lt_0_compat; [exact Heps|]. pose proof (Rabs_pos q). lra. }
  exists (mkposreal _ Hd). intros h Hh0 Hh. cbn [pos] in Hh.
  rewrite !E. rewrite Rplus_0_l.
  replace ((objective_spec p n m x + h * gradient_along p n m x v + h ^ 2 * q
            - (objective_spec p n m x + 0 * gradient_along p n m x v + 0 ^ 2 * q)) / h
           - gradient_along p n m x v)
    with (h * q) by (field; exact Hh0).
  rewrite Rabs_mult.
  pose proof (Rabs_pos q) as Hq. pose proof (Rabs_pos h) as Hhp.
  apply Rle_lt_trans with (Rabs h * (Rabs q + 1)).
  - apply Rmult_le_compat_l; lra.
  - apply (Rmult_lt_compat_r (Rabs q + 1)) in Hh; [|lra].
    replace (eps / (Rabs q + 1) * (Rabs q + 1)) with eps in Hh by (field; lra).
    exact Hh.
Qed.

(** ** The gradient of the program *)

(** Along every direction [v], the value returned by [fun] at [x + t v]
    has at [t = 0] the derivative [grad . v], with [grad] the vector
    returned by [fun_df]. *)
Lemma fun_df_differentiates_fun (p : parameter R) (n m : nat)
    (x grad v : gsl_vector R) :
  valid_parameter n m p -> (1 <= n)%nat -> (2 <= m)%nat ->
  length x = (m + 1)%nat -> written x = true -> length grad = (m + 1)%nat ->
  length v = (m + 1)%nat ->
  fun_df x p grad = Some (vec (gradient x p n m)) /\
  derivable_pt_lim (fun t => value_of (fun_ (vadd x (vscale t v)) p)) 0
    (big_sum (fun k => nth k (gradient x p n m) 0 * vget v k) (m + 1)).
Proof.
  intros Hp Hn Hm Lx Wx Lg Lv. split; [apply fun_df_eval; auto|].
  assert (G : big_sum (fun k => nth k (gradient x p n m) 0 * vget v k) (m + 1)
              = gradient_along p n m x v).
  { rewrite Nat.add_1_r. cbn [big_sum]. unfold gradient_along, gradient.
    rewrite nth_gradient_last, gradient_last_is_analytic.
    f_equal. apply big_sum_ext. intros j Hj.
    rewrite nth_gradient by exact Hj.
    rewrite gradient_entry_is_analytic by lia. reflexivity. }
  rewrite G.
  pose proof (@fun_df_is_the_derivative p n m x v Hm Lx Lv) as Der.
  intros eps Heps. destruct (Der eps Heps) as [delta Hdelta].
  exists delta. intros h Hh0 Hh. specialize (Hdelta h Hh0 Hh).
  assert (E : forall t, value_of (fun_ (vadd x (vscale t v)) p)
                        = objective_spec p n m (vadd x (vscale t v))).
  { intros t.
    rewrite (@fun_eval R R_ops n m p (vadd x (vscale t v)));
      auto; [| rewrite vadd_length; exact Lx | apply written_vec].
    cbn [value_of]. apply objective_is_spec; rewrite ?vadd_length; lia. }
  rewrite !E. exact Hdelta.
Qed.

(** C1.  The vector returned by [fun_df] is the analytic gradient of the
    objective computed by [fun]: its component [j < m] is
    [2 c_j Sum_i w_i (z_i - y_i) K[i][j] + 2 alpha^2 (D2 (D2 g))_j] and its
    last component is [2 Sum_i w_i (z_i - y_i)], with
    [z_i = b + Sum_j c_j K[i][j] g_j]; and along every direction [v] the
    value of [fun] at [x + t v] has at [t = 0] the derivative
    [Sum_k grad_k v_k]. *)
Theorem fun_df_is_analytic_gradient (p : parameter R) (n m : nat)
    (x grad : gsl_vector R) :
  valid_parameter n m p -> (1 <= n)%nat -> (2 <= m)%nat ->
  length x = (m + 1)%nat -> written x = true -> length grad = (m + 1)%nat ->
  exists g : list R,
    fun_df x p grad = Some (vec g) /\ length g = (m + 1)%nat /\
    (forall j, (j < m)%nat ->
       nth j g 0
       = 2 * vget (p_c p) j
           * big_sum (fun i => vget (p_w p) i
                               * (predicted_signal p m x i - vget (p_y p) i)
                               * mget (p_K p) i j) n
         + 2 * p_alpha p ^ 2 * nth j (D2_spec (D2_spec (amplitudes m x))) 0) /\
    nth m g 0
    = 2 * big_sum (fun i => vget (p_w p) i
                            * (predicted_signal p m x i - vget (p_y p) i)) n /\
    (forall v : gsl_vector R,
       length v = (m + 1)%nat ->
       derivable_pt_lim (fun t => value_of (fun_ (vadd x (vscale t v)) p)) 0
         (big_sum (fun k => nth k g 0 * vget v k) (m + 1))).
Proof.
  intros Hp Hn Hm Lx Wx Lg. exists (gradient x p n m).
  split; [apply fun_df_eval; auto|].
  split; [apply gradient_length|].
  split; [|split].
  - intros j Hj. unfold gradient. rewrite nth_gradient by exact Hj.
    apply gradient_entry_is_analytic; lia.
  - unfold gradient. rewrite nth_gradient_last.
    apply gradient_last_is_analytic.
  - intros v Lv.
    apply (@fun_df_differentiates_fun p n m x grad v); auto.
Qed.

(** ** The sample problem is one the builder returns *)

Lemma sample_bundle_built :
  parameter_alloc (vec [0]) (vec [1]) (vec [1]) 1 1 3 3 0 = Some sample_bundle.
Proof.
  etransitivity.
  { apply (@parameter_alloc_eval R R_ops (vec [0]) (vec [1]) (vec [1]) 1 1 3 1 3 0);
      auto. }
  f_equal. unfold sample_bundle.
  assert (Ed : dtau_of 1 3 3 = 1).
  { unfold dtau_of. real_ops. cbn [Z.of_nat Pos.of_succ_nat Pos.succ Z.sub Z.add
                                    Z.opp Z.pos_sub Pos.pred_double]. field. }
  assert (Et : tau_grid 1 3 3 = [1; 2; 3]).
  { unfold tau_grid. rewrite Ed. cbn [seq map]. real_ops.
    cbn [Z.of_nat Pos.of_succ_nat Pos.succ].
    repeat (apply f_equal2; [lra|]). reflexivity. }
  rewrite Et. f_equal.
  - unfold kernel_matrix, exponential. cbn [Z.eqb seq map vec vget nth cell_val].
    real_ops.
    replace (- 0 / 1) with 0 by field.
    replace (- 0 / 2) with 0 by field.
    replace (- 0 / 3) with 0 by field.
    rewrite exp_0. reflexivity.
  - unfold noise_weights. cbn [seq map vec vget nth cell_val]. real_ops.
    replace (1 / 1) with 1 by field. reflexivity.
  - unfold quadrature. rewrite Ed. cbn [seq map vec Nat.eqb Nat.sub orb]. real_ops.
    replace (/ 2 * 1) with (/ 2) by field. reflexivity.
Qed.

(** ** The Hessian-vector product of the program *)

(** C2, which the program does not meet.  On the sample problem, a
    bundle [parameter_alloc] returns, with [alpha = 1], [x = (1, 1, 1, 0)]
    and the direction [v = (1, 0, 0, 0)], [fun_Hv] returns
    [(11/2, -3, 3/2, 1)], while the product of the Hessian of [f] with [v],
    which is the increment of the gradient returned by [fun_df] from [x] to
    [x + v], is [(21/2, -7, 5/2, 1)]: the regularisation block of [fun_Hv]
    lacks the factor [2 alpha^2]. *)
Theorem fun_Hv_lacks_regularisation_factor :
  parameter_alloc (vec [0]) (vec [1]) (vec [1]) 1 1 3 3 0 = Some sample_bundle /\
  fun_Hv sample_x sample_bundle sample_v (fresh 4)
  = Some (vec [11 / 2; -3; 3 / 2; 1]) /\
  fun_df sample_x sample_bundle (fresh 4) = Some (vec [5; -2; 5; 2]) /\
  fun_df (vadd sample_x sample_v) sample_bundle (fresh 4)
  = Some (vec [31 / 2; -9; 15 / 2; 3]) /\
  hessian_vector sample_bundle 1 3 sample_v 0 = 21 / 2 /\
  hessian_vector sample_bundle 1 3 sample_v 1 = -7 /\
  hessian_vector sample_bundle 1 3 sample_v 2 = 5 / 2 /\
  hessian_vector_offset sample_bundle 1 3 sample_v = 1.
Proof.
  split; [exact sample_bundle_built|].
  split; [|split; [|split]].
  - rewrite <- sample_Hv_code.
    apply fun_Hv_eval; auto using sample_bundle_valid.
  - rewrite <- sample_gradient.
    apply fun_df_eval; auto using sample_bundle_valid.
  - rewrite sample_vadd, <- sample_gradient_moved.
    apply fun_df_eval; auto using sample_bundle_valid.
  - cbv [hessian_vector hessian_vector_offset H1 H2 H3 big_sum D2_spec amplitudes
         firstn length seq map nth vget mget cell_val vec sample_v sample_bundle
         p_w p_c p_K p_y p_alpha Nat.eqb Nat.sub Nat.add Init.Nat.sub Init.Nat.add].
    repeat split; lra.
Qed.


(** * The program on concrete inputs *)

(** The embedding runs: the second differences of [(1, 2, 4)], and the
    objective of the sample problem at [x = (1, 1, 1, 0)], where [z = 2],
    the residual term is [1] and the differences are [(-1, 0, -1)]. *)
Ltac run_program :=
  match goal with
  | |- ?l = _ =>
      let l' := eval cbv -[Rplus Rminus Rmult Rdiv Ropp Rinv IZR] in l in
      change l with l'
  end.

Example diff2_runs :
  exists d0 d1 d2 : R,
    diff2 (vec [1; 2; 4; 0]) (fresh 3) = Some [Some d0; Some d1; Some d2] /\
    d0 = 0 /\ d1 = 1 /\ d2 = -6.
Proof.
  do 3 eexists. split; [run_program; reflexivity|].
  repeat split; lra.
Qed.

Example fun_runs :
  exists f : R, fun_ sample_x sample_bundle = Some f /\ f = 3.
Proof. eexists. split; [run_program; reflexivity | lra]. Qed.

Example fun_Hv_runs :
  exists h0 h1 h2 h3 : R,
    fun_Hv sample_x sample_bundle sample_v (fresh 4)
    = Some [Some h0; Some h1; Some h2; Some h3] /\
    h0 = 11 / 2 /\ h1 = -3 /\ h2 = 3 / 2 /\ h3 = 1.
Proof.
  do 4 eexists. split; [run_program; reflexivity|].
  repeat split; lra.
Qed.

Lemma still_optimizer_rests (answer : Z) (k : nat) (M : gsl_vector R) :
  Nat.iter k (ool_conmin_minimizer_iterate (still_optimizer answer)) M = M.
Proof. induction k as [|k IH]; simpl; auto. Qed.

Lemma still_optimizer_keeps_box (answer : Z) : keeps_box (still_optimizer answer).
Proof.
  intros M F C X P k H. rewrite still_optimizer_rests. exact H.
Qed.

Lemma still_optimizer_final_point (answer : Z) (p : parameter R) (m : nat) :
  final_point (still_optimizer answer) p m = default_start m.
Proof.
  unfold final_point, contin_run.
  destruct (@iteration_loop_iterates R (still_optimizer answer) (Z.to_nat 100000)
              100000 0 (OOL_CONTINUE (still_optimizer answer))
              (contin_minimizer (still_optimizer answer) p m)) as [k ->].
  rewrite still_optimizer_rests. reflexivity.
Qed.



(** C4 fails on the program: an optimizer that never reports success is
    stopped after 100000 iterations with the status [OOL_CONTINUE], and
    [contin] returns [OOL_SUCCESS]. *)
Lemma contin_returns_success_without_convergence :
  exists r : contin_result R,
    contin (still_optimizer (-2)) sample_bundle (fresh 3) (fresh 3) = Some r /\
    final_status (still_optimizer (-2)) sample_bundle 3
    = OOL_CONTINUE (still_optimizer (-2)) /\
    r_stdout r = Stopped_with_iterations 100000 /\
    r_return r = OOL_SUCCESS (still_optimizer (-2)) /\
    r_return r <> final_status (still_optimizer (-2)) sample_bundle 3.
Proof.
  exists (contin_outcome (still_optimizer (-2)) sample_bundle 3).
  destruct (contin_status (still_optimizer (-2)) sample_bundle 3) as [S1 S2].
  cbn [ool_conmin_is_optimal still_optimizer] in S1.
  assert (C : final_count (still_optimizer (-2)) sample_bundle 3 = 100000%Z).
  { destruct S2 as [S2|S2]; [|exact S2]. exfalso. apply S2. rewrite S1. reflexivity. }
  split.
  - apply contin_eval; try reflexivity;
      rewrite still_optimizer_final_point; reflexivity.
  - split; [rewrite S1; reflexivity|].
    cbn [contin_outcome r_stdout r_return].
    rewrite S1, C. cbn [OOL_SUCCESS still_optimizer Z.eqb].
    repeat split. discriminate.
Qed.

Lemma contin_returns_success_witness :
  exists r : contin_result R,
    contin (still_optimizer 0) sample_bundle (fresh 3) (fresh 3) = Some r /\
    r_return r = 0%Z /\
    r_stdout r
    = (if (final_status (still_optimizer 0) sample_bundle 3 =? 0)%Z
       then Convergence_in_iterations (final_count (still_optimizer 0) sample_bundle 3)
       else Stopped_with_iterations (final_count (still_optimizer 0) sample_bundle 3)).
Proof.
  destruct (@contin_returns_success R R_ops (still_optimizer 0) sample_bundle
              (fresh 3) (fresh 3) 3 eq_refl eq_refl eq_refl eq_refl)
    as (r & E & Ret & _ & _ & Out & _).
  exists r. split; [exact E|]. split; [exact Ret | exact Out].
Defined.

Lemma fun_df_is_analytic_gradient_witness :
  exists g : list R,
    fun_df sample_x sample_bundle (fresh 4) = Some (vec g) /\
    length g = 4%nat /\
    nth 3 g 0
    = 2 * big_sum (fun i => vget (p_w sample_bundle) i
                            * (predicted_signal sample_bundle 3 sample_x i
                               - vget (p_y sample_bundle) i)) 1.
Proof.
  destruct (@fun_df_is_analytic_gradient sample_bundle 1 3 sample_x (fresh 4))
    as (g & E & L & _ & Last & _).
  - repeat split.
  - lia.
  - lia.
  - reflexivity.
  - reflexivity.
  - reflexivity.
  - exists g. split; [exact E|]. split; [exact L | exact Last].
Defined.

Lemma fun_fdf_agrees_with_fun_and_fun_df_witness :
  exists (f : R) (g : gsl_vector R),
    fun_fdf sample_x sample_bundle (fresh 4) = Some (f, g) /\
    fun_ sample_x sample_bundle = Some f /\
    fun_df sample_x sample_bundle (fresh 4) = Some g.
Proof.
  destruct (@fun_fdf_agrees_with_fun_and_fun_df R R_ops 1 3 sample_bundle
              sample_x (fresh 4))
    as (f & g & E1 & E2 & E3 & _).
  - repeat split.
  - lia.
  - lia.
  - reflexivity.
  - reflexivity.
  - reflexivity.
  - exists f, g. split; [exact E1|]. split; [exact E2 | exact E3].
Defined.

Lemma contin_default_box_witness :
  exists r : contin_result R,
    contin (still_optimizer 0) sample_bundle (fresh 3) (fresh 3) = Some r /\
    (forall j, (j < 3)%nat -> 0 <= vget (r_g r) j <= 100) /\
    0 <= r_b r <= 100.
Proof.
  destruct (@contin_default_box (still_optimizer 0) sample_bundle (fresh 3)
              (fresh 3) 3 (@still_optimizer_keeps_box 0%Z) eq_refl eq_refl)
    as (r & E & _ & G & B).
  exists r. split; [exact E|]. split; [exact G | exact B].
Defined.

Lemma corner_optimizer_final_point (upper : bool) (p : parameter R) (m : nat) :
  final_point (corner_optimizer upper) p m
  = if upper then vec (repeat 100 (m + 1)) else vec (repeat 0 (m + 1)).
Proof.
  unfold final_point, contin_run.
  destruct (@iteration_loop_iterates R (corner_optimizer upper) (Z.to_nat 100000)
              100000 0 (OOL_CONTINUE (corner_optimizer upper))
              (contin_minimizer (corner_optimizer upper) p m)) as [k ->].
  assert (Rest : forall (j : nat) (M : gsl_vector R),
            Nat.iter j (ool_conmin_minimizer_iterate (corner_optimizer upper)) M = M)
    by (induction j as [|j IH]; simpl; auto).
  rewrite Rest. destruct upper; reflexivity.
Qed.

(** C6 fails on the program where it speaks of the offset: the box handed
    to the optimizer has [m + 1] cells and bounds the offset as it bounds
    the amplitudes.  With an optimizer that goes to the lower corner of the
    box it is given [contin] returns [b = 0] next to the amplitudes
    [(0, 0, 0)], and with the upper corner [b = 100] next to
    [(100, 100, 100)]: the offset is neither unconstrained nor more
    loosely bounded than the amplitudes. *)
Lemma contin_bounds_the_offset :
  exists lower upper : contin_result R,
    contin (corner_optimizer false) sample_bundle (fresh 3) (fresh 3) = Some lower /\
    contin (corner_optimizer true) sample_bundle (fresh 3) (fresh 3) = Some upper /\
    r_g lower = vec [0; 0; 0] /\ r_b lower = 0 /\
    r_g upper = vec [100; 100; 100] /\ r_b upper = 100 /\
    ~ (r_b lower < 0 \/ 100 < r_b upper).
Proof.
  exists (contin_outcome (corner_optimizer false) sample_bundle 3),
         (contin_outcome (corner_optimizer true) sample_bundle 3).
  split; [|split].
  - apply contin_eval; try reflexivity;
      rewrite corner_optimizer_final_point; reflexivity.
  - apply contin_eval; try reflexivity;
      rewrite corner_optimizer_final_point; reflexivity.
  - cbn [contin_outcome r_g r_b]. rewrite !corner_optimizer_final_point.
    repeat split. intros [H|H]; cbv in H; lra.
Qed.

Lemma quadrature_weights_are_trapezoidal_witness :
  exists (p : parameter R) (c : list R),
    parameter_alloc (vec [0]) (vec [1]) (vec [1]) 1 1 3 (Z.of_nat 3) 0 = Some p /\
    p_c p = vec c /\
    big_sum (fun j => nth j c 0) 3 = 3 - 1.
Proof.
  destruct (@quadrature_weights_are_trapezoidal (vec [0]) (vec [1]) (vec [1])
              1 1 3 1 3 0)
    as (p & c & E & Ec & _ & _ & _ & _ & Sum).
  - lra.
  - lia.
  - lia.
  - reflexivity.
  - reflexivity.
  - simpl; lia.
  - reflexivity.
  - reflexivity.
  - exists p, c. split; [exact E|]. split; [exact Ec | exact Sum].
Defined.

Lemma diff2_of_linear_sequence_witness :
  exists d : list R,
    diff2 [Some (1 + 2 * INR 0); Some (1 + 2 * INR 1); Some (1 + 2 * INR 2)]
      (fresh 3)
    = Some (vec d) /\
    nth 1 d 0 = 0.
Proof.
  destruct (@diff2_of_linear_sequence 3 1 2
              [Some (1 + 2 * INR 0); Some (1 + 2 * INR 1); Some (1 + 2 * INR 2)]
              (fresh 3))
    as (d & E & _ & Z & _).
  - lia.
  - reflexivity.
  - simpl; lia.
  - intros i Hi. destruct i as [|[|[|i]]]; try reflexivity.
    exfalso. lia.
  - exists d. split; [exact E|]. apply Z. simpl; lia.
Defined.

Lemma parameter_alloc_unknown_kernel_witness :
  exists p : parameter R,
    parameter_alloc (vec [0]) (vec [1]) (vec [1]) 1 1 3 (Z.of_nat 3) 7 = Some p /\
    p_K p = [[None; None; None]].
Proof.
  destruct (@parameter_alloc_unknown_kernel R R_ops (vec [0]) (vec [1]) (vec [1])
              1 1 3 1 3 7)
    as (p & E & EK & _).
  - discriminate.
  - discriminate.
  - lia.
  - lia.
  - reflexivity.
  - reflexivity.
  - simpl; lia.
  - reflexivity.
  - exists p. split; [exact E | exact EK].
Defined.

Lemma diff2_ignores_offset_witness :
  diff2 (D := R) [Some 1; Some 2; Some 4; Some 0] (fresh 3)
  = diff2 [Some 1; Some 2; Some 4; Some 9] (fresh 3) /\
  exists d2 : list R,
    diff2 (vec [1; 1; 1]) (fresh 3) = Some (vec d2) /\
    forall b : R,
      diff2 (vec ([1; 1; 1] ++ [b])) (fresh 3) = Some (vec d2) /\
      fun_ (vec ([1; 1; 1] ++ [b])) sample_bundle
      = Some (sum_from 0
                (fun i => vget (p_w sample_bundle) i
                          * sqr (vget (p_y sample_bundle) i
                                 - predicted (vec ([1; 1; 1] ++ [b])) sample_bundle 3 i)) 1
              + p_alpha sample_bundle * p_alpha sample_bundle
                * sum_from 0 (fun i => sqr (vget (vec d2) i)) 3).
Proof.
  destruct (@diff2_ignores_offset R R_ops 3 (fresh 3)) as (_ & H & F).
  - lia.
  - reflexivity.
  - split.
    + destruct (H [Some 1; Some 2; Some 4] (Some 0) (Some 9) eq_refl) as [E _].
      exact E.
    + destruct (F 1%nat sample_bundle [1; 1; 1]) as (d2 & d4 & E2 & _ & B).
      * repeat split.
      * lia.
      * reflexivity.
      * exists d2. split; [exact E2|].
        intros b. destruct (B b) as (Eb & Fb & _). split; [exact Eb | exact Fb].
Defined.

(** * Further properties of the program *)

Section More_properties.

Context {D : Type} {ops : double_ops D}.

Local Open Scope nat_scope.

(** ** Helpers: reads out of range, loops that fail *)

Lemma get_out_of_range (v : gsl_vector D) (i : Z) :
  (Z.of_nat (length v) <= i)%Z -> gsl_vector_get v i = None.
Proof.
  intros H. unfold gsl_vector_get, vsize.
  replace (i <? Z.of_nat (length v))%Z with false by (symmetry; apply Z.ltb_ge; lia).
  rewrite andb_false_r. reflexivity.
Qed.

Lemma get_negative (v : gsl_vector D) (i : Z) :
  (i < 0)%Z -> gsl_vector_get v i = None.
Proof.
  intros H. unfold gsl_vector_get.
  replace (0 <=? i)%Z with false by (symmetry; apply Z.leb_gt; lia).
  reflexivity.
Qed.

Lemma alloc_refused (n : Z) : (n <= 0)%Z -> gsl_vector_alloc (D := D) n = None.
Proof.
  intros H. unfold gsl_vector_alloc.
  replace (0 <? n)%Z with false by (symmetry; apply Z.ltb_ge; lia).
  reflexivity.
Qed.

(** A loop one of whose iterations fails in every state has no result. *)
Lemma for_iter_fails {S : Type} (k j : nat) (lo : Z) (body : Z -> S -> option S) (s : S) :
  j < k -> (forall s, body (lo + Z.of_nat j)%Z s = None) ->
  for_iter k lo body s = None.
Proof.
  revert j lo s. induction k as [|k IH]; intros j lo s Hj Hb; [lia|].
  cbn [for_iter]. destruct j as [|j].
  - replace (lo + Z.of_nat 0)%Z with lo in Hb by lia. rewrite Hb. reflexivity.
  - destruct (body lo s) as [s1|]; cbn [bind]; [|reflexivity].
    apply (IH j); [lia|]. intros s2.
    replace (lo + 1 + Z.of_nat j)%Z with (lo + Z.of_nat (Datatypes.S j))%Z by lia.
    apply Hb.
Qed.

Lemma for_range_fails {S : Type} (j : nat) (lo hi : Z) (body : Z -> S -> option S) (s : S) :
  (lo + Z.of_nat j < hi)%Z -> (forall s, body (lo + Z.of_nat j)%Z s = None) ->
  for_range lo hi body s = None.
Proof.
  intros Hj Hb. unfold for_range. apply (@for_iter_fails S _ j); [lia | exact Hb].
Qed.

(** The loop of [diff2] keeps the length of the output. *)
Lemma diff2_loop_length (x ddg d1 : gsl_vector D) (k : nat) (lo : Z) :
  for_iter k lo
    (fun i ddg =>
       xm <- gsl_vector_get x (i - 1) ;;
       xi <- gsl_vector_get x i ;;
       xp <- gsl_vector_get x (i + 1) ;;
       gsl_vector_set ddg i (xm - of_int 2 * xi + xp)%dbl) ddg = Some d1 ->
  length d1 = length ddg.
Proof.
  apply (@for_iter_invariant _ (fun u : gsl_vector D => length u = length ddg));
    [|reflexivity].
  intros i u u' Lu Hb. cbv beta in Hb.
  destruct (gsl_vector_get x (i - 1)); cbn [bind] in Hb; [|discriminate].
  destruct (gsl_vector_get x i); cbn [bind] in Hb; [|discriminate].
  destruct (gsl_vector_get x (i + 1)); cbn [bind] in Hb; [|discriminate].
  apply set_length in Hb. lia.
Qed.

(** ** [diff2]: sizes it cannot handle *)

Lemma diff2_small_output (x ddg : gsl_vector D) :
  length ddg < 2 -> (Z.of_nat (length x) < 2 ^ 64 - 1)%Z ->
  diff2 x ddg = None.
Proof.
  intros Ld Lx. destruct ddg as [|c [|c' ddg]].
  - apply diff2_no_cell.
  - apply diff2_one_cell; [reflexivity | exact Lx].
  - simpl in Ld. lia.
Qed.

(** With an input shorter than the output the right boundary reads the
    input at the last index of the output. *)
Lemma diff2_input_too_short (x ddg : gsl_vector D) :
  2 <= length ddg -> length x < length ddg ->
  diff2 x ddg = None.
Proof.
  intros Hm Lx. unfold diff2.
  assert (S1 : size_t_sub (vsize ddg) 1 = Z.of_nat (length ddg - 1))
    by (unfold vsize; rewrite size_t_sub_small; lia).
  rewrite S1. unfold for_range.
  destruct (for_iter _ 1 _ ddg) as [d1|] eqn:E1; cbn [bind]; [|reflexivity].
  apply diff2_loop_length in E1.
  destruct (gsl_vector_get x 0) as [x0|]; cbn [bind]; [|reflexivity].
  destruct (gsl_vector_get x 1) as [x1|]; cbn [bind]; [|reflexivity].
  destruct (gsl_vector_set d1 0 _) as [d2|] eqn:E2; cbn [bind]; [|reflexivity].
  apply set_length in E2.
  assert (S3 : size_t_sub (vsize d2) 1 = Z.of_nat (length ddg - 1))
    by (unfold vsize; rewrite E2, E1, size_t_sub_small; lia).
  rewrite S3.
  destruct (gsl_vector_get x (size_t_sub (vsize d2) 2)) as [xa|]; cbn [bind];
    [|reflexivity].
  rewrite get_out_of_range by lia. reflexivity.
Qed.

(** X1.  [diff2] has no result unless the output has at least two cells
    and the input at least as many as the output: below two cells the
    unsigned [ddg->size - 1] or [ddg->size - 2] wraps around, and with a
    shorter input the right boundary reads it at the last index of the
    output; in both cases a GSL range check fires. *)
Theorem diff2_refuses (x ddg : gsl_vector D) :
  (Z.of_nat (length x) < 2 ^ 64 - 1)%Z ->
  length ddg < 2 \/ length x < length ddg ->
  diff2 x ddg = None.
Proof.
  intros Lx [H|H].
  - apply diff2_small_output; assumption.
  - destruct (Nat.lt_ge_cases (length ddg) 2) as [H2|H2].
    + apply diff2_small_output; assumption.
    + apply diff2_input_too_short; assumption.
Qed.

(** X2.  With an output of [m >= 2] cells and the first [m] cells of the
    input written, [diff2] writes every cell of the output: the result is
    fully written, has [m] cells and does not depend on what the output
    buffer held. *)
Theorem diff2_overwrites_output (m : nat) (x ddg ddg' : gsl_vector D) :
  2 <= m -> length ddg = m -> length ddg' = m -> m <= length x ->
  written (firstn m x) = true ->
  exists d : gsl_vector D,
    diff2 x ddg = Some d /\ diff2 x ddg' = Some d /\
    length d = m /\ written d = true.
Proof.
  intros Hm Ld Ld' Lx W. exists (vec (D2 x m)).
  split; [apply diff2_eval; auto|].
  split; [apply diff2_eval; auto|].
  split; [rewrite vec_length; apply D2_length | apply written_vec].
Qed.

(** ** The evaluators: sizes and bundles they cannot handle *)

Ltac step_or_fail :=
  match goal with
  | |- bind ?c _ = None =>
      let E := fresh "E" in
      destruct c eqn:E; cbn [bind]; [|reflexivity]
  end.

Lemma alloc_inv (z : Z) (v : gsl_vector D) :
  gsl_vector_alloc z = Some v -> (0 < z)%Z /\ v = repeat None (Z.to_nat z).
Proof.
  unfold gsl_vector_alloc. destruct (0 <? z)%Z eqn:E; [|discriminate].
  apply Z.ltb_lt in E. intros H. inversion H. auto.
Qed.



(** The bundle of the builder, for the two kernels, is one the evaluators
    accept. *)
Lemma kernel_matrix_valid (kernelType : Z) (t : gsl_vector D) (tau : list D)
    (n m : nat) :
  kernelType = 0%Z \/ kernelType = 1%Z ->
  length (kernel_matrix kernelType t tau n m) = n /\
  forallb (fun row => (length row =? m) && written row)
    (kernel_matrix kernelType t tau n m) = true.
Proof.
  intros HK.
  assert (G : forall f : nat -> nat -> D,
             length (map (fun i => vec (map (f i) (seq 0 m))) (seq 0 n)) = n /\
             forallb (fun row => (length row =? m) && written row)
               (map (fun i => vec (map (f i) (seq 0 m))) (seq 0 n)) = true).
  { intros f. split; [rewrite length_map, length_seq; reflexivity|].
    apply forallb_forall. intros row Hrow. apply in_map_iff in Hrow.
    destruct Hrow as (i & <- & _).
    rewrite vec_length, length_map, length_seq, Nat.eqb_refl, written_vec.
    reflexivity. }
  unfold kernel_matrix. destruct HK as [-> | ->]; cbn [Z.eqb]; apply G.
Qed.

Lemma built_bundle_valid (kernelType : Z) (t y var : gsl_vector D)
    (alpha tau0 tau1 : D) (n m : nat) :
  kernelType = 0%Z \/ kernelType = 1%Z ->
  length y = n -> written y = true ->
  valid_parameter n m
    {| p_K := kernel_matrix kernelType t (tau_grid tau0 tau1 m) n m;
       p_y := y;
       p_t := t;
       p_tau := vec (tau_grid tau0 tau1 m);
       p_w := vec (noise_weights var n);
       p_c := vec (quadrature tau0 tau1 m);
       p_alpha := alpha |}.
Proof.
  intros HK Ly Wy.
  destruct (kernel_matrix_valid t (tau_grid tau0 tau1 m) n m HK) as [LK WK].
  unfold valid_parameter. cbn [p_K p_y p_w p_c].
  repeat split; auto using written_vec.
  - unfold noise_weights. rewrite vec_length, length_map, length_seq. reflexivity.
  - unfold quadrature. rewrite vec_length, length_map, length_seq. reflexivity.
Qed.

(** X4.  The builder and the evaluators compose: for the exponential and
    the lorentzian kernel, [n >= 1] written samples and [m >= 2] grid
    points, the bundle [parameter_alloc] returns is accepted by [fun],
    [fun_df], [fun_fdf] and [fun_Hv] at every written coefficient vector of
    [m + 1] cells. *)
Theorem parameter_alloc_feeds_evaluators (t y var : gsl_vector D)
    (alpha tau0 tau1 : D) (n m : nat) (kernelType : Z) :
  kernelType = 0%Z \/ kernelType = 1%Z ->
  1 <= n -> 2 <= m ->
  length t = n -> length y = n -> length var = n ->
  written t = true -> written y = true -> written var = true ->
  exists p : parameter D,
    parameter_alloc t y var alpha tau0 tau1 (Z.of_nat m) kernelType = Some p /\
    forall x v grad hv : gsl_vector D,
      length x = m + 1 -> written x = true ->
      length v = m + 1 -> written v = true ->
      length grad = m + 1 -> length hv = m + 1 ->
      (exists f, fun_ x p = Some f) /\
      (exists g, fun_df x p grad = Some g /\ length g = m + 1) /\
      (exists f g, fun_fdf x p grad = Some (f, g) /\ length g = m + 1) /\
      (exists h, fun_Hv x p v hv = Some h /\ length h = m + 1).
Proof.
  intros HK Hn Hm Lt Ly Lv Wt Wy Wv.
  eexists. split.
  - apply parameter_alloc_eval with (n := n); auto; try lia.
    apply written_firstn. exact Wv.
  - set (p := Build_parameter _ _ _ _ _ _ _).
    assert (Hp : valid_parameter n m p)
      by (apply built_bundle_valid; assumption).
    intros x v grad hv Lx Wx Lvv Wvv Lg Lh.
    split; [|split; [|split]].
    + eexists. apply (@fun_eval D ops n m p x); auto.
    + eexists. split; [apply (@fun_df_eval D ops n m p x); auto; lia|].
      rewrite vec_length. unfold gradient, gradient_of.
      rewrite length_app, length_map, length_seq. reflexivity.
    + do 2 eexists. split; [apply (@fun_fdf_eval D ops n m p x); auto; lia|].
      rewrite vec_length. unfold gradient, gradient_of.
      rewrite length_app, length_map, length_seq. reflexivity.
    + eexists. split; [apply (@fun_Hv_eval D ops n m p x v); auto|].
      rewrite vec_length. unfold Hv_code.
      rewrite length_app, length_map, length_seq. reflexivity.
Qed.
(** ** Inputs the builder refuses *)

Lemma matrix_alloc_refused (n m : Z) :
  (n <= 0)%Z \/ (m <= 0)%Z -> gsl_matrix_alloc (D := D) n m = None.
Proof.
  intros H. unfold gsl_matrix_alloc.
  destruct (0 <? n)%Z eqn:E1; [|reflexivity].
  destruct (0 <? m)%Z eqn:E2; [|reflexivity].
  apply Z.ltb_lt in E1, E2. lia.
Qed.

Lemma memcpy_refused (dest src : gsl_vector D) :
  length dest <> length src -> gsl_vector_memcpy dest src = None.
Proof.
  intros H. unfold gsl_vector_memcpy, vsize.
  replace (Z.of_nat (length dest) =? Z.of_nat (length src))%Z with false
    by (symmetry; apply Z.eqb_neq; lia).
  reflexivity.
Qed.

(** X6.  What the builder does refuse, through the checks of GSL: a grid
    size [m <= 0], no sample at all, a [y] whose length is not that of [t],
    and a [var] shorter than [t]. *)
Theorem parameter_alloc_refuses (t y var : gsl_vector D) (alpha tau0 tau1 : D)
    (m kernelType : Z) :
  (m <= 0)%Z \/ length t = 0 \/ length y <> length t \/ length var < length t ->
  parameter_alloc t y var alpha tau0 tau1 m kernelType = None.
Proof.
  intros H. unfold parameter_alloc.
  destruct H as [H | [H | [H | H]]].
  - rewrite matrix_alloc_refused by (right; exact H). reflexivity.
  - rewrite matrix_alloc_refused by (left; unfold vsize; lia). reflexivity.
  - do 3 step_or_fail.
    apply alloc_inv in E0. destruct E0 as [Hpos ->].
    rewrite memcpy_refused; [reflexivity|].
    rewrite repeat_length. unfold vsize. lia.
  - do 6 step_or_fail.
    match goal with
    | |- bind (for_range ?lo ?hi ?body ?s) _ = None =>
        rewrite (@for_range_fails _ (length var) lo hi body s);
          [reflexivity | unfold vsize; lia | intros ?; cbv beta]
    end.
    step_or_fail. rewrite get_out_of_range by lia. reflexivity.
Qed.

(** ** The inversion driver: its iterations, and what it refuses *)

(** The loop of [contin], iteration by iteration. *)
Lemma iteration_loop_trace (o : ool_conmin D) (fuel : nat) (nmax ii status : Z)
    (M : ool_conmin_minimizer o) :
  (ii <= nmax)%Z -> (nmax - ii <= Z.of_nat fuel)%Z ->
  exists k : nat,
    fst (fst (iteration_loop o fuel nmax ii status M)) = (ii + Z.of_nat k)%Z /\
    snd (iteration_loop o fuel nmax ii status M)
    = Nat.iter k (ool_conmin_minimizer_iterate o) M /\
    (forall j, 1 <= j < k ->
       ool_conmin_is_optimal o (Nat.iter j (ool_conmin_minimizer_iterate o) M)
       = OOL_CONTINUE o) /\
    (k = 0 ->
       snd (fst (iteration_loop o fuel nmax ii status M)) = status /\
       (status <> OOL_CONTINUE o \/ ii = nmax)) /\
    (1 <= k ->
       status = OOL_CONTINUE o /\
       snd (fst (iteration_loop o fuel nmax ii status M))
       = ool_conmin_is_optimal o (Nat.iter k (ool_conmin_minimizer_iterate o) M) /\
       (snd (fst (iteration_loop o fuel nmax ii status M)) <> OOL_CONTINUE o \/
        (ii + Z.of_nat k)%Z = nmax)).
Proof.
  revert ii status M. induction fuel as [|fuel IH]; intros ii status M Hi Hf.
  - exists 0. cbn [iteration_loop fst snd Nat.iter nat_rect].
    split; [lia|]. split; [reflexivity|]. split; [intros j Hj; lia|].
    split; [intros _; split; [reflexivity | right; lia] | intros Hk; lia].
  - cbn [iteration_loop].
    destruct (ii <? nmax)%Z eqn:E1; cbn [andb].
    + destruct (status =? OOL_CONTINUE o)%Z eqn:E2.
      * apply Z.ltb_lt in E1. apply Z.eqb_eq in E2. cbv zeta.
        destruct (IH (ii + 1)%Z
                    (ool_conmin_is_optimal o (ool_conmin_minimizer_iterate o M))
                    (ool_conmin_minimizer_iterate o M) ltac:(lia) ltac:(lia))
          as (k & Hc & HM & Hmid & H0 & H1).
        exists (Datatypes.S k).
        assert (It : forall j,
                   Nat.iter (Datatypes.S j) (ool_conmin_minimizer_iterate o) M
                   = Nat.iter j (ool_conmin_minimizer_iterate o)
                       (ool_conmin_minimizer_iterate o M))
          by (intros j; apply Nat.iter_succ_r).
        split; [rewrite Hc; lia|]. split; [rewrite HM, It; reflexivity|].
        split; [|split; [intros Hk; lia|]].
        -- intros j Hj. destruct j as [|j]; [lia|]. rewrite It.
           destruct j as [|j].
           ++ cbn [Nat.iter nat_rect]. apply H1. lia.
           ++ apply Hmid. lia.
        -- intros _. split; [exact E2|]. rewrite It.
           destruct k as [|k].
           ++ destruct (H0 eq_refl) as [S0 X0]. cbn [Nat.iter nat_rect].
              split; [exact S0|]. rewrite S0. destruct X0 as [X0|X0]; [left; exact X0|].
              right. lia.
           ++ destruct (H1 ltac:(lia)) as (_ & S1 & X1).
              split; [exact S1|]. destruct X1 as [X1|X1]; [left; exact X1|].
              right. lia.
      * apply Z.eqb_neq in E2. exists 0. cbn [fst snd Nat.iter nat_rect].
        split; [lia|]. split; [reflexivity|]. split; [intros j Hj; lia|].
        split; [intros _; split; [reflexivity | left; exact E2] | intros Hk; lia].
    + apply Z.ltb_ge in E1. exists 0. cbn [fst snd Nat.iter nat_rect].
      split; [lia|]. split; [reflexivity|]. split; [intros j Hj; lia|].
      split; [intros _; split; [reflexivity | right; lia] | intros Hk; lia].
Qed.

(** The loop of [contin] started on the minimizer that [contin] sets up:
    the count, the status and the minimizer it ends with. *)
Lemma contin_run_trace (o : ool_conmin D) (p : parameter D) (m : nat) :
  exists N : nat,
    final_count o p m = Z.of_nat N /\ 1 <= N /\ (Z.of_nat N <= 100000)%Z /\
    snd (contin_run o p m)
    = Nat.iter N (ool_conmin_minimizer_iterate o) (contin_minimizer o p m) /\
    (forall j, 1 <= j < N ->
       ool_conmin_is_optimal o
         (Nat.iter j (ool_conmin_minimizer_iterate o) (contin_minimizer o p m))
       = OOL_CONTINUE o) /\
    final_status o p m
    = ool_conmin_is_optimal o
        (Nat.iter N (ool_conmin_minimizer_iterate o) (contin_minimizer o p m)) /\
    ((Z.of_nat N < 100000)%Z -> final_status o p m <> OOL_CONTINUE o).
Proof.
  unfold final_count, final_status, contin_run.
  destruct (@iteration_loop_trace o (Z.to_nat 100000) 100000 0 (OOL_CONTINUE o)
              (contin_minimizer o p m) ltac:(lia) ltac:(lia))
    as (k & Hc & HM & Hmid & H0 & H1).
  destruct k as [|k].
  - destruct (H0 eq_refl) as [_ [X|X]]; [contradiction | lia].
  - destruct (H1 ltac:(lia)) as (_ & S1 & X1).
    assert (B : (0 <= fst (fst (iteration_loop o (Z.to_nat 100000) 100000 0
                                  (OOL_CONTINUE o) (contin_minimizer o p m)))
                 <= 100000)%Z).
    { pose proof (@iteration_loop_exit D o (Z.to_nat 100000) 100000 0
                    (OOL_CONTINUE o) (contin_minimizer o p m)
                    ltac:(lia) ltac:(lia)) as H.
      cbv zeta in H. lia. }
    exists (Datatypes.S k).
    split; [rewrite Hc; lia|]. split; [lia|]. split; [lia|]. split; [exact HM|].
    split; [exact Hmid|]. split; [exact S1|].
    intros HN. destruct X1 as [X1|X1]; [exact X1 | lia].
Qed.

(** X7.  A call of [contin] whose optimizer keeps a point of [m + 1]
    written cells iterates [N] times with [1 <= N <= 100000]: [N] is the
    first iterate at which [ool_conmin_is_optimal] answers something other
    than [OOL_CONTINUE], or 100000 when there is none.  The line [contin]
    prints carries this [N], and is the line of convergence exactly when
    the answer at iterate [N] is [OOL_SUCCESS]; the amplitudes and the
    offset it copies out are the cells of the point of iterate [N]. *)
Theorem contin_iterations (o : ool_conmin D) (p : parameter D)
    (s g : gsl_vector D) (m : nat) :
  length g = m -> length s = length (p_tau p) ->
  (forall k, 1 <= k ->
     length (M_x o (Nat.iter k (ool_conmin_minimizer_iterate o)
                      (contin_minimizer o p m))) = m + 1 /\
     written (M_x o (Nat.iter k (ool_conmin_minimizer_iterate o)
                       (contin_minimizer o p m))) = true) ->
  exists (N : nat) (r : contin_result D),
    contin o p s g = Some r /\
    1 <= N /\ (Z.of_nat N <= 100000)%Z /\
    (forall j, 1 <= j < N ->
       ool_conmin_is_optimal o
         (Nat.iter j (ool_conmin_minimizer_iterate o) (contin_minimizer o p m))
       = OOL_CONTINUE o) /\
    ((Z.of_nat N < 100000)%Z ->
       ool_conmin_is_optimal o
         (Nat.iter N (ool_conmin_minimizer_iterate o) (contin_minimizer o p m))
       <> OOL_CONTINUE o) /\
    r_stdout r
    = (if (ool_conmin_is_optimal o
             (Nat.iter N (ool_conmin_minimizer_iterate o) (contin_minimizer o p m))
           =? OOL_SUCCESS o)%Z
       then Convergence_in_iterations (Z.of_nat N)
       else Stopped_with_iterations (Z.of_nat N)) /\
    r_g r
    = vec (map (vget (M_x o (Nat.iter N (ool_conmin_minimizer_iterate o)
                               (contin_minimizer o p m))))
             (seq 0 m)) /\
    r_b r
    = vget (M_x o (Nat.iter N (ool_conmin_minimizer_iterate o)
                     (contin_minimizer o p m))) m.
Proof.
  intros Lg Ls Hpt.
  destruct (contin_run_trace o p m) as (N & Hc & H1 & H2 & HM & Hmid & HS & Hstop).
  assert (P : final_point o p m
              = M_x o (Nat.iter N (ool_conmin_minimizer_iterate o)
                         (contin_minimizer o p m)))
    by (unfold final_point; rewrite HM; reflexivity).
  destruct (Hpt N H1) as [Lx Wx].
  exists N, (contin_outcome o p m).
  split.
  - apply contin_eval; auto; rewrite P; assumption.
  - split; [exact H1|]. split; [exact H2|]. split; [exact Hmid|].
    split; [rewrite <- HS; exact Hstop|].
    cbn [contin_outcome r_stdout r_g r_b]. rewrite P, HS, Hc.
    repeat split.
Qed.

(** [contin] from the end of its loop on: what it copies out of the
    optimizer's final point. *)
Lemma contin_after_the_loop (o : ool_conmin D) (p : parameter D)
    (s g : gsl_vector D) :
  contin o p s g
  = (s' <- gsl_vector_memcpy s (p_tau p) ;;
     g' <- for_range 0 (vsize g)
             (fun i u =>
                xi <- gsl_vector_get (final_point o p (length g)) i ;;
                gsl_vector_set u i xi)
             g ;;
     b <- gsl_vector_get (final_point o p (length g)) (vsize g) ;;
     Some {| r_return := OOL_SUCCESS o; r_s := s'; r_g := g'; r_b := b;
             r_stdout :=
               if (final_status o p (length g) =? OOL_SUCCESS o)%Z
               then Convergence_in_iterations (final_count o p (length g))
               else Stopped_with_iterations (final_count o p (length g)) |}).
Proof.
  unfold contin.
  set (m := length g) in *.
  assert (Sg : vsize g = Z.of_nat m) by reflexivity.
  rewrite Sg.
  rewrite (@alloc_at D (Z.of_nat m + 1) (m + 1)) by lia. cbn [bind].
  rewrite !set_all_repeat.
  assert (SX : size_t_sub (vsize (vec (repeat (of_int 1) (m + 1)))) 1 = Z.of_nat m).
  { unfold vsize. rewrite vec_length, repeat_length.
    rewrite size_t_sub_small; lia. }
  rewrite SX.
  rewrite (@set_at D _ (Z.of_nat m) m) by (rewrite ?vec_length, ?repeat_length; lia).
  cbn [bind]. rewrite start_point.
  change (iteration_loop o (Z.to_nat 100000) 100000 0 (OOL_CONTINUE o) _)
    with (contin_run o p m).
  unfold final_point, final_status, final_count.
  destruct (contin_run o p m) as [[ii status] M]. cbn [fst snd].
  reflexivity.
Qed.

Lemma contin_short_final_point (o : ool_conmin D) (p : parameter D)
    (s g : gsl_vector D) :
  length (final_point o p (length g)) < length g + 1 ->
  contin o p s g = None.
Proof.
  intros H. rewrite contin_after_the_loop.
  do 2 step_or_fail. rewrite get_out_of_range by (unfold vsize; lia).
  reflexivity.
Qed.

(** X8.  [contin] has no result when [s] has not the length of the grid of
    the bundle, or when the optimizer's final point has fewer than
    [g->size + 1] cells; both are found out only after the optimizer has
    run. *)
Theorem contin_refuses (o : ool_conmin D) (p : parameter D) (s g : gsl_vector D) :
  length s <> length (p_tau p) \/
  length (final_point o p (length g)) < length g + 1 ->
  contin o p s g = None.
Proof.
  intros H. rewrite contin_after_the_loop.
  destruct H as [H|H].
  - rewrite memcpy_refused by exact H. reflexivity.
  - step_or_fail.
    match goal with
    | |- bind ?c _ = None => destruct c; cbn [bind]; [|reflexivity]
    end.
    rewrite get_out_of_range by (unfold vsize; lia). reflexivity.
Qed.

(** ** The test signal of [example] *)

Lemma steps_triple {A B C : Type} (F : nat -> A -> A) (G : nat -> B -> B)
    (H : nat -> C -> C) (k : nat) (a : A) (b : B) (c : C) :
  steps (fun i st => (F i (fst (fst st)), G i (snd (fst st)), H i (snd st))) k (a, b, c)
  = (steps F k a, steps G k b, steps H k c).
Proof.
  induction k as [|k IH]; simpl; auto. rewrite IH. reflexivity.
Qed.

Lemma set_out_of_range (v : gsl_vector D) (i : Z) (d : D) :
  (Z.of_nat (length v) <= i)%Z -> gsl_vector_set v i d = None.
Proof.
  intros H. unfold gsl_vector_set, vsize.
  replace (i <? Z.of_nat (length v))%Z with false by (symmetry; apply Z.ltb_ge; lia).
  rewrite andb_false_r. reflexivity.
Qed.

(** A loop one of whose iterations fails in every state that satisfies an
    invariant of the loop has no result. *)
Lemma for_iter_fails_under {S : Type} (I : S -> Prop) (k j : nat) (lo : Z)
    (body : Z -> S -> option S) (s : S) :
  j < k -> I s ->
  (forall i s s', I s -> body i s = Some s' -> I s') ->
  (forall s, I s -> body (lo + Z.of_nat j)%Z s = None) ->
  for_iter k lo body s = None.
Proof.
  intros Hj Hs Hpres. revert j lo s Hj Hs.
  induction k as [|k IH]; intros j lo s Hj Hs Hb; [lia|].
  cbn [for_iter]. destruct j as [|j].
  - replace (lo + Z.of_nat 0)%Z with lo in Hb by lia. rewrite Hb by exact Hs.
    reflexivity.
  - destruct (body lo s) as [s1|] eqn:E; cbn [bind]; [|reflexivity].
    apply (IH j); [lia | eapply Hpres; eauto |]. intros s2 Hs2.
    replace (lo + 1 + Z.of_nat j)%Z with (lo + Z.of_nat (Datatypes.S j))%Z by lia.
    apply Hb. exact Hs2.
Qed.

Lemma for_range_fails_under {S : Type} (I : S -> Prop) (j : nat) (lo hi : Z)
    (body : Z -> S -> option S) (s : S) :
  (lo + Z.of_nat j < hi)%Z -> I s ->
  (forall i s s', I s -> body i s = Some s' -> I s') ->
  (forall s, I s -> body (lo + Z.of_nat j)%Z s = None) ->
  for_range lo hi body s = None.
Proof.
  intros Hj Hs Hp Hb. unfold for_range.
  apply (@for_iter_fails_under S I _ j); auto. lia.
Qed.

Section Example.

Variables (intensity tau t y var : gsl_vector D) (t0 tend : D).

Lemma example_inner_loop (ti : D) :
  length tau <= length intensity ->
  written (firstn (length tau) intensity) = true -> written tau = true ->
  for_range 0 (vsize tau)
    (fun k yi =>
       ik <- gsl_vector_get intensity k ;;
       tk <- gsl_vector_get tau k ;;
       Some (yi + ik * dexp (- ti / tk))%dbl)
    (of_int 0)
  = Some (multi_exponential intensity tau ti).
Proof.
  intros Li Wi Wt. unfold multi_exponential.
  apply for_range_sum; [reflexivity|].
  intros k acc Hk.
  rewrite (@get_at D ops intensity _ k) by
    first [reflexivity | lia | apply (written_firstn_nth intensity Wi); lia].
  cbn [bind]. rewrite get_written by assumption. reflexivity.
Qed.

Lemma example_inner_loop_fails (ti : D) :
  length intensity < length tau ->
  for_range 0 (vsize tau)
    (fun k yi =>
       ik <- gsl_vector_get intensity k ;;
       tk <- gsl_vector_get tau k ;;
       Some (yi + ik * dexp (- ti / tk))%dbl)
    (of_int 0)
  = None.
Proof.
  intros Li. apply (@for_range_fails D (length intensity)).
  - unfold vsize. lia.
  - intros s. rewrite get_out_of_range by lia. reflexivity.
Qed.

Lemma example_eval (k : nat) :
  length tau <= length intensity ->
  written (firstn (length tau) intensity) = true -> written tau = true ->
  k <= length t -> k <= length y -> k <= length var ->
  example intensity tau t y var (Z.of_nat k) t0 tend
  = Some (fill 0 (sample_time t0 tend (Z.of_nat k)) k t,
          fill 0 (fun i => multi_exponential intensity tau
                             (sample_time t0 tend (Z.of_nat k) i)) k y,
          fill 0 (fun _ => of_int 1) k var).
Proof.
  intros Li Wi Wt Lt Ly Lv. unfold example.
  pose (F := fun (i : nat) (st : gsl_vector D * gsl_vector D * gsl_vector D) =>
               (list_update (fst (fst st)) (0 + i)
                  (Some (sample_time t0 tend (Z.of_nat k) i)),
                list_update (snd (fst st)) (0 + i)
                  (Some (multi_exponential intensity tau
                           (sample_time t0 tend (Z.of_nat k) i))),
                list_update (snd st) (0 + i) (Some (of_int 1)))).
  match goal with
  | |- for_range _ _ ?body ?s = _ =>
      destruct (@for_range_steps _
                  (fun st : gsl_vector D * gsl_vector D * gsl_vector D =>
                     length (fst (fst st)) = length t /\
                     length (snd (fst st)) = length y /\
                     length (snd st) = length var)
                  F k 0%Z (Z.of_nat k) body s) as [E _]
  end.
  - lia.
  - cbn [fst snd]. auto.
  - intros i st Hi (L1 & L2 & L3). cbv beta.
    rewrite example_inner_loop by assumption. cbn [bind].
    rewrite (@set_at D _ _ i) by lia. cbn [bind].
    rewrite (@set_at D _ _ i) by lia. cbn [bind].
    rewrite (@set_at D _ _ i) by lia. cbn [bind].
    split.
    + unfold F, sample_time. cbn [Nat.add Z.add].
      replace (0 + Z.of_nat i)%Z with (Z.of_nat i) by lia. reflexivity.
    + unfold F. cbn [fst snd]. rewrite !list_update_length. auto.
  - rewrite E. f_equal. unfold F.
    exact (@steps_triple _ _ _
             (fun i u => list_update u (0 + i)
                           (Some (sample_time t0 tend (Z.of_nat k) i)))
             (fun i u => list_update u (0 + i)
                           (Some (multi_exponential intensity tau
                                    (sample_time t0 tend (Z.of_nat k) i))))
             (fun i u => list_update u (0 + i) (Some (of_int 1)))
             k t y var).
Qed.

End Example.

(** X9.  [example] writes the first [n] cells of [t], [y] and [var] and
    nothing else: cell [i < n] of [t] is the sample time
    [t0 + (tend - t0) / (n - 1) * i], that of [y] the multi-exponential
    [Sum_k I_k exp (- t_i / tau_k)] at that time, that of [var] is [1];
    the cells from [n] on keep what they held, and with [n <= 0] nothing
    is written at all. *)
Theorem example_writes_n_samples (intensity tau t y var : gsl_vector D)
    (n : Z) (t0 tend : D) :
  length tau <= length intensity ->
  written (firstn (length tau) intensity) = true -> written tau = true ->
  Z.to_nat n <= length t -> Z.to_nat n <= length y -> Z.to_nat n <= length var ->
  exists t' y' var' : gsl_vector D,
    example intensity tau t y var n t0 tend = Some (t', y', var') /\
    length t' = length t /\ length y' = length y /\ length var' = length var /\
    (forall i, i < Z.to_nat n ->
       nth i t' None = Some (sample_time t0 tend n i) /\
       nth i y' None
       = Some (multi_exponential intensity tau (sample_time t0 tend n i)) /\
       nth i var' None = Some (of_int 1)) /\
    (forall i, Z.to_nat n <= i ->
       nth i t' None = nth i t None /\ nth i y' None = nth i y None /\
       nth i var' None = nth i var None).
Proof.
  intros Li Wi Wt Lt Ly Lv.
  destruct (Z_le_gt_dec n 0) as [Hn|Hn].
  - exists t, y, var. split.
    + unfold example, for_range.
      replace (Z.to_nat (n - 0)) with 0 by lia. reflexivity.
    + repeat split; auto; replace (Z.to_nat n) with 0 in * by lia; lia.
  - set (k := Z.to_nat n) in *.
    assert (En : n = Z.of_nat k) by (unfold k; lia).
    rewrite En.
    eexists _, _, _. split; [apply example_eval; assumption|].
    rewrite !fill_length. repeat split; auto.
    + rewrite nth_fill by lia.
      replace (0 <=? i) with true by (symmetry; apply Nat.leb_le; lia).
      replace (i <? 0 + k) with true by (symmetry; apply Nat.ltb_lt; lia).
      cbn [andb]. rewrite Nat.sub_0_r. reflexivity.
    + rewrite nth_fill by lia.
      replace (0 <=? i) with true by (symmetry; apply Nat.leb_le; lia).
      replace (i <? 0 + k) with true by (symmetry; apply Nat.ltb_lt; lia).
      cbn [andb]. rewrite Nat.sub_0_r. reflexivity.
    + rewrite nth_fill by lia.
      replace (0 <=? i) with true by (symmetry; apply Nat.leb_le; lia).
      replace (i <? 0 + k) with true by (symmetry; apply Nat.ltb_lt; lia).
      cbn [andb]. reflexivity.
    + rewrite nth_fill by lia.
      replace (i <? 0 + k) with false by (symmetry; apply Nat.ltb_ge; lia).
      rewrite andb_false_r. reflexivity.
    + rewrite nth_fill by lia.
      replace (i <? 0 + k) with false by (symmetry; apply Nat.ltb_ge; lia).
      rewrite andb_false_r. reflexivity.
    + rewrite nth_fill by lia.
      replace (i <? 0 + k) with false by (symmetry; apply Nat.ltb_ge; lia).
      rewrite andb_false_r. reflexivity.
Qed.

(** X10.  [example] has no result when it is asked for at least one
    sample and [intensity] has fewer cells than [tau], or one of [t], [y]
    and [var] has fewer than [n] cells: a GSL range check fires. *)
Theorem example_refuses (intensity tau t y var : gsl_vector D)
    (n : Z) (t0 tend : D) :
  (1 <= n)%Z ->
  length intensity < length tau \/
  (Z.of_nat (length t) < n)%Z \/ (Z.of_nat (length y) < n)%Z \/
  (Z.of_nat (length var) < n)%Z ->
  example intensity tau t y var n t0 tend = None.
Proof.
  intros Hn H. unfold example.
  set (I := fun st : gsl_vector D * gsl_vector D * gsl_vector D =>
              length (fst (fst st)) = length t /\
              length (snd (fst st)) = length y /\
              length (snd st) = length var).
  assert (Pres : forall i st st', I st ->
            (yi <- for_range 0 (vsize tau)
                     (fun k yi =>
                        ik <- gsl_vector_get intensity k ;;
                        tk <- gsl_vector_get tau k ;;
                        Some (yi + ik * dexp (- (t0 + (tend - t0) / of_int (n - 1)
                                                       * of_int i) / tk))%dbl)
                     (of_int 0) ;;
             t1 <- gsl_vector_set (fst (fst st)) i
                     (t0 + (tend - t0) / of_int (n - 1) * of_int i)%dbl ;;
             y1 <- gsl_vector_set (snd (fst st)) i yi ;;
             var1 <- gsl_vector_set (snd st) i (of_int 1) ;;
             Some (t1, y1, var1)) = Some st' -> I st').
  { intros i st st' (L1 & L2 & L3) E.
    destruct (for_range 0 (vsize tau) _ (of_int 0)) as [yi|]; cbn [bind] in E;
      [|discriminate].
    destruct (gsl_vector_set (fst (fst st)) i _) as [t1|] eqn:E1; cbn [bind] in E;
      [|discriminate].
    destruct (gsl_vector_set (snd (fst st)) i _) as [y1|] eqn:E2; cbn [bind] in E;
      [|discriminate].
    destruct (gsl_vector_set (snd st) i _) as [v1|] eqn:E3; cbn [bind] in E;
      [|discriminate].
    inversion E; subst st'. unfold I. cbn [fst snd].
    apply set_length in E1, E2, E3. lia. }
  destruct H as [H|[H|[H|H]]].
  - apply (@for_range_fails _ 0); [lia|]. intros st.
    rewrite example_inner_loop_fails by exact H. reflexivity.
  - apply (@for_range_fails_under _ I (length t)); [lia | unfold I; auto | exact Pres |].
    intros st (L1 & L2 & L3). step_or_fail.
    rewrite set_out_of_range by lia. reflexivity.
  - apply (@for_range_fails_under _ I (length y)); [lia | unfold I; auto | exact Pres |].
    intros st (L1 & L2 & L3). do 2 step_or_fail.
    rewrite set_out_of_range by lia. reflexivity.
  - apply (@for_range_fails_under _ I (length var)); [lia | unfold I; auto | exact Pres |].
    intros st (L1 & L2 & L3). do 3 step_or_fail.
    rewrite set_out_of_range by lia. reflexivity.
Qed.

(** ** The two columns of [saveData] *)

Lemma steps_snoc {B : Type} (f : nat -> B) (k : nat) (l : list B) :
  steps (fun i rows => rows ++ [f i]) k l = l ++ map f (seq 0 k).
Proof.
  induction k as [|k IH]; cbn [steps].
  - cbn [seq map]. rewrite app_nil_r. reflexivity.
  - rewrite IH, seq_S, map_app, <- app_assoc. reflexivity.
Qed.

Lemma saveData_eval (x y : gsl_vector D) (fileName : String.string) :
  length x <= length y -> written x = true ->
  written (firstn (length x) y) = true ->
  saveData x y fileName
  = Some {| file_name := fileName;
            file_rows := map (fun i => (vget x i, vget y i)) (seq 0 (length x)) |}.
Proof.
  intros L Wx Wy. unfold saveData.
  rewrite (@for_range_pure _ (fun i rows => rows ++ [(vget x i, vget y i)])
             (length x) 0%Z (vsize x)).
  - cbn [bind]. rewrite steps_snoc. reflexivity.
  - unfold vsize. lia.
  - intros i rows Hi. cbn [Z.add].
    rewrite get_written by assumption. cbn [bind].
    rewrite (@get_at D ops y _ i) by
      first [reflexivity | lia | apply (written_firstn_nth y Wy); lia].
    reflexivity.
Qed.

(** X11.  [saveData] writes one row [(x_i, y_i)] for every cell of [x], in
    order, and ignores the cells of [y] beyond; when [y] is shorter than
    [x] it has no result, the GSL range check stopping it at row
    [y->size]. *)
Theorem saveData_rows (x y : gsl_vector D) (fileName : String.string) :
  written x = true ->
  (length x <= length y -> written (firstn (length x) y) = true ->
   exists f : text_file D,
     saveData x y fileName = Some f /\ file_name f = fileName /\
     length (file_rows f) = length x /\
     forall i, i < length x ->
       nth_error (file_rows f) i = Some (vget x i, vget y i)) /\
  (length y < length x -> saveData x y fileName = None).
Proof.
  intros Wx. split.
  - intros L Wy. eexists. split; [apply saveData_eval; assumption|].
    cbn [file_name file_rows]. split; [reflexivity|].
    split; [rewrite length_map, length_seq; reflexivity|].
    intros i Hi.
    rewrite nth_error_map, nth_error_seq.
    replace (i <? length x) with true by (symmetry; apply Nat.ltb_lt; lia).
    reflexivity.
  - intros L. unfold saveData.
    rewrite (@for_range_fails _ (length y)); [reflexivity | unfold vsize; lia |].
    intros rows. cbn [Z.add]. step_or_fail.
    rewrite get_out_of_range by lia. reflexivity.
Qed.

(** ** The argument check of [mexFunction] *)

Lemma bind_never {A B : Type} (c : option A) (k : A -> option B) (b : B) :
  (forall a, k a <> Some b) -> bind c k <> Some b.
Proof.
  intros H. destruct c as [a|]; cbn [bind]; [apply H | discriminate].
Qed.

(** X12.  [mexFunction] ends in the usage error exactly when the number of
    outputs is not 3: the condition [nrhs =! 8 || nlhs != 3] overwrites
    [nrhs] and tests [nlhs] only, so the number of inputs is never
    examined. *)
Theorem mexFunction_checks_the_outputs_only (double_to_int : D -> Z)
    (o : ool_conmin D) (nlhs nrhs : Z) (prhs : list (mxArray D)) :
  (nlhs <> 3%Z -> mexFunction double_to_int o nlhs nrhs prhs
                  = Some mexErrMsgTxt_usage) /\
  (nlhs = 3%Z -> mexFunction double_to_int o nlhs nrhs prhs
                 <> Some mexErrMsgTxt_usage).
Proof.
  split.
  - intros H. unfold mexFunction.
    replace (nlhs =? 3)%Z with false by (symmetry; apply Z.eqb_neq; exact H).
    reflexivity.
  - intros ->. unfold mexFunction. cbn [Z.eqb Pos.eqb orb negb].
    repeat (apply bind_never; intros ?). discriminate.
Qed.

(** X13.  Called with three outputs and fewer than eight inputs,
    [mexFunction] has no result: it goes on to read [prhs[0]] to
    [prhs[7]]. *)
Theorem mexFunction_reads_eight_inputs (double_to_int : D -> Z)
    (o : ool_conmin D) (nrhs : Z) (prhs : list (mxArray D)) :
  length prhs < 8 ->
  mexFunction double_to_int o 3 nrhs prhs = None.
Proof.
  intros L. unfold mexFunction. cbn [Z.eqb Pos.eqb orb negb].
  assert (N : nth_error prhs 7 = None) by (apply nth_error_None; lia).
  repeat step_or_fail. rewrite N in *. discriminate.
Qed.

(** ** The test program *)

Lemma written_list_update (v : gsl_vector D) (i : nat) (d : D) :
  written v = true -> written (list_update v i (Some d)) = true.
Proof.
  unfold written. revert i. induction v as [|c v IH]; intros i W; [destruct i; exact W|].
  cbn [forallb] in W. apply andb_true_iff in W. destruct W as [Wc Wv].
  destruct i as [|i]; cbn [list_update forallb].
  - exact Wv.
  - rewrite Wc. cbn [andb]. apply IH. exact Wv.
Qed.

Lemma fill_repeat (g : nat -> D) (k : nat) :
  fill 0 g k (repeat None k) = vec (map g (seq 0 k)).
Proof.
  pose proof (fill_all g (repeat None k)) as H.
  rewrite repeat_length in H. exact H.
Qed.

Lemma main_parameter_valid (c : main_literals D) :
  valid_parameter (Z.to_nat 1000) 10 (main_parameter c).
Proof.
  unfold main_parameter. apply built_bundle_valid.
  - left. reflexivity.
  - unfold main_y. rewrite vec_length, length_map, length_seq. reflexivity.
  - apply written_vec.
Qed.

Lemma main_X_length : length (main_X (D := D)) = 10 + 1.
Proof. reflexivity. Qed.

Lemma gradient_cells (x : gsl_vector D) (p : parameter D) (n m : nat) :
  length (gradient x p n m) = m + 1.
Proof.
  unfold gradient, gradient_of. rewrite length_app, length_map, length_seq.
  reflexivity.
Qed.

(** The difference loop of [main]. *)
Lemma main_difference_loop (c : main_literals D) :
  for_range 0 (10 + 1)
    (fun i st =>
       xi <- gsl_vector_get (fst st) i ;;
       X <- gsl_vector_set (fst st) i (xi + lit_1e_5 c)%dbl ;;
       fh <- fun_ X (main_parameter c) ;;
       gi <- gsl_vector_get
               (vec (gradient main_X (main_parameter c) (Z.to_nat 1000) 10)) i ;;
       let line := {| G_index := i; G_gradient := gi;
                      G_quotient :=
                        ((fh - objective main_X (main_parameter c) (Z.to_nat 1000) 10)
                         / lit_1e_5 c)%dbl |} in
       xi <- gsl_vector_get X i ;;
       X <- gsl_vector_set X i (xi - lit_1e_5 c)%dbl ;;
       Some (X, snd st ++ [line]))
    (main_X, [])
  = Some (steps (difference_step c) 11 (main_X, [])).
Proof.
  match goal with
  | |- for_range _ _ ?body ?s = _ =>
      destruct (@for_range_steps _
                  (fun st : gsl_vector D * list (G_line D) =>
                     length (fst st) = 11 /\ written (fst st) = true)
                  (difference_step c) 11 0%Z (10 + 1)%Z body s) as [E _]
  end.
  - reflexivity.
  - cbn [fst]. split; [reflexivity | apply written_vec].
  - intros i st Hi (L & W). cbv beta. cbn [Z.add].
    rewrite get_written by (auto; lia). cbn [bind].
    rewrite (@set_at D _ _ i) by lia. cbn [bind].
    set (X1 := list_update (fst st) i (Some (vget (fst st) i + lit_1e_5 c)%dbl)).
    assert (L1 : length X1 = 11) by (unfold X1; rewrite list_update_length; exact L).
    assert (W1 : written X1 = true) by (apply written_list_update; exact W).
    rewrite (@fun_eval D ops (Z.to_nat 1000) 10 (main_parameter c) X1)
      by (auto using main_parameter_valid; lia).
    cbn [bind].
    rewrite get_vec by (rewrite gradient_cells; lia). cbn [bind].
    rewrite get_written by (auto; lia). cbn [bind].
    rewrite (@set_at D _ _ i) by lia. cbn [bind].
    split.
    + unfold difference_step. cbv zeta. fold X1. rewrite vget_vec. reflexivity.
    + unfold difference_step. cbv zeta. cbn [fst]. fold X1.
      split; [rewrite list_update_length; exact L1
             | apply written_list_update; exact W1].
  - exact E.
Qed.

Lemma example_eval_Z (intensity tau t y var : gsl_vector D) (t0 tend : D) (n : Z) :
  (0 <= n)%Z ->
  length tau <= length intensity ->
  written (firstn (length tau) intensity) = true -> written tau = true ->
  Z.to_nat n <= length t -> Z.to_nat n <= length y -> Z.to_nat n <= length var ->
  example intensity tau t y var n t0 tend
  = Some (fill 0 (sample_time t0 tend n) (Z.to_nat n) t,
          fill 0 (fun i => multi_exponential intensity tau (sample_time t0 tend n i))
            (Z.to_nat n) y,
          fill 0 (fun _ => of_int 1) (Z.to_nat n) var).
Proof.
  intros Hn Li Wi Wt Lt Ly Lv.
  remember (Z.to_nat n) as k eqn:Ek.
  assert (En : n = Z.of_nat k) by lia. subst n.
  apply example_eval; assumption.
Qed.

Lemma bind_Some {A B : Type} (a : A) (k : A -> option B) :
  bind (Some a) k = k a.
Proof. reflexivity. Qed.

(** [main] up to its call of [contin]: the signal, the bundle, the value
    and gradient at the point of ones, and the difference loop all have a
    result, for every arithmetic. *)
Lemma main_reaches_contin (o : ool_conmin D) (c : main_literals D) :
  main o c
  = (res <- contin o (main_parameter c) (repeat None 10) (repeat None 10) ;;
     in_txt <- saveData (p_t (main_parameter c)) (p_y (main_parameter c))
                 "in.txt"%string ;;
     out_txt <- saveData (r_s res) (r_g res) "out.txt"%string ;;
     Some {| main_stdout := snd (steps (difference_step c) 11 (main_X, []));
             main_message := r_stdout res;
             main_files := [in_txt; out_txt];
             main_return := 0 |}).
Proof.
  unfold main. cbv zeta.
  rewrite (@alloc_at D 1000 (Z.to_nat 1000)) by lia. repeat (rewrite bind_Some; cbv beta).
  rewrite (@alloc_at D 2 2) by (try reflexivity; lia). repeat (rewrite bind_Some; cbv beta).
  change (gsl_vector_set (repeat None 2) 0 (lit_0_4 c))
    with (Some [Some (lit_0_4 c); @None D]). repeat (rewrite bind_Some; cbv beta).
  change (gsl_vector_set [Some (lit_0_4 c); None] 1 (lit_1_6 c))
    with (Some (main_r c)). repeat (rewrite bind_Some; cbv beta).
  change (gsl_vector_set (repeat None 2) 0 (of_int 1))
    with (Some [Some (of_int 1); @None D]). repeat (rewrite bind_Some; cbv beta).
  change (gsl_vector_set [Some (of_int 1); None] 1 (of_int 2))
    with (Some (main_intensity (D := D))). repeat (rewrite bind_Some; cbv beta).
  rewrite example_eval_Z;
    [ | lia | reflexivity | reflexivity | reflexivity
      | rewrite repeat_length; lia | rewrite repeat_length; lia
      | rewrite repeat_length; lia ].
  repeat (rewrite bind_Some; cbv beta). cbn [fst snd]. rewrite !fill_repeat.
  fold (main_t (D := D)). fold (main_y c). fold (main_sigma (D := D)).
  match goal with
  | |- context [parameter_alloc ?a ?b ?v ?al ?t0 ?t1 10%Z 0%Z] =>
      change (parameter_alloc a b v al t0 t1 10%Z 0%Z)
        with (parameter_alloc a b v al t0 t1 (Z.of_nat 10) 0%Z)
  end.
  assert (E1 : 1 <= Z.to_nat 1000) by lia.
  assert (E3 : length (main_t (D := D)) = Z.to_nat 1000)
    by (unfold main_t; rewrite vec_length, length_map, length_seq; reflexivity).
  assert (E4 : length (main_y c) = Z.to_nat 1000)
    by (unfold main_y; rewrite vec_length, length_map, length_seq; reflexivity).
  assert (E5 : Z.to_nat 1000 <= length (main_sigma (D := D)))
    by (unfold main_sigma; rewrite vec_length, length_map, length_seq; lia).
  assert (E6 : written (firstn (Z.to_nat 1000) (main_sigma (D := D))) = true)
    by (apply written_firstn; apply written_vec).
  pose proof (@parameter_alloc_eval D ops main_t (main_y c) main_sigma
                (lit_0_01 c) (lit_0_1 c) (of_int 4) (Z.to_nat 1000) 10 0%Z
                E1 ltac:(lia) E3 E4 E5 E6 (fun _ => written_vec _)) as E.
  rewrite E. clear E. repeat (rewrite bind_Some; cbv beta). fold (main_parameter c).
  rewrite (@alloc_at D 10 10) by (try reflexivity; lia). repeat (rewrite bind_Some; cbv beta).
  rewrite (@alloc_at D (10 + 1) 11) by (try reflexivity; lia). repeat (rewrite bind_Some; cbv beta).
  rewrite set_all_repeat. fold (main_X (D := D)).
  pose proof (main_parameter_valid c) as Hp.
  assert (H2 : 2 <= 10) by lia.
  pose proof (@fun_eval D ops (Z.to_nat 1000) 10 (main_parameter c) main_X
                Hp H2 main_X_length (written_vec _)) as Ef.
  rewrite Ef. clear Ef. repeat (rewrite bind_Some; cbv beta).
  pose proof (@fun_df_eval D ops (Z.to_nat 1000) 10 (main_parameter c) main_X
                Hp H2 main_X_length (written_vec _) (repeat None 11) E1
                (repeat_length _ _)) as Eg.
  rewrite Eg. clear Eg. repeat (rewrite bind_Some; cbv beta).
  rewrite main_difference_loop. repeat (rewrite bind_Some; cbv beta).
  reflexivity.
Qed.

(** What [main] does, given an optimizer whose final point has the 11
    cells [contin] reads. *)
Lemma main_eval (o : ool_conmin D) (c : main_literals D) :
  length (final_point o (main_parameter c) 10) = 11 ->
  written (final_point o (main_parameter c) 10) = true ->
  main o c = Some (main_outcome o c).
Proof.
  intros Lf Wf. rewrite main_reaches_contin.
  assert (E3 : length (main_t (D := D)) = Z.to_nat 1000)
    by (unfold main_t; rewrite vec_length, length_map, length_seq; reflexivity).
  assert (E4 : length (main_y c) = Z.to_nat 1000)
    by (unfold main_y; rewrite vec_length, length_map, length_seq; reflexivity).
  assert (Ls : length (repeat (@None D) 10) = length (p_tau (main_parameter c))).
  { cbn [main_parameter p_tau]. rewrite repeat_length, vec_length. unfold tau_grid.
    rewrite length_map, length_seq. reflexivity. }
  pose proof (@contin_eval D ops o (main_parameter c) (repeat None 10)
                (repeat None 10) 10 (repeat_length _ _) Ls Lf Wf) as Ec.
  rewrite Ec. clear Ec. repeat (rewrite bind_Some; cbv beta).
  assert (Lty : length (p_t (main_parameter c)) <= length (p_y (main_parameter c)))
    by (cbn [main_parameter p_t p_y]; lia).
  pose proof (saveData_eval _ _ "in.txt"%string Lty (written_vec _)
                (written_firstn _ _ (written_vec _))) as Ei.
  rewrite Ei. clear Ei. repeat (rewrite bind_Some; cbv beta).
  assert (Lsg : length (r_s (contin_outcome o (main_parameter c) 10))
                <= length (r_g (contin_outcome o (main_parameter c) 10))).
  { cbn [r_s r_g contin_outcome main_parameter p_tau]. rewrite !vec_length.
    unfold tau_grid. rewrite !length_map, !length_seq. lia. }
  pose proof (saveData_eval _ _ "out.txt"%string Lsg (written_vec _)
                (written_firstn _ _ (written_vec _))) as Eo.
  rewrite Eo. clear Eo. repeat (rewrite bind_Some; cbv beta).
  assert (Rin : map (fun i => (vget (p_t (main_parameter c)) i,
                               vget (p_y (main_parameter c)) i))
                 (seq 0 (length (p_t (main_parameter c))))
               = map (fun i => (vget (main_t (D := D)) i, vget (main_y c) i))
                   (seq 0 (Z.to_nat 1000))).
  { cbn [main_parameter p_t p_y]. rewrite E3. reflexivity. }
  rewrite Rin. clear Rin.
  assert (Rout : map (fun i => (vget (r_s (contin_outcome o (main_parameter c) 10)) i,
                                vget (r_g (contin_outcome o (main_parameter c) 10)) i))
                   (seq 0 (length (r_s (contin_outcome o (main_parameter c) 10))))
                 = map (fun i => (vget (p_tau (main_parameter c)) i,
                                  vget (final_point o (main_parameter c) 10) i))
                     (seq 0 10)).
  { cbn [r_s r_g contin_outcome].
    replace (length (p_tau (main_parameter c))) with 10
      by (rewrite <- Ls; rewrite repeat_length; reflexivity).
    apply map_ext_in. intros i Hi. apply in_seq in Hi.
    f_equal. apply vget_vec_map_seq. lia. }
  rewrite Rout. clear Rout.
  reflexivity.
Qed.

Lemma difference_lines_index (c : main_literals D) (k : nat)
    (X : gsl_vector D) (l : list (G_line D)) :
  map (@G_index D) (snd (steps (difference_step c) k (X, l)))
  = map (@G_index D) l ++ map Z.of_nat (seq 0 k).
Proof.
  induction k as [|k IH]; cbn [steps].
  - cbn [snd seq map]. rewrite app_nil_r. reflexivity.
  - unfold difference_step at 1. cbv zeta. cbn [snd].
    rewrite map_app, IH, seq_S, map_app, <- app_assoc. reflexivity.
Qed.

(** X14.  [main] runs to its end with every arithmetic, given an optimizer
    whose final point has the 11 cells [contin] reads: it returns 0,
    prints the lines [G[0]] to [G[10]] in order and the line of [contin],
    writes the 1000 samples to [in.txt], and to [out.txt] the ten grid
    points, each beside the cell of the final point of the same index.
    With a final point of fewer than 11 cells it has no result. *)
Theorem main_runs_to_completion (o : ool_conmin D) (c : main_literals D) :
  (length (final_point o (main_parameter c) 10) = 11 ->
   written (final_point o (main_parameter c) 10) = true ->
   exists (r : main_result D) (fin fout : text_file D),
     main o c = Some r /\ main_return r = 0%Z /\
     map (@G_index D) (main_stdout r) = map Z.of_nat (seq 0 11) /\
     main_message r
     = (if (final_status o (main_parameter c) 10 =? OOL_SUCCESS o)%Z
        then Convergence_in_iterations (final_count o (main_parameter c) 10)
        else Stopped_with_iterations (final_count o (main_parameter c) 10)) /\
     main_files r = [fin; fout] /\
     file_name fin = "in.txt"%string /\
     Z.of_nat (length (file_rows fin)) = 1000%Z /\
     file_name fout = "out.txt"%string /\
     file_rows fout
     = map (fun j => (vget (p_tau (main_parameter c)) j,
                      vget (final_point o (main_parameter c) 10) j))
         (seq 0 10)) /\
  (length (final_point o (main_parameter c) 10) < 11 -> main o c = None).
Proof.
  split.
  - intros Lf Wf. eexists _, _, _.
    split; [apply main_eval; assumption|].
    unfold main_outcome. cbv zeta.
    cbn [main_return main_stdout main_message main_files file_name file_rows].
    split; [reflexivity|].
    split; [apply (difference_lines_index c 11 main_X [])|].
    split; [reflexivity|].
    split; [reflexivity|].
    cbn [file_name file_rows].
    split; [reflexivity|].
    split; [rewrite length_map, length_seq; lia|].
    split; reflexivity.
  - intros Lf. rewrite main_reaches_contin.
    rewrite contin_short_final_point; [reflexivity|].
    rewrite repeat_length. lia.
Qed.

(** ** What [mexFunction] hands back to MATLAB *)

Lemma map_nth_firstn {B : Type} (l : list B) (d : B) (n : nat) :
  n <= length l -> map (fun i => nth i l d) (seq 0 n) = firstn n l.
Proof.
  intros L. apply (nth_ext _ _ d d).
  - rewrite length_map, length_seq, length_firstn. lia.
  - intros i Hi. rewrite length_map, length_seq in Hi.
    rewrite (nth_indep _ d (nth 0 l d)) by (rewrite length_map, length_seq; exact Hi).
    rewrite (map_nth (fun i => nth i l d) (seq 0 n) 0 i).
    rewrite seq_nth by exact Hi. rewrite nth_firstn.
    replace (i <? n) with true by (symmetry; apply Nat.ltb_lt; lia).
    reflexivity.
Qed.

(** The loop that copies the three input arrays. *)
Lemma mex_input_loop (ptr_t ptr_y ptr_var : list D) (n : nat) :
  n <= length ptr_t -> n <= length ptr_y -> n <= length ptr_var ->
  for_range 0 (Z.of_nat n)
    (fun i st =>
       ti <- nth_error ptr_t (Z.to_nat i) ;;
       t <- gsl_vector_set (fst (fst st)) i ti ;;
       yi <- nth_error ptr_y (Z.to_nat i) ;;
       y <- gsl_vector_set (snd (fst st)) i yi ;;
       vi <- nth_error ptr_var (Z.to_nat i) ;;
       var <- gsl_vector_set (snd st) i vi ;;
       Some (t, y, var))
    (repeat None n, repeat None n, repeat None n)
  = Some (vec (firstn n ptr_t), vec (firstn n ptr_y), vec (firstn n ptr_var)).
Proof.
  intros Lt Ly Lv.
  pose (F := fun (i : nat) (st : gsl_vector D * gsl_vector D * gsl_vector D) =>
               (list_update (fst (fst st)) (0 + i) (Some (nth i ptr_t (of_int 0))),
                list_update (snd (fst st)) (0 + i) (Some (nth i ptr_y (of_int 0))),
                list_update (snd st) (0 + i) (Some (nth i ptr_var (of_int 0))))).
  match goal with
  | |- for_range _ _ ?body ?s = _ =>
      destruct (@for_range_steps _
                  (fun st : gsl_vector D * gsl_vector D * gsl_vector D =>
                     length (fst (fst st)) = n /\
                     length (snd (fst st)) = n /\
                     length (snd st) = n)
                  F n 0%Z (Z.of_nat n) body s) as [E _]
  end.
  - lia.
  - cbn [fst snd]. rewrite !repeat_length. auto.
  - intros i st Hi (L1 & L2 & L3). cbv beta. cbn [Z.add].
    rewrite Nat2Z.id.
    rewrite !(nth_error_nth' _ (of_int 0)) by lia. cbn [bind].
    rewrite (@set_at D _ _ i) by lia. cbn [bind].
    rewrite (@set_at D _ _ i) by lia. cbn [bind].
    rewrite (@set_at D _ _ i) by lia. cbn [bind].
    split; [reflexivity|].
    unfold F. cbn [fst snd]. rewrite !list_update_length. auto.
  - rewrite E. f_equal. unfold F.
    rewrite (steps_triple
               (fun i u => list_update u (0 + i) (Some (nth i ptr_t (of_int 0))))
               (fun i u => list_update u (0 + i) (Some (nth i ptr_y (of_int 0))))
               (fun i u => list_update u (0 + i) (Some (nth i ptr_var (of_int 0))))).
    pose proof (fill_repeat (fun i => nth i ptr_t (of_int 0)) n) as Ft.
    pose proof (fill_repeat (fun i => nth i ptr_y (of_int 0)) n) as Fy.
    pose proof (fill_repeat (fun i => nth i ptr_var (of_int 0)) n) as Fv.
    unfold fill, fill_with in Ft, Fy, Fv.
    rewrite map_nth_firstn in Ft, Fy, Fv by assumption.
    f_equal; [f_equal|]; assumption.
Qed.

(** The loop that copies the two output vectors. *)
Lemma mex_output_loop (s g : gsl_vector D) (m : nat) :
  length s = m -> written s = true -> length g = m -> written g = true ->
  for_range 0 (Z.of_nat m)
    (fun i out =>
       si <- gsl_vector_get s i ;;
       gi <- gsl_vector_get g i ;;
       Some (list_update (fst out) (Z.to_nat i) si,
             list_update (snd out) (Z.to_nat i) gi))
    (repeat (of_int 0) m, repeat (of_int 0) m)
  = Some (map (vget s) (seq 0 m), map (vget g) (seq 0 m)).
Proof.
  intros Ls Ws Lg Wg.
  rewrite (@for_range_pure _
             (fun (i : nat) (out : list D * list D) =>
                (list_update (fst out) (0 + i) (vget s i),
                 list_update (snd out) (0 + i) (vget g i)))
             m 0%Z (Z.of_nat m)).
  - f_equal.
    rewrite (steps_pair (fun i l => list_update l (0 + i) (vget s i))
               (fun i l => list_update l (0 + i) (vget g i))).
    pose proof (fill_with_all (vget s) (repeat (of_int 0) m)) as Fs.
    pose proof (fill_with_all (vget g) (repeat (of_int 0) m)) as Fg.
    rewrite repeat_length in Fs, Fg. unfold fill_with in Fs, Fg.
    f_equal; assumption.
  - lia.
  - intros i out Hi. cbn [Z.add]. rewrite Nat2Z.id.
    rewrite !get_written by (auto; lia). reflexivity.
Qed.

(** X15.  Called with three outputs and eight inputs -- three arrays of
    at least [n = N * M >= 1] numbers and five scalars -- [mexFunction]
    hands back the grid of the bundle [parameter_alloc] builds from the
    first [n] numbers of each array, the first [m] cells of the final
    point of the optimizer, and its cell [m], given that this point has
    [m + 1] written cells. *)
Theorem mexFunction_returns_the_spectrum (double_to_int : D -> Z)
    (o : ool_conmin D) (nrhs : Z) (a0 a1 a2 a3 a4 a5 a6 a7 : mxArray D)
    (s0 s1 md alpha kd : D) (n m : nat) :
  (mxGetN a0 * mxGetM a0)%Z = Z.of_nat n -> 1 <= n ->
  n <= length (mxGetPr a0) -> n <= length (mxGetPr a1) ->
  n <= length (mxGetPr a2) ->
  mxGetScalar a3 = Some s0 -> mxGetScalar a4 = Some s1 ->
  mxGetScalar a5 = Some md -> mxGetScalar a6 = Some alpha ->
  mxGetScalar a7 = Some kd ->
  double_to_int md = Z.of_nat m -> 1 <= m ->
  (forall p : parameter D,
     length (final_point o p m) = m + 1 /\ written (final_point o p m) = true) ->
  exists p : parameter D,
    parameter_alloc (vec (firstn n (mxGetPr a0))) (vec (firstn n (mxGetPr a1)))
      (vec (firstn n (mxGetPr a2))) alpha s0 s1 (Z.of_nat m) (double_to_int kd)
    = Some p /\
    mexFunction double_to_int o 3 nrhs [a0; a1; a2; a3; a4; a5; a6; a7]
    = Some (mex_returns
              [ {| mxGetM := Z.of_nat m; mxGetN := 1;
                   mxGetPr := map (vget (p_tau p)) (seq 0 m) |};
                {| mxGetM := Z.of_nat m; mxGetN := 1;
                   mxGetPr := map (vget (final_point o p m)) (seq 0 m) |};
                mxCreateDoubleScalar (vget (final_point o p m) m) ]).
Proof.
  intros En Hn L0 L1 L2 S0 S1 Smd Sal Skd Em Hm Hopt.
  assert (Lf : forall l : list D, n <= length l -> length (vec (firstn n l)) = n)
    by (intros l Hl; rewrite vec_length, length_firstn; lia).
  pose proof (@parameter_alloc_eval D ops
                (vec (firstn n (mxGetPr a0))) (vec (firstn n (mxGetPr a1)))
                (vec (firstn n (mxGetPr a2))) alpha s0 s1 n m (double_to_int kd)
                Hn Hm (Lf _ L0) (Lf _ L1) ltac:(rewrite Lf by exact L2; lia)
                (written_firstn _ _ (written_vec _)) (fun _ => written_vec _)) as Ep.
  eexists. split; [exact Ep|].
  set (p := Build_parameter _ _ _ _ _ _ _) in *.
  destruct (Hopt p) as [Lfp Wfp].
  unfold mexFunction. cbn [Z.eqb Pos.eqb orb negb nth_error bind].
  rewrite En.
  rewrite (@alloc_at D (Z.of_nat n) n) by (auto; lia). cbn [bind].
  rewrite mex_input_loop by assumption. cbn [bind fst snd].
  rewrite S0, S1, Smd, Sal, Skd. cbn [bind]. rewrite Em, Ep. cbn [bind].
  rewrite (@alloc_at D (Z.of_nat m) m) by (auto; lia). cbn [bind].
  assert (Ls : length (repeat (@None D) m) = length (p_tau p)).
  { unfold p. cbn [p_tau]. rewrite repeat_length, vec_length. unfold tau_grid.
    rewrite length_map, length_seq. reflexivity. }
  rewrite (@contin_eval D ops o p (repeat None m) (repeat None m) m
             (repeat_length _ _) Ls Lfp Wfp).
  cbn [bind r_s r_g r_b contin_outcome]. rewrite !Nat2Z.id.
  rewrite mex_output_loop;
    [ | rewrite <- Ls; apply repeat_length
      | unfold p; cbn [p_tau]; apply written_vec
      | rewrite vec_length, length_map, length_seq; reflexivity
      | apply written_vec ].
  cbn [bind fst snd].
  assert (Eg : map (vget (vec (map (vget (final_point o p m)) (seq 0 m)))) (seq 0 m)
               = map (vget (final_point o p m)) (seq 0 m)).
  { apply map_ext_in. intros i Hi. apply in_seq in Hi.
    apply vget_vec_map_seq. lia. }
  rewrite Eg. reflexivity.
Qed.

End More_properties.

(** * Exact arithmetic: more on the regularisation operator *)

Lemma vget_scaled (t : R) (v : gsl_vector R) (i : nat) :
  (i < length v)%nat -> vget (vscale t v) i = t * vget v i.
Proof.
  intros Hi. unfold vscale. rewrite vget_vec_map_seq by exact Hi. reflexivity.
Qed.

Lemma scaled_length (t : R) (v : gsl_vector R) : length (vscale t v) = length v.
Proof. unfold vscale. rewrite vec_length, length_map, length_seq. reflexivity. Qed.

Lemma vget_combination (t : R) (x y : gsl_vector R) (i : nat) :
  length y = length x -> (i < length x)%nat ->
  vget (vadd x (vscale t y)) i = vget x i + t * vget y i.
Proof.
  intros L Hi. rewrite vget_vadd by exact Hi. rewrite vget_scaled by lia.
  reflexivity.
Qed.

Lemma D2_entry_combination (t : R) (x y : gsl_vector R) (m i : nat) :
  (2 <= m)%nat -> (m <= length x)%nat -> length y = length x -> (i < m)%nat ->
  D2_entry (vadd x (vscale t y)) m i = D2_entry x m i + t * D2_entry y m i.
Proof.
  intros Hm Lx Ly Hi. unfold D2_entry.
  destruct (i =? 0)%nat eqn:E0.
  - rewrite !vget_combination by lia. real_ops. ring.
  - destruct (i =? m - 1)%nat eqn:E1.
    + rewrite !vget_combination by lia. real_ops. ring.
    + apply Nat.eqb_neq in E0, E1.
      rewrite !vget_combination by lia. real_ops. ring.
Qed.

(** X16.  [diff2] is linear: on [x + t y] it writes the cells it writes on
    [x] plus [t] times those it writes on [y]. *)
Theorem diff2_is_linear (m : nat) (t : R) (x y ddg : gsl_vector R) :
  (2 <= m)%nat -> length ddg = m -> (m <= length x)%nat -> length y = length x ->
  written (firstn m x) = true -> written (firstn m y) = true ->
  exists dx dy d : list R,
    diff2 x ddg = Some (vec dx) /\ diff2 y ddg = Some (vec dy) /\
    diff2 (vadd x (vscale t y)) ddg = Some (vec d) /\
    length d = m /\
    forall i, (i < m)%nat -> nth i d 0 = nth i dx 0 + t * nth i dy 0.
Proof.
  intros Hm Ld Lx Ly Wx Wy.
  exists (D2 x m), (D2 y m), (D2 (vadd x (vscale t y)) m).
  split; [apply diff2_eval; auto|].
  split; [apply diff2_eval; auto; lia|].
  split.
  - apply diff2_eval; auto; [rewrite vadd_length; exact Lx|].
    apply written_firstn. apply written_vec.
  - split; [apply D2_length|].
    intros i Hi. rewrite !nth_D2 by exact Hi.
    apply D2_entry_combination; auto.
Qed.

(** X17.  [diff2] is self-adjoint: pairing what it writes on [a] with [b]
    gives the same as pairing [a] with what it writes on [b]. *)
Theorem diff2_is_self_adjoint (m : nat) (a b ddg : gsl_vector R) :
  (2 <= m)%nat -> length ddg = m -> (m <= length a)%nat -> (m <= length b)%nat ->
  written (firstn m a) = true -> written (firstn m b) = true ->
  exists da db : list R,
    diff2 a ddg = Some (vec da) /\ diff2 b ddg = Some (vec db) /\
    big_sum (fun j => nth j da 0 * vget b j) m
    = big_sum (fun j => vget a j * nth j db 0) m.
Proof.
  intros Hm Ld La Lb Wa Wb.
  exists (D2 a m), (D2 b m).
  split; [apply diff2_eval; auto|].
  split; [apply diff2_eval; auto|].
  rewrite !D2_is_spec by auto.
  rewrite (@big_sum_ext
             (fun j => nth j (D2_spec (amplitudes m a)) 0 * vget b j)
             (fun j => nth j (D2_spec (amplitudes m a)) 0
                       * nth j (amplitudes m b) 0) m)
    by (intros j Hj; rewrite nth_amplitudes by exact Hj; reflexivity).
  rewrite (@big_sum_ext
             (fun j => vget a j * nth j (D2_spec (amplitudes m b)) 0)
             (fun j => nth j (amplitudes m a) 0
                       * nth j (D2_spec (amplitudes m b)) 0) m)
    by (intros j Hj; rewrite nth_amplitudes by exact Hj; reflexivity).
  apply D2_self_adjoint; auto; apply amplitudes_length; assumption.
Qed.

(** A sequence on which every second difference vanishes, the one-sided
    one at the start included, is a multiple of [1, 2, 3, ...]. *)
Lemma D2_kernel_ramp (x : gsl_vector R) (m : nat) :
  (2 <= m)%nat ->
  (forall i, (i < m)%nat -> D2_entry x m i = 0) ->
  forall i, (Datatypes.S i < m)%nat ->
    vget x i = (INR i + 1) * vget x 0 /\
    vget x (Datatypes.S i) = (INR i + 2) * vget x 0.
Proof.
  intros Hm H i. induction i as [|i IH]; intros Hi.
  - pose proof (H 0%nat ltac:(lia)) as E. unfold D2_entry in E.
    cbn [Nat.eqb] in E. real_ops. cbn [INR]. split; lra.
  - destruct (IH ltac:(lia)) as [A B].
    pose proof (H (Datatypes.S i) ltac:(lia)) as E. unfold D2_entry in E.
    replace (Datatypes.S i =? 0)%nat with false in E by reflexivity.
    replace (Datatypes.S i =? m - 1)%nat with false in E
      by (symmetry; apply Nat.eqb_neq; lia).
    replace (Datatypes.S i - 1)%nat with i in E by lia.
    replace (Datatypes.S i + 1)%nat with (Datatypes.S (Datatypes.S i)) in E by lia.
    real_ops. rewrite S_INR. rewrite A, B in E. split; lra.
Qed.

(** X18.  [diff2] vanishes only at zero: when every cell it writes is
    zero, the first [m] cells of its input are zero. *)
Theorem diff2_vanishes_only_at_zero (m : nat) (x ddg : gsl_vector R) :
  (2 <= m)%nat -> length ddg = m -> (m <= length x)%nat ->
  written (firstn m x) = true ->
  diff2 x ddg = Some (vec (repeat 0 m)) ->
  forall i, (i < m)%nat -> vget x i = 0.
Proof.
  intros Hm Ld Lx Wx E.
  rewrite (@diff2_eval R R_ops x ddg m Hm Ld Lx Wx) in E.
  assert (Z0 : forall i, (i < m)%nat -> D2_entry x m i = 0).
  { intros i Hi. rewrite <- nth_D2 by exact Hi.
    assert (E' : D2 x m = repeat 0 m).
    { injection E as E. unfold vec in E.
      apply (f_equal (map cell_val)) in E. rewrite !map_map in E.
      cbn [cell_val] in E. rewrite !map_id in E. exact E. }
    rewrite E'. apply nth_repeat. }
  pose proof (@D2_kernel_ramp x m Hm Z0) as Ramp.
  assert (X0 : vget x 0 = 0).
  { destruct (Ramp (m - 2)%nat ltac:(lia)) as [A B].
    pose proof (Z0 (m - 1)%nat ltac:(lia)) as L. unfold D2_entry in L.
    replace (m - 1 =? 0)%nat with false in L by (symmetry; apply Nat.eqb_neq; lia).
    rewrite Nat.eqb_refl in L.
    replace (Datatypes.S (m - 2)) with (m - 1)%nat in B by lia.
    rewrite A, B in L. real_ops.
    pose proof (pos_INR (m - 2)) as P.
    assert (T : (INR (m - 2) + 3) * vget x 0 = 0) by lra.
    apply Rmult_integral in T. destruct T as [T|T]; [lra | exact T]. }
  intros i Hi. destruct (Nat.eq_dec (Datatypes.S i) m) as [Ei|Ei].
  - destruct i as [|i]; [exact X0|].
    destruct (Ramp i ltac:(lia)) as [_ B]. rewrite B, X0. ring.
  - destruct (Ramp i ltac:(lia)) as [A _]. rewrite A, X0. ring.
Qed.

(** * Exact arithmetic: more on the objective and its gradient *)

Lemma big_sum_nonneg (f : nat -> R) (n : nat) :
  (forall i, (i < n)%nat -> 0 <= f i) -> 0 <= big_sum f n.
Proof.
  induction n as [|n IH]; intros H; cbn [big_sum]; [lra|].
  pose proof (IH ltac:(intros; apply H; lia)). pose proof (H n ltac:(lia)). lra.
Qed.

Lemma weighted_squares_nonneg (w : gsl_vector R) (r : nat -> R) (n : nat) :
  (forall i, (i < n)%nat -> 0 <= vget w i) ->
  0 <= big_sum (fun i => vget w i * r i ^ 2) n.
Proof.
  intros Hw. apply big_sum_nonneg. intros i Hi.
  apply Rmult_le_pos; [apply Hw; exact Hi | apply pow2_ge_0].
Qed.

Lemma squares_nonneg (r : nat -> R) (m : nat) :
  0 <= big_sum (fun j => r j ^ 2) m.
Proof. apply big_sum_nonneg. intros; apply pow2_ge_0. Qed.

Lemma quadratic_part_nonneg (p : parameter R) (n m : nat) (v : gsl_vector R) :
  (forall i, (i < n)%nat -> 0 <= vget (p_w p) i) ->
  0 <= quadratic_part p n m v.
Proof.
  intros Hw. unfold quadratic_part.
  pose proof (@weighted_squares_nonneg (p_w p)
                (fun i => predicted_signal p m v i) n Hw) as A.
  pose proof (squares_nonneg
                (fun j => nth j (D2_spec (amplitudes m v)) 0) m) as B.
  cbv beta in A, B.
  pose proof (pow2_ge_0 (p_alpha p)) as C.
  pose proof (Rmult_le_pos _ _ C B). lra.
Qed.

(** The gradient returned by [fun_df], paired with a direction. *)
Lemma gradient_pairing (p : parameter R) (n m : nat) (x v : gsl_vector R) :
  (2 <= m)%nat -> length x = (m + 1)%nat ->
  big_sum (fun k => nth k (gradient x p n m) 0 * vget v k) (m + 1)
  = gradient_along p n m x v.
Proof.
  intros Hm Lx.
  rewrite Nat.add_1_r. cbn [big_sum]. unfold gradient_along, gradient.
  rewrite nth_gradient_last, gradient_last_is_analytic.
  f_equal. apply big_sum_ext. intros j Hj.
  rewrite nth_gradient by exact Hj.
  rewrite gradient_entry_is_analytic by lia. reflexivity.
Qed.

(** The objective of [fun] along a line, with the gradient of [fun_df]. *)
Lemma objective_along_a_line (p : parameter R) (n m : nat) (x v : gsl_vector R)
    (t : R) :
  (2 <= m)%nat -> length x = (m + 1)%nat -> length v = (m + 1)%nat ->
  objective (vadd x (vscale t v)) p n m
  = objective x p n m
    + t * big_sum (fun k => nth k (gradient x p n m) 0 * vget v k) (m + 1)
    + t ^ 2 * quadratic_part p n m v.
Proof.
  intros Hm Lx Lv.
  rewrite !objective_is_spec by (rewrite ?vadd_length; lia).
  rewrite objective_expansion by (auto; rewrite scaled_length; exact Lv).
  rewrite gradient_along_vscale, quadratic_part_vscale by auto.
  rewrite gradient_pairing by auto. reflexivity.
Qed.

(** X19.  With weights that are not negative, the value returned by [fun]
    is not negative. *)
Theorem fun_is_nonnegative (p : parameter R) (n m : nat) (x : gsl_vector R) :
  valid_parameter n m p -> (2 <= m)%nat ->
  length x = (m + 1)%nat -> written x = true ->
  (forall i, (i < n)%nat -> 0 <= vget (p_w p) i) ->
  exists f : R, fun_ x p = Some f /\ 0 <= f.
Proof.
  intros Hp Hm Lx Wx Hw. exists (objective x p n m).
  split; [apply (@fun_eval R R_ops n m p x); auto|].
  rewrite objective_is_spec by lia. unfold objective_spec.
  pose proof (@weighted_squares_nonneg (p_w p)
                (fun i => vget (p_y p) i - predicted_signal p m x i) n Hw) as A.
  pose proof (squares_nonneg
                (fun j => nth j (D2_spec (amplitudes m x)) 0) m) as B.
  cbv beta in A, B.
  pose proof (pow2_ge_0 (p_alpha p)) as C.
  pose proof (Rmult_le_pos _ _ C B). lra.
Qed.

(** X20.  [fun] is a quadratic along every line: with [f0] the value
    returned at [x] and [g] the gradient returned by [fun_df] there, the
    value returned at [x + t v] is [f0 + t (g . v) + t^2 q], where the
    coefficient [q] depends on [v] only and is not negative when the
    weights are not. *)
Theorem fun_is_quadratic_along_lines (p : parameter R) (n m : nat)
    (x v grad : gsl_vector R) :
  valid_parameter n m p -> (1 <= n)%nat -> (2 <= m)%nat ->
  length x = (m + 1)%nat -> written x = true -> length v = (m + 1)%nat ->
  length grad = (m + 1)%nat ->
  exists (f0 : R) (g : list R),
    fun_ x p = Some f0 /\ fun_df x p grad = Some (vec g) /\
    (forall t : R,
       fun_ (vadd x (vscale t v)) p
       = Some (f0 + t * big_sum (fun k => nth k g 0 * vget v k) (m + 1)
               + t ^ 2 * quadratic_part p n m v)) /\
    ((forall i, (i < n)%nat -> 0 <= vget (p_w p) i) ->
     0 <= quadratic_part p n m v).
Proof.
  intros Hp Hn Hm Lx Wx Lv Lg.
  exists (objective x p n m), (gradient x p n m).
  split; [apply (@fun_eval R R_ops n m p x); auto|].
  split; [apply (@fun_df_eval R R_ops n m p x); auto|].
  split; [|apply quadratic_part_nonneg].
  intros t.
  rewrite (@fun_eval R R_ops n m p (vadd x (vscale t v)));
    auto; [| rewrite vadd_length; exact Lx | apply written_vec].
  rewrite objective_along_a_line by auto. reflexivity.
Qed.

(** X21.  Where [fun_df] returns the zero vector, [fun] is minimal: with
    weights that are not negative, no displacement [v] lowers the value
    returned by [fun]. *)
Theorem fun_is_minimal_where_fun_df_vanishes (p : parameter R) (n m : nat)
    (x v grad : gsl_vector R) :
  valid_parameter n m p -> (1 <= n)%nat -> (2 <= m)%nat ->
  length x = (m + 1)%nat -> written x = true -> length v = (m + 1)%nat ->
  length grad = (m + 1)%nat ->
  (forall i, (i < n)%nat -> 0 <= vget (p_w p) i) ->
  fun_df x p grad = Some (vec (repeat 0 (m + 1))) ->
  exists f0 f1 : R,
    fun_ x p = Some f0 /\ fun_ (vadd x v) p = Some f1 /\ f0 <= f1.
Proof.
  intros Hp Hn Hm Lx Wx Lv Lg Hw Hz.
  rewrite (@fun_df_eval R R_ops n m p x) in Hz by auto.
  assert (G : gradient x p n m = repeat 0 (m + 1)).
  { injection Hz as Hz. unfold vec in Hz.
    apply (f_equal (map cell_val)) in Hz. rewrite !map_map in Hz.
    cbn [cell_val] in Hz. rewrite !map_id in Hz. exact Hz. }
  exists (objective x p n m), (objective (vadd x v) p n m).
  split; [apply (@fun_eval R R_ops n m p x); auto|].
  split.
  - apply (@fun_eval R R_ops n m p (vadd x v));
      auto; [rewrite vadd_length; exact Lx | apply written_vec].
  - rewrite !objective_is_spec by (rewrite ?vadd_length; lia).
    rewrite objective_expansion by auto.
    rewrite <- gradient_pairing by auto. rewrite G.
    rewrite (@big_sum_ext (fun k => nth k (repeat 0 (m + 1)) 0 * vget v k)
               (fun _ => 0) (m + 1))
      by (intros k Hk; rewrite nth_repeat; ring).
    rewrite big_sum_zero.
    pose proof (@quadratic_part_nonneg p n m v Hw). lra.
Qed.

(** X22.  The gradient returned by [fun_df] is affine in the point: the
    increment it takes along a displacement [v] is the same from every
    point. *)
Theorem fun_df_is_affine (p : parameter R) (n m : nat)
    (x x' v grad : gsl_vector R) :
  valid_parameter n m p -> (1 <= n)%nat -> (2 <= m)%nat ->
  length x = (m + 1)%nat -> written x = true ->
  length x' = (m + 1)%nat -> written x' = true ->
  length v = (m + 1)%nat -> length grad = (m + 1)%nat ->
  exists g gv g' gv' : list R,
    fun_df x p grad = Some (vec g) /\
    fun_df (vadd x v) p grad = Some (vec gv) /\
    fun_df x' p grad = Some (vec g') /\
    fun_df (vadd x' v) p grad = Some (vec gv') /\
    forall k, (k < m + 1)%nat ->
      nth k gv 0 - nth k g 0 = nth k gv' 0 - nth k g' 0.
Proof.
  intros Hp Hn Hm Lx Wx Lx' Wx' Lv Lg.
  exists (gradient x p n m), (gradient (vadd x v) p n m),
         (gradient x' p n m), (gradient (vadd x' v) p n m).
  split; [apply (@fun_df_eval R R_ops n m p x); auto|].
  split; [apply (@fun_df_eval R R_ops n m p (vadd x v));
          auto; [rewrite vadd_length; exact Lx | apply written_vec]|].
  split; [apply (@fun_df_eval R R_ops n m p x'); auto|].
  split; [apply (@fun_df_eval R R_ops n m p (vadd x' v));
          auto; [rewrite vadd_length; exact Lx' | apply written_vec]|].
  intros k Hk. unfold gradient.
  destruct (Nat.eq_dec k m) as [->|Ne].
  - rewrite !nth_gradient_last, !gradient_last_is_analytic.
    rewrite (@gradient_offset_increment p n m x v Hm Lx Lv).
    rewrite (@gradient_offset_increment p n m x' v Hm Lx' Lv). reflexivity.
  - rewrite !nth_gradient by lia.
    rewrite !gradient_entry_is_analytic by (rewrite ?vadd_length; lia).
    rewrite (@gradient_increment p n m x v Hm Lx Lv k) by lia.
    rewrite (@gradient_increment p n m x' v Hm Lx' Lv k) by lia. reflexivity.
Qed.

(** * Exact arithmetic: more on the product returned by [fun_Hv] *)

Lemma nth_Hv_code (p : parameter R) (n m : nat) (v : gsl_vector R) (i : nat) :
  (i < m)%nat -> nth i (Hv_code p n m v) 0 = Hv_entry p n m v i.
Proof.
  intros Hi. unfold Hv_code.
  rewrite app_nth1 by (rewrite length_map, length_seq; exact Hi).
  rewrite (nth_indep _ 0 (Hv_entry p n m v 0))
    by (rewrite length_map, length_seq; exact Hi).
  rewrite (map_nth (Hv_entry p n m v) (seq 0 m) 0%nat i).
  rewrite seq_nth by exact Hi. reflexivity.
Qed.

Lemma nth_Hv_code_last (p : parameter R) (n m : nat) (v : gsl_vector R) :
  nth m (Hv_code p n m v) 0 = Hv_last p n m v.
Proof.
  unfold Hv_code.
  rewrite app_nth2 by (rewrite length_map, length_seq; lia).
  rewrite length_map, length_seq, Nat.sub_diag. reflexivity.
Qed.

Lemma Hv_code_length (p : parameter R) (n m : nat) (v : gsl_vector R) :
  length (Hv_code p n m v) = (m + 1)%nat.
Proof.
  unfold Hv_code. rewrite length_app, length_map, length_seq. reflexivity.
Qed.

Lemma D2_entry_ext (a b : gsl_vector R) (m i : nat) :
  (2 <= m)%nat -> (i < m)%nat ->
  (forall k, (k < m)%nat -> vget a k = vget b k) ->
  D2_entry a m i = D2_entry b m i.
Proof.
  intros Hm Hi H. unfold D2_entry.
  destruct (i =? 0)%nat eqn:E0; [rewrite !H by lia; reflexivity|].
  destruct (i =? m - 1)%nat eqn:E1; [rewrite !H by lia; reflexivity|].
  apply Nat.eqb_neq in E0, E1. rewrite !H by lia. reflexivity.
Qed.

Lemma D4_entry_combination (t : R) (v v' : gsl_vector R) (m i : nat) :
  (2 <= m)%nat -> (m <= length v)%nat -> length v' = length v -> (i < m)%nat ->
  D2_entry (vec (D2 (vadd v (vscale t v')) m)) m i
  = D2_entry (vec (D2 v m)) m i + t * D2_entry (vec (D2 v' m)) m i.
Proof.
  intros Hm Lv Lv' Hi.
  rewrite (@D2_entry_ext (vec (D2 (vadd v (vscale t v')) m))
             (vadd (vec (D2 v m)) (vscale t (vec (D2 v' m)))) m i Hm Hi).
  - apply D2_entry_combination; auto; rewrite !vec_length, !D2_length; lia.
  - intros k Hk.
    rewrite vget_combination by (rewrite !vec_length, !D2_length; lia).
    rewrite !vget_vec. cbn [of_int R_ops].
    rewrite !nth_D2 by exact Hk. apply D2_entry_combination; auto.
Qed.

Lemma Hv_entry_combination (p : parameter R) (n m : nat) (t : R)
    (v v' : gsl_vector R) (i : nat) :
  (2 <= m)%nat -> length v = (m + 1)%nat -> length v' = (m + 1)%nat ->
  (i < m)%nat ->
  Hv_entry p n m (vadd v (vscale t v')) i
  = Hv_entry p n m v i + t * Hv_entry p n m v' i.
Proof.
  intros Hm Lv Lv' Hi. unfold Hv_entry.
  rewrite !sum_from_big_sum, !vget_vec. cbn [of_int R_ops].
  rewrite !nth_D2 by exact Hi.
  rewrite D4_entry_combination by (auto; lia).
  rewrite vget_combination by lia.
  rewrite (@big_sum_ext
             (fun j => (H1_of p n i j * vget (vadd v (vscale t v')) j)%dbl)
             (fun j => (H1_of p n i j * vget v j)%dbl
                       + t * (H1_of p n i j * vget v' j)%dbl) m)
    by (intros j Hj; rewrite vget_combination by lia; real_ops; ring).
  rewrite big_sum_plus, big_sum_scale. real_ops. ring.
Qed.

Lemma Hv_last_combination (p : parameter R) (n m : nat) (t : R)
    (v v' : gsl_vector R) :
  length v = (m + 1)%nat -> length v' = (m + 1)%nat ->
  Hv_last p n m (vadd v (vscale t v'))
  = Hv_last p n m v + t * Hv_last p n m v'.
Proof.
  intros Lv Lv'. unfold Hv_last.
  rewrite !sum_from_big_sum.
  rewrite vget_combination by lia.
  rewrite (@big_sum_ext
             (fun j => (H2_of p n j * vget (vadd v (vscale t v')) j)%dbl)
             (fun j => (H2_of p n j * vget v j)%dbl
                       + t * (H2_of p n j * vget v' j)%dbl) m)
    by (intros j Hj; rewrite vget_combination by lia; real_ops; ring).
  rewrite big_sum_plus, big_sum_scale. real_ops. ring.
Qed.

(** X23.  The product returned by [fun_Hv] is linear in the direction and
    does not depend on the point: on [v + t v'] at any point it is the
    product for [v] plus [t] times the product for [v'], whatever the
    points these were computed at. *)
Theorem fun_Hv_is_linear (p : parameter R) (n m : nat) (t : R)
    (x x' x'' v v' hv : gsl_vector R) :
  valid_parameter n m p -> (2 <= m)%nat ->
  length x = (m + 1)%nat -> length x' = (m + 1)%nat -> length x'' = (m + 1)%nat ->
  length v = (m + 1)%nat -> written v = true ->
  length v' = (m + 1)%nat -> written v' = true ->
  length hv = (m + 1)%nat ->
  exists h h' h'' : list R,
    fun_Hv x p v hv = Some (vec h) /\
    fun_Hv x' p v' hv = Some (vec h') /\
    fun_Hv x'' p (vadd v (vscale t v')) hv = Some (vec h'') /\
    length h'' = (m + 1)%nat /\
    forall k, (k < m + 1)%nat -> nth k h'' 0 = nth k h 0 + t * nth k h' 0.
Proof.
  intros Hp Hm Lx Lx' Lx'' Lv Wv Lv' Wv' Lh.
  exists (Hv_code p n m v), (Hv_code p n m v'),
         (Hv_code p n m (vadd v (vscale t v'))).
  split; [apply (@fun_Hv_eval R R_ops n m p x v); auto|].
  split; [apply (@fun_Hv_eval R R_ops n m p x' v'); auto|].
  split.
  - apply (@fun_Hv_eval R R_ops n m p x'' (vadd v (vscale t v'))); auto;
      [rewrite vadd_length; exact Lv | apply written_vec].
  - split; [apply Hv_code_length|].
    intros k Hk. destruct (Nat.eq_dec k m) as [->|Ne].
    + rewrite !nth_Hv_code_last. apply Hv_last_combination; auto.
    + rewrite !nth_Hv_code by lia. apply Hv_entry_combination; auto. lia.
Qed.

(** The second differences of [diff2] vanish at zero, and only there. *)
Lemma D2_entries_vanish_only_at_zero (x : gsl_vector R) (m : nat) :
  (2 <= m)%nat ->
  (forall i, (i < m)%nat -> D2_entry x m i = 0) ->
  forall i, (i < m)%nat -> vget x i = 0.
Proof.
  intros Hm Z0.
  pose proof (@D2_kernel_ramp x m Hm Z0) as Ramp.
  assert (X0 : vget x 0 = 0).
  { destruct (Ramp (m - 2)%nat ltac:(lia)) as [A B].
    pose proof (Z0 (m - 1)%nat ltac:(lia)) as L. unfold D2_entry in L.
    replace (m - 1 =? 0)%nat with false in L by (symmetry; apply Nat.eqb_neq; lia).
    rewrite Nat.eqb_refl in L.
    replace (Datatypes.S (m - 2)) with (m - 1)%nat in B by lia.
    rewrite A, B in L. real_ops.
    pose proof (pos_INR (m - 2)) as P.
    assert (T : (INR (m - 2) + 3) * vget x 0 = 0) by lra.
    apply Rmult_integral in T. destruct T as [T|T]; [lra | exact T]. }
  intros i Hi. destruct (Nat.eq_dec (Datatypes.S i) m) as [Ei|Ei].
  - destruct i as [|i]; [exact X0|].
    destruct (Ramp i ltac:(lia)) as [_ B]. rewrite B, X0. ring.
  - destruct (Ramp i ltac:(lia)) as [A _]. rewrite A, X0. ring.
Qed.

Lemma D2_spec_vanishes_only_at_zero (a : list R) :
  (2 <= length a)%nat ->
  (forall i, (i < length a)%nat -> nth i (D2_spec a) 0 = 0) ->
  forall i, (i < length a)%nat -> nth i a 0 = 0.
Proof.
  intros Hm Z0 i Hi.
  assert (E : D2 (vec a) (length a) = D2_spec a).
  { rewrite D2_is_spec by (rewrite ?vec_length; lia).
    rewrite amplitudes_vec by reflexivity. reflexivity. }
  change (nth i a 0) with (nth i a (of_int 0)). rewrite <- vget_vec.
  apply D2_entries_vanish_only_at_zero with (m := length a); auto.
  intros k Hk. rewrite <- nth_D2 by exact Hk. rewrite E. apply Z0. exact Hk.
Qed.

Lemma D2_spec_of_zero (a : list R) :
  (forall i, nth i a 0 = 0) -> forall i, nth i (D2_spec a) 0 = 0.
Proof.
  intros Z0 i. destruct (Nat.lt_ge_cases i (length a)) as [Hi|Hi].
  - rewrite nth_D2_spec by exact Hi. rewrite !Z0.
    destruct (i =? 0)%nat; [ring|]. destruct (i =? length a - 1)%nat; ring.
  - apply nth_overflow. rewrite D2_spec_length. exact Hi.
Qed.

(** X24.  Against the Hessian of the objective, the product returned by
    [fun_Hv] is off by [(1 - 2 alpha^2)] times the fourth difference of
    the amplitudes of [v], in every amplitude component, and its last
    component is that of the Hessian product.  Hence it is the Hessian
    product exactly when [2 alpha^2 = 1] or the amplitudes of [v] all
    vanish. *)
Theorem fun_Hv_against_the_hessian (p : parameter R) (n m : nat)
    (x v hv : gsl_vector R) :
  valid_parameter n m p -> (2 <= m)%nat ->
  length x = (m + 1)%nat -> length v = (m + 1)%nat -> written v = true ->
  length hv = (m + 1)%nat ->
  exists h : list R,
    fun_Hv x p v hv = Some (vec h) /\
    (forall i, (i < m)%nat ->
       nth i h 0 - hessian_vector p n m v i
       = (1 - 2 * p_alpha p ^ 2)
         * nth i (D2_spec (D2_spec (amplitudes m v))) 0) /\
    nth m h 0 = hessian_vector_offset p n m v /\
    ((forall i, (i < m)%nat -> nth i h 0 = hessian_vector p n m v i) <->
     (2 * p_alpha p ^ 2 = 1 \/ forall j, (j < m)%nat -> vget v j = 0)).
Proof.
  intros Hp Hm Lx Lv Wv Lh.
  destruct (@fun_Hv_defect p n m x v hv Hp Hm Lx Lv Wv Lh) as (h & E & A & B).
  assert (La : length (amplitudes m v) = m) by (apply amplitudes_length; lia).
  exists h. split; [exact E|]. split; [|split; [exact B|split]].
  - intros i Hi. rewrite (A i Hi). ring.
  - intros Agree.
    destruct (Req_dec (2 * p_alpha p ^ 2) 1) as [Ha|Ha]; [left; exact Ha|].
    right.
    assert (Z4 : forall i, (i < m)%nat ->
                 nth i (D2_spec (D2_spec (amplitudes m v))) 0 = 0).
    { intros i Hi. pose proof (Agree i Hi) as G. rewrite (A i Hi) in G.
      assert (T : (1 - 2 * p_alpha p ^ 2)
                  * nth i (D2_spec (D2_spec (amplitudes m v))) 0 = 0) by lra.
      apply Rmult_integral in T. destruct T as [T|T]; [lra | exact T]. }
    assert (Z2 : forall i, (i < m)%nat -> nth i (D2_spec (amplitudes m v)) 0 = 0).
    { intros i Hi.
      apply D2_spec_vanishes_only_at_zero; rewrite ?D2_spec_length, ?La; auto. }
    intros j Hj. rewrite <- (@nth_amplitudes m v j Hj).
    apply D2_spec_vanishes_only_at_zero; rewrite ?La; auto.
  - intros [Ha|Zv] i Hi; rewrite (A i Hi).
    + rewrite Ha. ring.
    + assert (Z0 : forall k, nth k (amplitudes m v) 0 = 0).
      { intros k. destruct (Nat.lt_ge_cases k m) as [Hk|Hk].
        - rewrite nth_amplitudes by exact Hk. apply Zv. exact Hk.
        - apply nth_overflow. rewrite La. exact Hk. }
      rewrite (@D2_spec_of_zero _ (@D2_spec_of_zero _ Z0)). ring.
Qed.

(** The bilinear form of the product of [fun_Hv]. *)
Lemma Hv_code_pairing (p : parameter R) (n m : nat) (u v : gsl_vector R) :
  (2 <= m)%nat -> length u = (m + 1)%nat -> length v = (m + 1)%nat ->
  big_sum (fun k => vget u k * nth k (Hv_code p n m v) 0) (m + 1)
  = 2 * big_sum (fun i => vget (p_w p) i * predicted_signal p m v i
                          * predicted_signal p m u i) n
    + big_sum (fun j => nth j (D2_spec (amplitudes m u)) 0
                        * nth j (D2_spec (amplitudes m v)) 0) m.
Proof.
  intros Hm Lu Lv.
  rewrite Nat.add_1_r. cbn [big_sum].
  rewrite nth_Hv_code_last, Hv_last_is_spec.
  rewrite (@hessian_vector_offset_adjoint p n m v Hm Lv).
  rewrite (@big_sum_ext
             (fun k => vget u k * nth k (Hv_code p n m v) 0)
             (fun j => 2 * (vget (p_c p) j
                            * big_sum (fun i => vget (p_w p) i
                                                * predicted_signal p m v i
                                                * mget (p_K p) i j) n
                            * vget u j)
                       + nth j (amplitudes m u) 0
                         * nth j (D2_spec (D2_spec (amplitudes m v))) 0) m).
  2:{ intros j Hj. rewrite nth_Hv_code by exact Hj.
      rewrite Hv_entry_defect by lia.
      rewrite (@hessian_vector_adjoint p n m v Hm Lv j Hj).
      rewrite nth_amplitudes by exact Hj. ring. }
  rewrite big_sum_plus, big_sum_scale.
  rewrite <- (@D2_self_adjoint (amplitudes m u) (D2_spec (amplitudes m v)) m)
    by (rewrite ?D2_spec_length, ?amplitudes_length; lia).
  rewrite (data_pairing p n m (fun i => predicted_signal p m v i) u).
  ring.
Qed.

(** X25.  The product returned by [fun_Hv] is that of a symmetric matrix,
    [u . (H v) = v . (H u)], which is positive semi-definite when the
    weights are not negative. *)
Theorem fun_Hv_is_symmetric_and_nonnegative (p : parameter R) (n m : nat)
    (x u v hv : gsl_vector R) :
  valid_parameter n m p -> (2 <= m)%nat ->
  length x = (m + 1)%nat ->
  length u = (m + 1)%nat -> written u = true ->
  length v = (m + 1)%nat -> written v = true ->
  length hv = (m + 1)%nat ->
  exists hu hv' : list R,
    fun_Hv x p u hv = Some (vec hu) /\
    fun_Hv x p v hv = Some (vec hv') /\
    big_sum (fun k => vget u k * nth k hv' 0) (m + 1)
    = big_sum (fun k => vget v k * nth k hu 0) (m + 1) /\
    ((forall i, (i < n)%nat -> 0 <= vget (p_w p) i) ->
     0 <= big_sum (fun k => vget v k * nth k hv' 0) (m + 1)).
Proof.
  intros Hp Hm Lx Lu Wu Lv Wv Lh.
  exists (Hv_code p n m u), (Hv_code p n m v).
  split; [apply (@fun_Hv_eval R R_ops n m p x u); auto|].
  split; [apply (@fun_Hv_eval R R_ops n m p x v); auto|].
  split.
  - rewrite !Hv_code_pairing by auto.
    f_equal; [f_equal|]; apply big_sum_ext; intros; ring.
  - intros Hw. rewrite Hv_code_pairing by auto.
    pose proof (@weighted_squares_nonneg (p_w p)
                  (fun i => predicted_signal p m v i) n Hw) as A.
    pose proof (squares_nonneg
                  (fun j => nth j (D2_spec (amplitudes m v)) 0) m) as B.
    cbv beta in A, B.
    rewrite (@big_sum_ext
               (fun i => vget (p_w p) i * predicted_signal p m v i
                         * predicted_signal p m v i)
               (fun i => vget (p_w p) i * predicted_signal p m v i ^ 2) n)
      by (intros; ring).
    rewrite (@big_sum_ext
               (fun j => nth j (D2_spec (amplitudes m v)) 0
                         * nth j (D2_spec (amplitudes m v)) 0)
               (fun j => nth j (D2_spec (amplitudes m v)) 0 ^ 2) m)
      by (intros; ring).
    lra.
Qed.

(** * Exact arithmetic: more on the bundle built by [parameter_alloc] *)

Lemma nth_tau_grid (tau0 tau1 : R) (m j : nat) :
  (j < m)%nat ->
  nth j (tau_grid tau0 tau1 m) 0 = tau0 + INR j * dtau_of tau0 tau1 m.
Proof.
  intros Hj. unfold tau_grid.
  set (f := fun j : nat => (tau0 + of_int (Z.of_nat j) * dtau_of tau0 tau1 m)%dbl).
  rewrite (nth_indep _ 0 (f 0%nat)) by (rewrite length_map, length_seq; exact Hj).
  rewrite (map_nth f (seq 0 m) 0%nat j). rewrite seq_nth by exact Hj.
  unfold f. real_ops. rewrite <- INR_IZR_INZ. reflexivity.
Qed.

Lemma dtau_of_real (tau0 tau1 : R) (m : nat) :
  dtau_of tau0 tau1 m = (tau1 - tau0) / (INR m - 1).
Proof.
  unfold dtau_of. real_ops. rewrite minus_IZR, <- INR_IZR_INZ. reflexivity.
Qed.

Lemma INR_pred_pos (m : nat) : (2 <= m)%nat -> 0 < INR m - 1.
Proof.
  intros Hm. apply le_INR in Hm. cbn [INR] in Hm. lra.
Qed.

Lemma tau_grid_between (tau0 tau1 : R) (m j : nat) :
  (2 <= m)%nat -> (j < m)%nat -> tau0 <= tau1 ->
  tau0 <= nth j (tau_grid tau0 tau1 m) 0 <= tau1.
Proof.
  intros Hm Hj Ht. rewrite nth_tau_grid by exact Hj. rewrite dtau_of_real.
  pose proof (INR_pred_pos Hm) as P.
  pose proof (pos_INR j) as J0.
  assert (J1 : INR j <= INR m - 1).
  { assert (H : (j <= m - 1)%nat) by lia. apply le_INR in H.
    rewrite minus_INR in H by lia. cbn [INR] in H. exact H. }
  assert (Q : 0 <= (tau1 - tau0) / (INR m - 1)).
  { apply Rmult_le_pos; [lra|]. left. apply Rinv_0_lt_compat. exact P. }
  split.
  - pose proof (Rmult_le_pos _ _ J0 Q). lra.
  - assert (E : tau1 = tau0 + (INR m - 1) * ((tau1 - tau0) / (INR m - 1)))
      by (field; lra).
    rewrite E at 2.
    apply Rplus_le_compat_l. apply Rmult_le_compat_r; assumption.
Qed.

(** X26.  The grid built by [parameter_alloc] for [m >= 2] is the uniform
    grid from [tau0] to [tau1]: its first point is [tau0], its last point
    is [tau1], and consecutive points are [(tau1 - tau0) / (m - 1)]
    apart. *)
Theorem parameter_alloc_grid_is_uniform (t y var : gsl_vector R)
    (alpha tau0 tau1 : R) (n m : nat) (kernelType : Z) :
  (2 <= m)%nat ->
  (1 <= n)%nat -> length t = n -> length y = n -> (n <= length var)%nat ->
  written (firstn n var) = true ->
  (kernelType = 0%Z \/ kernelType = 1%Z -> written t = true) ->
  exists p : parameter R,
    parameter_alloc t y var alpha tau0 tau1 (Z.of_nat m) kernelType = Some p /\
    length (p_tau p) = m /\ written (p_tau p) = true /\
    vget (p_tau p) 0 = tau0 /\
    vget (p_tau p) (m - 1) = tau1 /\
    forall j, (j + 1 < m)%nat ->
      vget (p_tau p) (j + 1) - vget (p_tau p) j = (tau1 - tau0) / (INR m - 1).
Proof.
  intros Hm Hn Lt Ly Lv Wv Wt.
  eexists. split; [apply parameter_alloc_eval with (n := n); auto; lia|].
  cbn [p_tau]. pose proof (INR_pred_pos Hm) as P.
  split; [rewrite vec_length; unfold tau_grid;
          rewrite length_map, length_seq; reflexivity|].
  split; [apply written_vec|].
  split; [|split].
  - rewrite vget_vec. cbn [of_int R_ops]. rewrite nth_tau_grid by lia.
    cbn [INR]. ring.
  - rewrite vget_vec. cbn [of_int R_ops]. rewrite nth_tau_grid by lia.
    rewrite dtau_of_real. rewrite minus_INR by lia. cbn [INR]. field. lra.
  - intros j Hj. rewrite !vget_vec. cbn [of_int R_ops].
    rewrite !nth_tau_grid by lia. rewrite dtau_of_real.
    rewrite plus_INR. cbn [INR]. field. lra.
Qed.

Lemma mget_kernel_rows (e : nat -> nat -> R) (n m i j : nat) :
  (i < n)%nat -> (j < m)%nat ->
  mget (map (fun i => vec (map (e i) (seq 0 m))) (seq 0 n)) i j = e i j.
Proof.
  intros Hi Hj. unfold mget.
  set (f := (fun i : nat => vec (map (e i) (seq 0 m))) : nat -> list (option R)).
  rewrite (nth_indep _ [] (f 0%nat)) by (rewrite length_map, length_seq; exact Hi).
  change (@map nat (gsl_vector R)) with (@map nat (list (option R))).
  rewrite (map_nth f (seq 0 n) 0%nat i). rewrite seq_nth by exact Hi.
  unfold f. cbn [Nat.add]. apply vget_vec_map_seq. exact Hj.
Qed.

(** The exponential kernel on a grid of positive time constants. *)
Lemma exponential_kernel_entries (t y var : gsl_vector R)
    (alpha tau0 tau1 : R) (n m : nat) :
  0 < tau0 -> tau0 <= tau1 -> (2 <= m)%nat ->
  (1 <= n)%nat -> length t = n -> length y = n -> (n <= length var)%nat ->
  written (firstn n var) = true -> written t = true ->
  (forall i, (i < n)%nat -> 0 <= vget t i) ->
  exists p : parameter R,
    parameter_alloc t y var alpha tau0 tau1 (Z.of_nat m) 0 = Some p /\
    (forall i j, (i < n)%nat -> (j < m)%nat ->
       0 < mget (p_K p) i j <= 1) /\
    (forall i j, (i < n)%nat -> (j < m)%nat -> vget t i = 0 ->
       mget (p_K p) i j = 1) /\
    (forall i j, (i < n)%nat -> (j + 1 < m)%nat ->
       mget (p_K p) i j <= mget (p_K p) i (j + 1)).
Proof.
  intros H0 H01 Hm Hn Lt Ly Lv Wv Wt Tpos.
  eexists. split; [apply parameter_alloc_eval with (n := n); auto; lia|].
  cbn [p_K]. unfold kernel_matrix. cbn [Z.eqb].
  pose proof (INR_pred_pos Hm) as P.
  assert (G : forall j, (j < m)%nat -> 0 < nth j (tau_grid tau0 tau1 m) 0).
  { intros j Hj. pose proof (@tau_grid_between tau0 tau1 m j Hm Hj H01). lra. }
  split; [|split].
  - intros i j Hi Hj. rewrite mget_kernel_rows by assumption.
    unfold exponential. real_ops. split; [apply exp_pos|].
    rewrite <- exp_0. 
    assert (Q : - vget t i / nth j (tau_grid tau0 tau1 m) 0 <= 0).
    { pose proof (Tpos i Hi). pose proof (G j Hj) as Gj.
      apply Rinv_0_lt_compat in Gj. unfold Rdiv.
      assert (0 <= vget t i * / nth j (tau_grid tau0 tau1 m) 0)
        by (apply Rmult_le_pos; lra).
      lra. }
    destruct Q as [Q|Q]; [left; apply exp_increasing; exact Q | rewrite Q; right; reflexivity].
  - intros i j Hi Hj Ti. rewrite mget_kernel_rows by assumption.
    unfold exponential. real_ops. rewrite Ti.
    pose proof (G j Hj) as Gj.
    replace (- 0 / nth j (tau_grid tau0 tau1 m) 0) with 0 by (field; lra).
    apply exp_0.
  - intros i j Hi Hj. rewrite !mget_kernel_rows by (auto; lia).
    unfold exponential. real_ops.
    pose proof (G j ltac:(lia)) as Gj. pose proof (G (j + 1)%nat ltac:(lia)) as Gj1.
    assert (Mono : nth j (tau_grid tau0 tau1 m) 0
                   <= nth (j + 1) (tau_grid tau0 tau1 m) 0).
    { rewrite !nth_tau_grid by lia. rewrite dtau_of_real, plus_INR. cbn [INR].
      assert (Q : 0 <= (tau1 - tau0) / (INR m - 1)).
      { apply Rmult_le_pos; [lra|]. left. apply Rinv_0_lt_compat. exact P. }
      lra. }
    assert (Q : - vget t i / nth j (tau_grid tau0 tau1 m) 0
                <= - vget t i / nth (j + 1) (tau_grid tau0 tau1 m) 0).
    { pose proof (Tpos i Hi) as Ti.
      assert (Inv : / nth (j + 1) (tau_grid tau0 tau1 m) 0
                    <= / nth j (tau_grid tau0 tau1 m) 0)
        by (apply Rinv_le_contravar; assumption).
      unfold Rdiv.
      pose proof (Rmult_le_compat_l (vget t i) _ _ Ti Inv). lra. }
    destruct Q as [Q|Q]; [left; apply exp_increasing; exact Q | rewrite Q; right; reflexivity].
Qed.

(** The Lorentzian kernel on a grid of positive time constants. *)
Lemma lorentzian_kernel_entries (t y var : gsl_vector R)
    (alpha tau0 tau1 : R) (n m : nat) :
  0 < tau0 -> tau0 <= tau1 -> (2 <= m)%nat ->
  (1 <= n)%nat -> length t = n -> length y = n -> (n <= length var)%nat ->
  written (firstn n var) = true -> written t = true ->
  exists p : parameter R,
    parameter_alloc t y var alpha tau0 tau1 (Z.of_nat m) 1 = Some p /\
    (forall i j, (i < n)%nat -> (j < m)%nat ->
       0 < mget (p_K p) i j <= / (PI * vget (p_tau p) j)) /\
    (forall i j, (i < n)%nat -> (j < m)%nat -> vget t i = 0 ->
       mget (p_K p) i j = / (PI * vget (p_tau p) j)).
Proof.
  intros H0 H01 Hm Hn Lt Ly Lv Wv Wt.
  eexists. split; [apply parameter_alloc_eval with (n := n); auto; lia|].
  cbn [p_K p_tau]. unfold kernel_matrix. cbn [Z.eqb Pos.eqb].
  assert (G : forall j, (j < m)%nat -> 0 < nth j (tau_grid tau0 tau1 m) 0).
  { intros j Hj. pose proof (@tau_grid_between tau0 tau1 m j Hm Hj H01). lra. }
  pose proof PI_RGT_0 as Pi.
  split.
  - intros i j Hi Hj. rewrite mget_kernel_rows by assumption.
    rewrite vget_vec. cbn [of_int R_ops].
    unfold lorentzian. real_ops.
    set (s := nth j (tau_grid tau0 tau1 m) 0). set (u := vget t i).
    pose proof (G j Hj) as Gj. fold s in Gj.
    assert (U : 0 <= u * u) by (apply Rle_0_sqr).
    assert (S2 : 0 < s * s) by (apply Rmult_lt_0_compat; assumption).
    assert (Den : 0 < u * u + s * s) by lra.
    split.
    + apply Rmult_lt_0_compat; [|apply Rinv_0_lt_compat; exact Den].
      apply Rmult_lt_0_compat; [apply Rinv_0_lt_compat; exact Pi | exact Gj].
    + assert (E : / (PI * s) = / PI * s / (s * s)) by (field; lra).
      rewrite E. unfold Rdiv.
      apply Rmult_le_compat_l.
      * left. apply Rmult_lt_0_compat; [apply Rinv_0_lt_compat; exact Pi | exact Gj].
      * apply Rinv_le_contravar; lra.
  - intros i j Hi Hj Ti. rewrite mget_kernel_rows by assumption.
    rewrite vget_vec. cbn [of_int R_ops].
    unfold lorentzian. real_ops. rewrite Ti.
    pose proof (G j Hj) as Gj. field. split; lra.
Qed.

(** X27.  The kernels built by [parameter_alloc] on a grid of positive
    time constants are positive and bounded.  For the exponential kernel
    and sample times that are not negative every entry lies in [(0, 1]],
    is [1] at a sample time [0], and does not decrease along a row; for
    the Lorentzian kernel every entry is positive and at most
    [1 / (pi tau_j)], which it reaches at a sample time [0]. *)
Theorem kernels_are_positive_and_bounded (t y var : gsl_vector R)
    (alpha tau0 tau1 : R) (n m : nat) :
  0 < tau0 -> tau0 <= tau1 -> (2 <= m)%nat ->
  (1 <= n)%nat -> length t = n -> length y = n -> (n <= length var)%nat ->
  written (firstn n var) = true -> written t = true ->
  (exists p : parameter R,
     parameter_alloc t y var alpha tau0 tau1 (Z.of_nat m) 0 = Some p /\
     ((forall i, (i < n)%nat -> 0 <= vget t i) ->
      (forall i j, (i < n)%nat -> (j < m)%nat -> 0 < mget (p_K p) i j <= 1) /\
      (forall i j, (i < n)%nat -> (j + 1 < m)%nat ->
         mget (p_K p) i j <= mget (p_K p) i (j + 1))) /\
     (forall i j, (i < n)%nat -> (j < m)%nat -> vget t i = 0 ->
        mget (p_K p) i j = 1)) /\
  (exists p : parameter R,
     parameter_alloc t y var alpha tau0 tau1 (Z.of_nat m) 1 = Some p /\
     (forall i j, (i < n)%nat -> (j < m)%nat ->
        0 < mget (p_K p) i j <= / (PI * vget (p_tau p) j)) /\
     (forall i j, (i < n)%nat -> (j < m)%nat -> vget t i = 0 ->
        mget (p_K p) i j = / (PI * vget (p_tau p) j))).
Proof.
  intros H0 H01 Hm Hn Lt Ly Lv Wv Wt. split.
  - eexists. split; [apply parameter_alloc_eval with (n := n); auto; lia|].
    split.
    + intros Tpos.
      destruct (@exponential_kernel_entries t y var alpha tau0 tau1 n m
                  H0 H01 Hm Hn Lt Ly Lv Wv Wt Tpos) as (p & E & A & _ & C).
      rewrite (@parameter_alloc_eval R R_ops t y var alpha tau0 tau1 n m 0%Z)
        in E by (auto; lia).
      injection E as <-. split; assumption.
    + intros i j Hi Hj Ti. cbn [p_K]. unfold kernel_matrix. cbn [Z.eqb].
      rewrite mget_kernel_rows by assumption.
      unfold exponential. real_ops. rewrite Ti.
      assert (G : 0 < nth j (tau_grid tau0 tau1 m) 0)
        by (pose proof (@tau_grid_between tau0 tau1 m j Hm Hj H01); lra).
      replace (- 0 / nth j (tau_grid tau0 tau1 m) 0) with 0 by (field; lra).
      apply exp_0.
  - apply lorentzian_kernel_entries with (y := y) (var := var) (alpha := alpha); assumption.
Qed.

Lemma nth_noise_weights (var : gsl_vector R) (n i : nat) :
  (i < n)%nat -> nth i (noise_weights var n) 0 = 1 / vget var i.
Proof.
  intros Hi. unfold noise_weights.
  set (f := fun i : nat => (of_int 1 / vget var i)%dbl).
  rewrite (nth_indep _ 0 (f 0%nat)) by (rewrite length_map, length_seq; exact Hi).
  rewrite (map_nth f (seq 0 n) 0%nat i). rewrite seq_nth by exact Hi.
  reflexivity.
Qed.

(** X28.  The weights stored by [parameter_alloc] are the reciprocals of
    the variances; with positive variances every weight is positive. *)
Theorem parameter_alloc_weights_are_positive (t y var : gsl_vector R)
    (alpha tau0 tau1 : R) (n m : nat) (kernelType : Z) :
  (1 <= n)%nat -> (1 <= m)%nat ->
  length t = n -> length y = n -> (n <= length var)%nat ->
  written (firstn n var) = true ->
  (kernelType = 0%Z \/ kernelType = 1%Z -> written t = true) ->
  (forall i, (i < n)%nat -> 0 < vget var i) ->
  exists p : parameter R,
    parameter_alloc t y var alpha tau0 tau1 (Z.of_nat m) kernelType = Some p /\
    length (p_w p) = n /\ written (p_w p) = true /\
    forall i, (i < n)%nat ->
      vget (p_w p) i * vget var i = 1 /\ 0 < vget (p_w p) i.
Proof.
  intros Hn Hm Lt Ly Lv Wv Wt Vpos.
  eexists. split; [apply parameter_alloc_eval with (n := n); auto|].
  cbn [p_w].
  split; [rewrite vec_length; unfold noise_weights;
          rewrite length_map, length_seq; reflexivity|].
  split; [apply written_vec|].
  intros i Hi. rewrite vget_vec. cbn [of_int R_ops].
  rewrite nth_noise_weights by exact Hi.
  pose proof (Vpos i Hi) as V. split.
  - field. lra.
  - apply Rdiv_lt_0_compat; lra.
Qed.

(** * Exact arithmetic: the test signal of [example] *)

Lemma big_sum_le (f g : nat -> R) (n : nat) :
  (forall i, (i < n)%nat -> f i <= g i) -> big_sum f n <= big_sum g n.
Proof.
  induction n as [|n IH]; intros H; cbn [big_sum]; [lra|].
  pose proof (IH ltac:(intros; apply H; lia)). pose proof (H n ltac:(lia)). lra.
Qed.

Lemma exp_le (a b : R) : a <= b -> exp a <= exp b.
Proof.
  intros [H|H]; [left; apply exp_increasing; exact H | rewrite H; right; reflexivity].
Qed.

Lemma vget_fill (g : nat -> R) (k : nat) (v : gsl_vector R) (i : nat) :
  (k <= length v)%nat -> (i < k)%nat -> vget (fill 0 g k v) i = g i.
Proof.
  intros Hk Hi. unfold vget. rewrite nth_fill by lia.
  replace (0 <=? i)%nat with true by (symmetry; apply Nat.leb_le; lia).
  replace (i <? 0 + k)%nat with true by (symmetry; apply Nat.ltb_lt; lia).
  cbn [andb cell_val]. rewrite Nat.sub_0_r. reflexivity.
Qed.

Lemma sample_time_real (t0 tend : R) (k i : nat) :
  sample_time t0 tend (Z.of_nat k) i = t0 + (tend - t0) / (INR k - 1) * INR i.
Proof.
  unfold sample_time. real_ops. rewrite minus_IZR, <- !INR_IZR_INZ. reflexivity.
Qed.

Lemma multi_exponential_real (intensity tau : gsl_vector R) (ti : R) :
  multi_exponential intensity tau ti
  = big_sum (fun j => vget intensity j * exp (- ti / vget tau j)) (length tau).
Proof.
  unfold multi_exponential. rewrite sum_from_big_sum. real_ops. ring.
Qed.

(** X29.  The signal of [example] on [n >= 2] samples, for intensities
    that are not negative, positive time constants and [t0 <= tend]: the
    sample times run from [t0] to [tend] without decreasing, the signal is
    not negative and does not increase from one sample to the next, and at
    a first sample time [0] it is the sum of the intensities. *)
Theorem example_signal_decays (intensity tau t y var : gsl_vector R)
    (n : nat) (t0 tend : R) :
  (2 <= n)%nat -> t0 <= tend ->
  (length tau <= length intensity)%nat ->
  written (firstn (length tau) intensity) = true -> written tau = true ->
  (n <= length t)%nat -> (n <= length y)%nat -> (n <= length var)%nat ->
  (forall j, (j < length tau)%nat -> 0 <= vget intensity j /\ 0 < vget tau j) ->
  exists t' y' var' : gsl_vector R,
    example intensity tau t y var (Z.of_nat n) t0 tend = Some (t', y', var') /\
    vget t' 0 = t0 /\ vget t' (n - 1) = tend /\
    (forall i, (i + 1 < n)%nat ->
       vget t' i <= vget t' (i + 1) /\ vget y' (i + 1) <= vget y' i) /\
    (forall i, (i < n)%nat -> 0 <= vget y' i) /\
    (t0 = 0 -> vget y' 0 = big_sum (vget intensity) (length tau)).
Proof.
  intros Hn H01 Li Wi Wt Lt Ly Lv Pos.
  eexists _, _, _. split; [apply example_eval; assumption|].
  pose proof (INR_pred_pos Hn) as P.
  assert (Q : 0 <= (tend - t0) / (INR n - 1)).
  { apply Rmult_le_pos; [lra|]. left. apply Rinv_0_lt_compat. exact P. }
  assert (Mono : forall i, sample_time t0 tend (Z.of_nat n) i
                           <= sample_time t0 tend (Z.of_nat n) (i + 1)).
  { intros i. rewrite !sample_time_real. rewrite plus_INR. cbn [INR]. nra. }
  split; [|split; [|split; [|split]]].
  - rewrite vget_fill by lia. rewrite sample_time_real. cbn [INR]. ring.
  - rewrite vget_fill by lia. rewrite sample_time_real.
    rewrite minus_INR by lia. cbn [INR]. field. lra.
  - intros i Hi. rewrite !vget_fill by lia. split; [apply Mono|].
    rewrite !multi_exponential_real. apply big_sum_le. intros j Hj.
    destruct (Pos j Hj) as [Ij Tj].
    apply Rmult_le_compat_l; [exact Ij|]. apply exp_le.
    pose proof (Mono i) as M.
    assert (Inv : 0 < / vget tau j) by (apply Rinv_0_lt_compat; exact Tj).
    unfold Rdiv. nra.
  - intros i Hi. rewrite vget_fill by lia. rewrite multi_exponential_real.
    apply big_sum_nonneg. intros j Hj. destruct (Pos j Hj) as [Ij Tj].
    apply Rmult_le_pos; [exact Ij|]. left. apply exp_pos.
  - intros T0. rewrite vget_fill by lia. rewrite multi_exponential_real.
    apply big_sum_ext. intros j Hj. destruct (Pos j Hj) as [Ij Tj].
    rewrite sample_time_real, T0. cbn [INR].
    replace (- (0 + (tend - 0) / (INR n - 1) * 0) / vget tau j) with 0
      by (field; lra).
    rewrite exp_0. ring.
Qed.

(** * Exact arithmetic: the difference quotients printed by [main] *)

Lemma amplitudes_ext (m : nat) (x x' : gsl_vector R) :
  (m <= length x)%nat -> (m <= length x')%nat ->
  (forall j, (j < m)%nat -> vget x j = vget x' j) ->
  amplitudes m x = amplitudes m x'.
Proof.
  intros L L' H. apply (nth_ext _ _ 0 0).
  - rewrite !amplitudes_length by assumption. reflexivity.
  - intros j Hj. rewrite amplitudes_length in Hj by assumption.
    rewrite !nth_amplitudes by exact Hj. apply H. exact Hj.
Qed.

(** The objective looks at the values of the cells only. *)
Lemma objective_ext (p : parameter R) (n m : nat) (x x' : gsl_vector R) :
  (2 <= m)%nat -> length x = (m + 1)%nat -> length x' = (m + 1)%nat ->
  (forall j, (j < m + 1)%nat -> vget x j = vget x' j) ->
  objective x p n m = objective x' p n m.
Proof.
  intros Hm L L' H. rewrite !objective_is_spec by lia. unfold objective_spec.
  rewrite (@amplitudes_ext m x x') by (try lia; intros; apply H; lia).
  f_equal. apply big_sum_ext. intros i Hi. f_equal. f_equal. f_equal.
  unfold predicted_signal. rewrite (H m) by lia. f_equal.
  apply big_sum_ext. intros j Hj. rewrite (H j) by lia. reflexivity.
Qed.

Lemma vget_list_update (v : gsl_vector R) (i j : nat) (d : R) :
  (i < length v)%nat ->
  vget (list_update v i (Some d)) j = if (j =? i)%nat then d else vget v j.
Proof.
  intros Hi. unfold vget. rewrite nth_list_update.
  replace (i <? length v)%nat with true by (symmetry; apply Nat.ltb_lt; lia).
  rewrite andb_true_r. destruct (j =? i)%nat; reflexivity.
Qed.

Lemma vget_unit_vector (k i j : nat) :
  (j < k)%nat -> vget (unit_vector k i) j = if (j =? i)%nat then 1 else 0.
Proof.
  intros Hj. unfold unit_vector. rewrite vget_vec_map_seq by exact Hj. reflexivity.
Qed.

Lemma unit_vector_length (k i : nat) : length (unit_vector k i) = k.
Proof. unfold unit_vector. rewrite vec_length, length_map, length_seq. reflexivity. Qed.

(** Pairing with a unit vector picks one entry. *)
Lemma big_sum_unit (g : nat -> R) (k n i : nat) :
  (n <= k)%nat ->
  big_sum (fun j => g j * vget (unit_vector k i) j) n
  = if (i <? n)%nat then g i else 0.
Proof.
  intros Hn. induction n as [|n IH]; cbn [big_sum].
  - reflexivity.
  - rewrite IH by lia. rewrite vget_unit_vector by lia.
    destruct (n =? i)%nat eqn:E.
    + apply Nat.eqb_eq in E. subst n.
      replace (i <? i)%nat with false by (symmetry; apply Nat.ltb_ge; lia).
      replace (i <? Datatypes.S i)%nat with true by (symmetry; apply Nat.ltb_lt; lia).
      ring.
    + apply Nat.eqb_neq in E.
      destruct (i <? n)%nat eqn:E1.
      * replace (i <? Datatypes.S n)%nat with true
          by (symmetry; apply Nat.ltb_lt; apply Nat.ltb_lt in E1; lia).
        ring.
      * replace (i <? Datatypes.S n)%nat with false
          by (symmetry; apply Nat.ltb_ge; apply Nat.ltb_ge in E1; lia).
        ring.
Qed.

(** Moving one cell by [h] is moving along a unit vector. *)
Lemma objective_one_cell_moved (p : parameter R) (n m : nat) (x : gsl_vector R)
    (i : nat) (h : R) :
  (2 <= m)%nat -> length x = (m + 1)%nat -> (i < m + 1)%nat ->
  objective (list_update x i (Some (vget x i + h))) p n m
  = objective x p n m + h * nth i (gradient x p n m) 0
    + h ^ 2 * quadratic_part p n m (unit_vector (m + 1) i).
Proof.
  intros Hm Lx Hi.
  rewrite (@objective_ext p n m _ (vadd x (vscale h (unit_vector (m + 1) i))) Hm).
  - rewrite objective_along_a_line by (auto; apply unit_vector_length).
    rewrite big_sum_unit by lia.
    replace (i <? m + 1)%nat with true by (symmetry; apply Nat.ltb_lt; lia).
    reflexivity.
  - rewrite list_update_length. exact Lx.
  - rewrite vadd_length. exact Lx.
  - intros j Hj. rewrite vget_list_update by lia.
    rewrite vget_combination by (rewrite ?unit_vector_length; lia).
    rewrite vget_unit_vector by lia.
    destruct (j =? i)%nat eqn:E.
    + apply Nat.eqb_eq in E. subst j. real_ops. ring.
    + ring.
Qed.

(** In exact arithmetic a turn of the difference loop leaves [X] as it
    found it. *)
Lemma difference_step_restores (c : main_literals R) (i : nat)
    (X : gsl_vector R) (l : list (G_line R)) :
  written X = true -> (i < length X)%nat ->
  fst (difference_step c i (X, l)) = X.
Proof.
  intros W Hi. unfold difference_step. cbv zeta. cbn [fst].
  rewrite list_update_twice.
  rewrite vget_list_update by exact Hi. rewrite Nat.eqb_refl.
  real_ops.
  replace (vget X i + lit_1e_5 c - lit_1e_5 c) with (vget X i) by ring.
  rewrite <- (written_nth X W Hi). apply list_update_same.
Qed.

Lemma difference_lines (c : main_literals R) (k : nat) :
  (k <= 11)%nat ->
  steps (difference_step c) k (main_X, [])
  = (main_X,
     map (fun i =>
            {| G_index := Z.of_nat i;
               G_gradient := nth i (gradient main_X (main_parameter c)
                                      (Z.to_nat 1000) 10) 0;
               G_quotient :=
                 (objective (list_update main_X i
                               (Some (vget main_X i + lit_1e_5 c)))
                    (main_parameter c) (Z.to_nat 1000) 10
                  - objective main_X (main_parameter c) (Z.to_nat 1000) 10)
                 / lit_1e_5 c |})
       (seq 0 k)).
Proof.
  intros Hk. induction k as [|k IH]; cbn [steps]; [reflexivity|].
  rewrite IH by lia.
  set (l := map _ (seq 0 k)).
  rewrite (surjective_pairing (difference_step c k (main_X, l))).
  rewrite difference_step_restores by (try apply written_vec; cbn; lia).
  rewrite seq_S, map_app. reflexivity.
Qed.

Lemma main_weights_nonneg (c : main_literals R) (i : nat) :
  (i < Z.to_nat 1000)%nat -> 0 <= vget (p_w (main_parameter c)) i.
Proof.
  intros Hi. cbn [main_parameter p_w]. rewrite vget_vec. cbn [of_int R_ops].
  rewrite nth_noise_weights by exact Hi.
  unfold main_sigma. rewrite vget_vec_map_seq by exact Hi.
  cbn [of_int R_ops]. lra.
Qed.

(** X30.  In exact arithmetic and with a positive step [h], every line
    [G[i]] printed by [main] shows a difference quotient that exceeds the
    gradient entry beside it by [h] times the second-order coefficient of
    the objective along the [i]-th unit vector, which is not negative. *)
Theorem main_difference_quotients (o : ool_conmin R) (c : main_literals R) :
  0 < lit_1e_5 c ->
  length (final_point o (main_parameter c) 10) = 11%nat ->
  written (final_point o (main_parameter c) 10) = true ->
  exists r : main_result R,
    main o c = Some r /\ length (main_stdout r) = 11%nat /\
    forall (i : nat) (l : G_line R),
      nth_error (main_stdout r) i = Some l ->
      G_index l = Z.of_nat i /\
      G_quotient l - G_gradient l
      = lit_1e_5 c
        * quadratic_part (main_parameter c) (Z.to_nat 1000) 10 (unit_vector 11 i) /\
      G_gradient l <= G_quotient l.
Proof.
  intros Hh Lf Wf. exists (main_outcome o c).
  split; [apply main_eval; assumption|].
  unfold main_outcome. cbv zeta. cbn [main_stdout].
  rewrite difference_lines by lia. cbn [snd].
  split; [rewrite length_map, length_seq; reflexivity|].
  intros i l E.
  rewrite nth_error_map, nth_error_seq in E.
  destruct (i <? 11)%nat eqn:Ei; [|discriminate].
  apply Nat.ltb_lt in Ei. cbn [option_map Nat.add] in E.
  assert (El : forall a b : G_line R, Some a = Some b -> a = b)
    by (intros a b H; injection H; auto).
  apply El in E. subst l. clear El. cbn [G_index G_gradient G_quotient].
  split; [reflexivity|].
  assert (Lx : length (main_X (D := R)) = (10 + 1)%nat) by reflexivity.
  rewrite (@objective_one_cell_moved (main_parameter c) (Z.to_nat 1000) 10
             main_X i (lit_1e_5 c) ltac:(lia) Lx ltac:(lia)).
  pose proof (@quadratic_part_nonneg (main_parameter c) (Z.to_nat 1000) 10
                (unit_vector 11 i) (main_weights_nonneg c)) as Q.
  change (10 + 1)%nat with 11%nat.
  set (q := quadratic_part _ _ _ _) in *.
  set (g := nth i _ 0). set (f := objective _ _ _ _). real_ops.
  assert (E : (f + lit_1e_5 c * g + lit_1e_5 c ^ 2 * q - f) / lit_1e_5 c - g
              = lit_1e_5 c * q) by (field; lra).
  split; [exact E|]. nra.
Qed.

(** * The further properties on concrete inputs *)

Ltac one_sample :=
  let i := fresh "i" in
  let Hi := fresh "Hi" in
  intros i Hi; destruct i as [|i]; [cbn; try lra | exfalso; simpl in Hi; lia].

Lemma diff2_refuses_witness :
  diff2 (D := R) [Some 1; Some 2] (fresh 1) = None.
Proof.
  apply (@diff2_refuses R R_ops [Some 1; Some 2] (fresh 1)).
  - reflexivity.
  - left. simpl. lia.
Defined.

Lemma diff2_overwrites_output_witness :
  exists d : gsl_vector R,
    diff2 (vec [1; 2; 4]) (fresh 3) = Some d /\
    diff2 (vec [1; 2; 4]) (vec [7; 7; 7]) = Some d /\ written d = true.
Proof.
  destruct (@diff2_overwrites_output R R_ops 3 (vec [1; 2; 4]) (fresh 3)
              (vec [7; 7; 7]))
    as (d & E1 & E2 & _ & W).
  - lia.
  - reflexivity.
  - reflexivity.
  - simpl; lia.
  - reflexivity.
  - exists d. split; [exact E1|]. split; [exact E2 | exact W].
Defined.


Lemma parameter_alloc_feeds_evaluators_witness :
  exists p : parameter R,
    parameter_alloc (vec [0]) (vec [1]) (vec [1]) 1 1 3 (Z.of_nat 3) 0 = Some p /\
    exists f : R, fun_ sample_x p = Some f.
Proof.
  destruct (@parameter_alloc_feeds_evaluators R R_ops (vec [0]) (vec [1]) (vec [1])
              1 1 3 1 3 0)
    as (p & E & H).
  - left. reflexivity.
  - lia.
  - lia.
  - reflexivity.
  - reflexivity.
  - reflexivity.
  - reflexivity.
  - reflexivity.
  - reflexivity.
  - exists p. split; [exact E|].
    destruct (H sample_x sample_v (fresh 4) (fresh 4)
                eq_refl eq_refl eq_refl eq_refl eq_refl eq_refl) as [F _].
    exact F.
Defined.

Lemma parameter_alloc_refuses_witness :
  parameter_alloc (vec [0]) (vec [1]) (vec [1]) 1 1 3 0 0 = None.
Proof.
  apply (@parameter_alloc_refuses R R_ops (vec [0]) (vec [1]) (vec [1]) 1 1 3 0 0).
  left. lia.
Defined.

Lemma contin_iterations_witness :
  exists r : contin_result R,
    contin (still_optimizer 0) sample_bundle (fresh 3) (fresh 3) = Some r /\
    r_stdout r = Convergence_in_iterations 1 /\
    r_g r = vec [1; 1; 1] /\ r_b r = 0.
Proof.
  destruct (@contin_iterations R R_ops (still_optimizer 0) sample_bundle
              (fresh 3) (fresh 3) 3)
    as (N & r & E & H1 & _ & Hmid & _ & Out & G & B).
  - reflexivity.
  - reflexivity.
  - intros k _. rewrite still_optimizer_rests. split; reflexivity.
  - assert (N1 : N = 1%nat).
    { destruct N as [|[|N]]; [lia | reflexivity |].
      pose proof (Hmid 1%nat ltac:(lia)) as C. discriminate C. }
    subst N. exists r. split; [exact E|]. split; [exact Out|].
    split; [exact G | exact B].
Defined.

Lemma contin_refuses_witness :
  contin (still_optimizer 0) sample_bundle (fresh 2) (fresh 3) = None.
Proof.
  apply (@contin_refuses R R_ops (still_optimizer 0) sample_bundle (fresh 2) (fresh 3)).
  left. simpl. lia.
Defined.

Lemma example_writes_n_samples_witness :
  exists t' y' var' : gsl_vector R,
    example (vec [1; 2]) (vec [1; 2]) (fresh 3) (fresh 3) (fresh 3) 2 0 1
    = Some (t', y', var') /\
    nth 1 var' None = Some 1 /\ nth 2 var' None = None.
Proof.
  destruct (@example_writes_n_samples R R_ops (vec [1; 2]) (vec [1; 2])
              (fresh 3) (fresh 3) (fresh 3) 2 0 1)
    as (t' & y' & var' & E & _ & _ & _ & In & Out).
  - simpl; lia.
  - reflexivity.
  - reflexivity.
  - simpl; lia.
  - simpl; lia.
  - simpl; lia.
  - exists t', y', var'. split; [exact E|]. split.
    + destruct (In 1%nat) as (_ & _ & V); [simpl; lia | exact V].
    + destruct (Out 2%nat) as (_ & _ & V); [simpl; lia | exact V].
Defined.

Lemma example_refuses_witness :
  example (vec [1; 2]) (vec [1; 2]) (fresh 1) (fresh 3) (fresh 3) 2 0 1 = None.
Proof.
  apply (@example_refuses R R_ops (vec [1; 2]) (vec [1; 2]) (fresh 1) (fresh 3)
           (fresh 3) 2 0 1).
  - lia.
  - right. left. simpl. lia.
Defined.

Lemma saveData_rows_witness :
  (exists f : text_file R,
     saveData (vec [1; 2]) (vec [3; 4; 5]) "out.txt"%string = Some f /\
     length (file_rows f) = 2%nat) /\
  saveData (vec [1; 2]) (vec [3]) "out.txt"%string = None.
Proof.
  split.
  - destruct (@saveData_rows R R_ops (vec [1; 2]) (vec [3; 4; 5]) "out.txt"%string)
      as [H _].
    + reflexivity.
    + destruct H as (f & E & _ & L & _).
      * simpl; lia.
      * reflexivity.
      * exists f. split; [exact E | exact L].
  - destruct (@saveData_rows R R_ops (vec [1; 2]) (vec [3]) "out.txt"%string)
      as [_ H].
    + reflexivity.
    + apply H. simpl. lia.
Defined.

Lemma mexFunction_reads_eight_inputs_witness :
  mexFunction (fun _ : R => 3%Z) (still_optimizer 0) 3 0 [] = None.
Proof.
  apply (@mexFunction_reads_eight_inputs R R_ops (fun _ => 3%Z) (still_optimizer 0) 0 []).
  simpl. lia.
Defined.

Lemma still_optimizer_sized (m : nat) (p : parameter R) :
  length (final_point (still_optimizer 0) p m) = (m + 1)%nat /\
  written (final_point (still_optimizer 0) p m) = true.
Proof.
  rewrite still_optimizer_final_point. unfold default_start. split.
  - rewrite vec_length, length_app, repeat_length. reflexivity.
  - apply written_vec.
Qed.

Lemma main_runs_to_completion_witness :
  exists r : main_result R,
    main (still_optimizer 0) decimal_literals = Some r /\
    main_return r = 0%Z /\
    map (@G_index R) (main_stdout r) = map Z.of_nat (seq 0 11).
Proof.
  destruct (@main_runs_to_completion R R_ops (still_optimizer 0) decimal_literals)
    as [H _].
  destruct H as (r & fin & fout & E & Ret & Idx & _).
  - apply (still_optimizer_sized 10).
  - apply (still_optimizer_sized 10).
  - exists r. split; [exact E|]. split; [exact Ret | exact Idx].
Defined.

Lemma mexFunction_returns_the_spectrum_witness :
  exists plhs : list (mxArray R),
    mexFunction (fun _ : R => 3%Z) (still_optimizer 0) 3 8
      [ {| mxGetM := 1; mxGetN := 1; mxGetPr := [0] |};
        {| mxGetM := 1; mxGetN := 1; mxGetPr := [1] |};
        {| mxGetM := 1; mxGetN := 1; mxGetPr := [1] |};
        mxCreateDoubleScalar 1; mxCreateDoubleScalar 3;
        mxCreateDoubleScalar 3; mxCreateDoubleScalar 1;
        mxCreateDoubleScalar 0 ]
    = Some (mex_returns plhs) /\ length plhs = 3%nat.
Proof.
  destruct (@mexFunction_returns_the_spectrum R R_ops (fun _ => 3%Z)
              (still_optimizer 0) 8
              {| mxGetM := 1; mxGetN := 1; mxGetPr := [0] |}
              {| mxGetM := 1; mxGetN := 1; mxGetPr := [1] |}
              {| mxGetM := 1; mxGetN := 1; mxGetPr := [1] |}
              (mxCreateDoubleScalar 1) (mxCreateDoubleScalar 3)
              (mxCreateDoubleScalar 3) (mxCreateDoubleScalar 1)
              (mxCreateDoubleScalar 0) 1 3 3 1 0 1 3)
    as (p & _ & E).
  - reflexivity.
  - lia.
  - simpl; lia.
  - simpl; lia.
  - simpl; lia.
  - reflexivity.
  - reflexivity.
  - reflexivity.
  - reflexivity.
  - reflexivity.
  - reflexivity.
  - lia.
  - intros q. apply (still_optimizer_sized 3).
  - eexists. split; [exact E | reflexivity].
Defined.

Lemma diff2_is_linear_witness :
  exists dx dy d : list R,
    diff2 (vec [1; 2; 4]) (fresh 3) = Some (vec dx) /\
    diff2 (vec [0; 1; 0]) (fresh 3) = Some (vec dy) /\
    diff2 (vadd (vec [1; 2; 4]) (vscale 2 (vec [0; 1; 0]))) (fresh 3) = Some (vec d) /\
    nth 1 d 0 = nth 1 dx 0 + 2 * nth 1 dy 0.
Proof.
  destruct (@diff2_is_linear 3 2 (vec [1; 2; 4]) (vec [0; 1; 0]) (fresh 3))
    as (dx & dy & d & E1 & E2 & E3 & _ & H).
  - lia.
  - reflexivity.
  - simpl; lia.
  - reflexivity.
  - reflexivity.
  - reflexivity.
  - exists dx, dy, d. split; [exact E1|]. split; [exact E2|].
    split; [exact E3|]. apply H. lia.
Defined.

Lemma diff2_is_self_adjoint_witness :
  exists da db : list R,
    diff2 (vec [1; 2; 4]) (fresh 3) = Some (vec da) /\
    diff2 (vec [0; 1; 0]) (fresh 3) = Some (vec db) /\
    big_sum (fun j => nth j da 0 * vget (vec [0; 1; 0]) j) 3
    = big_sum (fun j => vget (vec [1; 2; 4]) j * nth j db 0) 3.
Proof.
  destruct (@diff2_is_self_adjoint 3 (vec [1; 2; 4]) (vec [0; 1; 0]) (fresh 3))
    as (da & db & E1 & E2 & H).
  - lia.
  - reflexivity.
  - simpl; lia.
  - simpl; lia.
  - reflexivity.
  - reflexivity.
  - exists da, db. split; [exact E1|]. split; [exact E2 | exact H].
Defined.

Lemma diff2_of_zero :
  diff2 (vec [0; 0; 0]) (fresh 3) = Some (vec (repeat 0 3)).
Proof.
  run_program. cbv [vec repeat map].
  apply f_equal. repeat (apply f_equal2; [apply f_equal; lra|]). reflexivity.
Qed.

Lemma diff2_vanishes_only_at_zero_witness :
  diff2 (vec [0; 0; 0]) (fresh 3) = Some (vec (repeat 0 3)) /\
  vget (vec [0; 0; 0]) 1 = 0.
Proof.
  split; [exact diff2_of_zero|].
  apply (@diff2_vanishes_only_at_zero 3 (vec [0; 0; 0]) (fresh 3)).
  - lia.
  - reflexivity.
  - simpl; lia.
  - reflexivity.
  - exact diff2_of_zero.
  - lia.
Defined.

Lemma sample_weights_nonneg :
  forall i, (i < 1)%nat -> 0 <= vget (p_w sample_bundle) i.
Proof. one_sample. Qed.

Lemma fun_is_nonnegative_witness :
  exists f : R, fun_ sample_x sample_bundle = Some f /\ 0 <= f.
Proof.
  apply (@fun_is_nonnegative sample_bundle 1 3 sample_x).
  - exact sample_bundle_valid.
  - lia.
  - reflexivity.
  - reflexivity.
  - exact sample_weights_nonneg.
Defined.

Lemma fun_is_quadratic_along_lines_witness :
  exists (f0 : R) (g : list R),
    fun_ sample_x sample_bundle = Some f0 /\
    fun_df sample_x sample_bundle (fresh 4) = Some (vec g) /\
    fun_ (vadd sample_x (vscale 2 sample_v)) sample_bundle
    = Some (f0 + 2 * big_sum (fun k => nth k g 0 * vget sample_v k) (3 + 1)
            + 2 ^ 2 * quadratic_part sample_bundle 1 3 sample_v).
Proof.
  destruct (@fun_is_quadratic_along_lines sample_bundle 1 3 sample_x sample_v
              (fresh 4))
    as (f0 & g & E1 & E2 & H & _).
  - exact sample_bundle_valid.
  - lia.
  - lia.
  - reflexivity.
  - reflexivity.
  - reflexivity.
  - reflexivity.
  - exists f0, g. split; [exact E1|]. split; [exact E2 | exact (H 2)].
Defined.

Lemma flat_bundle_valid : valid_parameter 1 3 flat_bundle.
Proof. repeat split. Qed.

Lemma flat_gradient_vanishes :
  fun_df origin flat_bundle (fresh 4) = Some (vec (repeat 0 (3 + 1))).
Proof.
  run_program. cbv [vec repeat map Nat.add].
  apply f_equal. repeat (apply f_equal2; [apply f_equal; lra|]). reflexivity.
Qed.

Lemma fun_is_minimal_where_fun_df_vanishes_witness :
  exists f0 f1 : R,
    fun_ origin flat_bundle = Some f0 /\
    fun_ (vadd origin sample_v) flat_bundle = Some f1 /\ f0 <= f1.
Proof.
  apply (@fun_is_minimal_where_fun_df_vanishes flat_bundle 1 3 origin sample_v
           (fresh 4)).
  - exact flat_bundle_valid.
  - lia.
  - lia.
  - reflexivity.
  - reflexivity.
  - reflexivity.
  - reflexivity.
  - one_sample.
  - exact flat_gradient_vanishes.
Defined.

Lemma fun_df_is_affine_witness :
  exists g gv g' gv' : list R,
    fun_df sample_x sample_bundle (fresh 4) = Some (vec g) /\
    fun_df (vadd sample_x sample_v) sample_bundle (fresh 4) = Some (vec gv) /\
    fun_df origin sample_bundle (fresh 4) = Some (vec g') /\
    fun_df (vadd origin sample_v) sample_bundle (fresh 4) = Some (vec gv') /\
    nth 0 gv 0 - nth 0 g 0 = nth 0 gv' 0 - nth 0 g' 0.
Proof.
  destruct (@fun_df_is_affine sample_bundle 1 3 sample_x origin sample_v (fresh 4))
    as (g & gv & g' & gv' & E1 & E2 & E3 & E4 & H).
  - exact sample_bundle_valid.
  - lia.
  - lia.
  - reflexivity.
  - reflexivity.
  - reflexivity.
  - reflexivity.
  - reflexivity.
  - reflexivity.
  - exists g, gv, g', gv'. split; [exact E1|]. split; [exact E2|].
    split; [exact E3|]. split; [exact E4|]. apply H. lia.
Defined.

Lemma fun_Hv_is_linear_witness :
  exists h h' h'' : list R,
    fun_Hv sample_x sample_bundle sample_v (fresh 4) = Some (vec h) /\
    fun_Hv origin sample_bundle sample_x (fresh 4) = Some (vec h') /\
    fun_Hv (fresh 4) sample_bundle (vadd sample_v (vscale 2 sample_x)) (fresh 4)
    = Some (vec h'') /\
    nth 0 h'' 0 = nth 0 h 0 + 2 * nth 0 h' 0.
Proof.
  destruct (@fun_Hv_is_linear sample_bundle 1 3 2 sample_x origin (fresh 4)
              sample_v sample_x (fresh 4))
    as (h & h' & h'' & E1 & E2 & E3 & _ & H).
  - exact sample_bundle_valid.
  - lia.
  - reflexivity.
  - reflexivity.
  - reflexivity.
  - reflexivity.
  - reflexivity.
  - reflexivity.
  - reflexivity.
  - reflexivity.
  - exists h, h', h''. split; [exact E1|]. split; [exact E2|].
    split; [exact E3|]. apply H. lia.
Defined.

Lemma fun_Hv_against_the_hessian_witness :
  exists h : list R,
    fun_Hv sample_x sample_bundle sample_v (fresh 4) = Some (vec h) /\
    nth 0 h 0 - hessian_vector sample_bundle 1 3 sample_v 0
    = (1 - 2 * p_alpha sample_bundle ^ 2)
      * nth 0 (D2_spec (D2_spec (amplitudes 3 sample_v))) 0 /\
    nth 3 h 0 = hessian_vector_offset sample_bundle 1 3 sample_v /\
    ~ (forall i, (i < 3)%nat -> nth i h 0 = hessian_vector sample_bundle 1 3 sample_v i).
Proof.
  destruct (@fun_Hv_against_the_hessian sample_bundle 1 3 sample_x sample_v
              (fresh 4))
    as (h & E & A & B & [Only _]).
  - exact sample_bundle_valid.
  - lia.
  - reflexivity.
  - reflexivity.
  - reflexivity.
  - reflexivity.
  - exists h. split; [exact E|]. split; [apply A; lia|]. split; [exact B|].
    intros Agree. destruct (Only Agree) as [Ha|Zv].
    + cbn [p_alpha sample_bundle] in Ha. lra.
    + pose proof (Zv 0%nat ltac:(lia)) as Z0. cbv in Z0. lra.
Defined.

Lemma fun_Hv_is_symmetric_and_nonnegative_witness :
  exists hu hv' : list R,
    fun_Hv sample_x sample_bundle sample_x (fresh 4) = Some (vec hu) /\
    fun_Hv sample_x sample_bundle sample_v (fresh 4) = Some (vec hv') /\
    big_sum (fun k => vget sample_x k * nth k hv' 0) (3 + 1)
    = big_sum (fun k => vget sample_v k * nth k hu 0) (3 + 1) /\
    0 <= big_sum (fun k => vget sample_v k * nth k hv' 0) (3 + 1).
Proof.
  destruct (@fun_Hv_is_symmetric_and_nonnegative sample_bundle 1 3 sample_x
              sample_x sample_v (fresh 4))
    as (hu & hv' & E1 & E2 & S & P).
  - exact sample_bundle_valid.
  - lia.
  - reflexivity.
  - reflexivity.
  - reflexivity.
  - reflexivity.
  - reflexivity.
  - reflexivity.
  - exists hu, hv'. split; [exact E1|]. split; [exact E2|].
    split; [exact S | exact (P sample_weights_nonneg)].
Defined.

Lemma parameter_alloc_grid_is_uniform_witness :
  exists p : parameter R,
    parameter_alloc (vec [0]) (vec [1]) (vec [1]) 1 1 3 (Z.of_nat 3) 0 = Some p /\
    vget (p_tau p) 0 = 1 /\ vget (p_tau p) (3 - 1) = 3.
Proof.
  destruct (@parameter_alloc_grid_is_uniform (vec [0]) (vec [1]) (vec [1])
              1 1 3 1 3 0)
    as (p & E & _ & _ & First & Last & _).
  - lia.
  - lia.
  - reflexivity.
  - reflexivity.
  - simpl; lia.
  - reflexivity.
  - reflexivity.
  - exists p. split; [exact E|]. split; [exact First | exact Last].
Defined.

Lemma kernels_are_positive_and_bounded_witness :
  (exists p : parameter R,
     parameter_alloc (vec [0]) (vec [1]) (vec [1]) 1 1 3 (Z.of_nat 3) 0 = Some p /\
     mget (p_K p) 0 1 = 1) /\
  (exists p : parameter R,
     parameter_alloc (vec [0]) (vec [1]) (vec [1]) 1 1 3 (Z.of_nat 3) 1 = Some p /\
     0 < mget (p_K p) 0 1).
Proof.
  destruct (@kernels_are_positive_and_bounded (vec [0]) (vec [1]) (vec [1])
              1 1 3 1 3)
    as [(p & E & _ & One) (q & F & B & _)].
  - lra.
  - lra.
  - lia.
  - lia.
  - reflexivity.
  - reflexivity.
  - simpl; lia.
  - reflexivity.
  - reflexivity.
  - split.
    + exists p. split; [exact E|]. apply One; [lia | lia | reflexivity].
    + exists q. split; [exact F|]. apply (B 0%nat 1%nat); lia.
Defined.

Lemma parameter_alloc_weights_are_positive_witness :
  exists p : parameter R,
    parameter_alloc (vec [0]) (vec [1]) (vec [2]) 1 1 3 (Z.of_nat 3) 0 = Some p /\
    vget (p_w p) 0 * vget (vec [2]) 0 = 1 /\ 0 < vget (p_w p) 0.
Proof.
  destruct (@parameter_alloc_weights_are_positive (vec [0]) (vec [1]) (vec [2])
              1 1 3 1 3 0)
    as (p & E & _ & _ & H).
  - lia.
  - lia.
  - reflexivity.
  - reflexivity.
  - simpl; lia.
  - reflexivity.
  - reflexivity.
  - one_sample.
  - exists p. split; [exact E|]. apply H. lia.
Defined.

Lemma example_signal_decays_witness :
  exists t' y' var' : gsl_vector R,
    example (vec [1; 2]) (vec [1; 2]) (fresh 2) (fresh 2) (fresh 2) (Z.of_nat 2) 0 1
    = Some (t', y', var') /\
    vget t' 0 = 0 /\ vget t' (2 - 1) = 1 /\ vget y' (0 + 1) <= vget y' 0 /\
    vget y' 0 = big_sum (vget (vec [1; 2])) (length (vec (D := R) [1; 2])).
Proof.
  destruct (@example_signal_decays (vec [1; 2]) (vec [1; 2]) (fresh 2) (fresh 2)
              (fresh 2) 2 0 1)
    as (t' & y' & var' & E & First & Last & Dec & _ & Sum).
  - lia.
  - lra.
  - simpl; lia.
  - reflexivity.
  - reflexivity.
  - simpl; lia.
  - simpl; lia.
  - simpl; lia.
  - intros j Hj. destruct j as [|[|j]]; [cbn; lra | cbn; lra | exfalso; simpl in Hj; lia].
  - exists t', y', var'. split; [exact E|]. split; [exact First|].
    split; [exact Last|]. split; [|exact (Sum eq_refl)].
    destruct (Dec 0%nat) as [_ D]; [lia | exact D].
Defined.

Lemma main_difference_quotients_witness :
  exists r : main_result R,
    main (still_optimizer 0) decimal_literals = Some r /\
    length (main_stdout r) = 11%nat /\
    forall (i : nat) (l : G_line R),
      nth_error (main_stdout r) i = Some l -> G_gradient l <= G_quotient l.
Proof.
  destruct (@main_difference_quotients (still_optimizer 0) decimal_literals)
    as (r & E & L & H).
  - cbn. lra.
  - apply (still_optimizer_sized 10).
  - apply (still_optimizer_sized 10).
  - exists r. split; [exact E|]. split; [exact L|].
    intros i l Hl. destruct (H i l Hl) as (_ & _ & Le). exact Le.
Defined.
